(** * hnswgo: a shallow embedding of the HNSW index and its candidate heaps

    The development follows the Go packages of the repository:
    - [models]   : [Element] and [Candidate];
    - [hnswheap] : [CandidateHeap], driven by Go's [container/heap];
    - [hnsw]     : [NewHNSW], [Insert], [SearchLayer], [addConnection],
                   [SelectNeighborsHeuristic] and [KNNSearch].
    - [draft]    : the first draft of [hnsw], with [BigCandidates] and
                   [SmallCandidates], kept in the repository.

    Conventions.
    - Go [int] is modelled by [Z]; the one product that can leave the 64-bit
      range ([2 * M] in [NewHNSW]) is wrapped explicitly.
    - Go [float64] is modelled by the primitive binary64 floats of Rocq, so
      that [Distance] computes with the same rounding as the program.
    - A Go run-time panic is the outcome [Panic]; loops whose bound is not a
      datum of the program carry a fuel, and [OutOfFuel] is shown unreachable.
    - The mutex of [HNSW] is not modelled: calls run one at a time. *)

From Stdlib Require Import ZArith Floats String.
From stdpp Require Import gmap list.

#[local] Open Scope Z_scope.

(** ** Outcomes of a call *)

Inductive exec (A : Type) : Type :=
| Ok (a : A)
| Panic
| OutOfFuel.

Arguments Ok {A} a.
Arguments Panic {A}.
Arguments OutOfFuel {A}.

#[global] Instance exec_ret : MRet exec := fun A a => Ok a.
#[global] Instance exec_bind : MBind exec := fun A B k m =>
  match m with
  | Ok a => k a
  | Panic => Panic
  | OutOfFuel => OutOfFuel
  end.

(** A Go expression that panics when the looked-up value is missing. *)
Definition orPanic {A} (o : option A) : exec A :=
  match o with
  | Some a => Ok a
  | None => Panic
  end.

(** ** Package models *)

Module models.

Record Element := mkElement {
  ID : Z;
  Embeddings : list float;
  Msg : string
}.

Record Candidate := mkCandidate {
  NodeID : Z;
  Distance : float
}.

End models.
Import models.

(** Go's zero values, returned by a map read of a missing key. *)
Definition zeroElement : Element := mkElement 0 [] EmptyString.
Definition zeroCandidate : Candidate := mkCandidate 0 PrimFloat.zero.

#[global] Instance Candidate_inhabited : Inhabited Candidate :=
  populate zeroCandidate.

(** ** Package hnswheap *)

Definition SMALL : string := "small".
Definition BIG : string := "big".

Record CandidateHeap := mkHeap {
  Candidates : list Candidate;
  Compare : string
}.

Definition NewCandidateHeap (compare : string) : CandidateHeap :=
  mkHeap [] compare.
Definition NewBigCandidatesHeap : CandidateHeap := NewCandidateHeap "big".
Definition NewSmallCandidatesHeap : CandidateHeap := NewCandidateHeap "small".

Definition Len (ch : CandidateHeap) : nat := length (Candidates ch).

(** [Less i j]: the sign of a difference of the two distances, the operands
    being exchanged when [Compare] is not ["big"]. *)
Definition Less (ch : CandidateHeap) (i j : nat) : bool :=
  let di := models.Distance (Candidates ch !!! i) in
  let dj := models.Distance (Candidates ch !!! j) in
  let res := if String.eqb (Compare ch) BIG
             then PrimFloat.sub di dj
             else PrimFloat.sub dj di in
  PrimFloat.ltb PrimFloat.zero res.

Definition swapList {A} (l : list A) (i j : nat) : list A :=
  match l !! i, l !! j with
  | Some a, Some b => <[j := a]> (<[i := b]> l)
  | _, _ => l
  end.

Definition Swap (ch : CandidateHeap) (i j : nat) : CandidateHeap :=
  mkHeap (swapList (Candidates ch) i j) (Compare ch).

(** The method [Push]: append. *)
Definition Push (ch : CandidateHeap) (x : Candidate) : CandidateHeap :=
  mkHeap (Candidates ch ++ [x]) (Compare ch).

(** The method [Pop]: remove and return the last element; [old[n-1]] panics
    on an empty slice. *)
Definition Pop (ch : CandidateHeap) : exec (Candidate * CandidateHeap) :=
  item ← orPanic (last (Candidates ch));
  Ok (item, mkHeap (removelast (Candidates ch)) (Compare ch)).

Definition ExtractHeapData (ch : CandidateHeap) : list Z :=
  NodeID <$> Candidates ch.

(** ** Go's container/heap, instantiated at [CandidateHeap]

    [up] and [down] are the two loops of the library. Each turn moves the
    index strictly towards the root (resp. the leaves), so the first
    argument bounds the number of turns by the index (resp. by [n - i]);
    when it reaches [0] the loop of the library has met its [break]. The
    library calls [Less] and [Swap] with indices below [Len] only. *)

Fixpoint up (turns : nat) (ch : CandidateHeap) (j : nat) : CandidateHeap :=
  match turns with
  | O => ch
  | S turns' =>
      let i := ((j - 1) / 2)%nat in
      if bool_decide (i = j) || negb (Less ch j i) then ch
      else up turns' (Swap ch i j) i
  end.

Fixpoint down (turns : nat) (ch : CandidateHeap) (i n : nat) : CandidateHeap :=
  match turns with
  | O => ch
  | S turns' =>
      let j1 := (2 * i + 1)%nat in
      if bool_decide (n ≤ j1)%nat then ch
      else
        let j2 := (j1 + 1)%nat in
        let j := if bool_decide (j2 < n)%nat && Less ch j2 j1 then j2 else j1 in
        if negb (Less ch j i) then ch
        else down turns' (Swap ch i j) j n
  end.

Definition heap_up (ch : CandidateHeap) (j : nat) : CandidateHeap :=
  up j ch j.

Definition heap_down (ch : CandidateHeap) (i n : nat) : CandidateHeap :=
  down (n - i) ch i n.

(** [heap.Init]: [for i := n/2 - 1; i >= 0; i-- { down(h, i, n) }]. *)
Definition heap_Init (ch : CandidateHeap) : CandidateHeap :=
  let n := Len ch in
  foldl (fun h i => heap_down h i n) ch (reverse (seq 0 (n / 2))).

(** [heap.Push]: [h.Push(x); up(h, h.Len()-1)]. *)
Definition heap_Push (ch : CandidateHeap) (x : Candidate) : CandidateHeap :=
  let ch1 := Push ch x in
  heap_up ch1 (Len ch1 - 1).

(** [heap.Pop]: [n := h.Len() - 1; h.Swap(0, n); down(h, 0, n); h.Pop()].
    On an empty heap [Swap(0, -1)] panics. *)
Definition heap_Pop (ch : CandidateHeap) : exec (Candidate * CandidateHeap) :=
  if bool_decide (Len ch = 0%nat) then Panic
  else
    let n := (Len ch - 1)%nat in
    Pop (heap_down (Swap ch 0 n) 0 n).

(** [topValue]: the result slice [res] has [K] cells from the start
    ([make([]int, K)] panics for a negative [K]). *)

(** [for i := 0; i < K; i++ { tmpRes := ch.Pop(); res[i] = tmpRes.NodeID }] *)
Fixpoint topSame (count i : nat) (ch : CandidateHeap) (res : list Z)
  : exec (list Z * CandidateHeap) :=
  match count with
  | O => Ok (res, ch)
  | S count' =>
      '(item, ch') ← Pop ch;
      topSame count' (S i) ch' (<[i := NodeID item]> res)
  end.

(** [for j := 0; j < (ch.Len() - K); j++ { heap.Pop(ch) }]: the bound is
    read again at every turn, while the heap shrinks. Each turn pops, so
    [Len ch] turns are enough. *)
Fixpoint topDrop (turns : nat) (j K : Z) (ch : CandidateHeap)
  : exec CandidateHeap :=
  match turns with
  | O => Ok ch
  | S turns' =>
      if bool_decide (j < Z.of_nat (Len ch) - K) then
        '(_, ch') ← heap_Pop ch;
        topDrop turns' (j + 1) K ch'
      else Ok ch
  end.

(** [for j := (index - 1); j > 0; j-- { tmpRes := heap.Pop(ch); res[j] = ... }] *)
Fixpoint topFill (j : nat) (ch : CandidateHeap) (res : list Z)
  : exec (list Z * CandidateHeap) :=
  match j with
  | O => Ok (res, ch)
  | S j' =>
      '(item, ch') ← heap_Pop ch;
      topFill j' ch' (<[j := NodeID item]> res)
  end.

Definition topValue (K : Z) (topType : string) (ch : CandidateHeap)
  : exec (list Z * CandidateHeap) :=
  if bool_decide (K < 0) then Panic
  else
    let res := replicate (Z.to_nat K) 0 in
    if String.eqb topType (Compare ch) then
      topSame (Z.to_nat K) 0 ch res
    else
      ch1 ← (if bool_decide (K < Z.of_nat (Len ch))
             then topDrop (Len ch) 0 K ch else Ok ch);
      let index := if bool_decide (K > Z.of_nat (Len ch))
                   then Z.of_nat (Len ch) else K in
      topFill (Z.to_nat (index - 1)) ch1 res.

Definition TopKMinVal (K : Z) (ch : CandidateHeap)
  : exec (list Z * CandidateHeap) := topValue K SMALL ch.

Definition TopKmaxVal (K : Z) (ch : CandidateHeap)
  : exec (list Z * CandidateHeap) := topValue K BIG ch.

(** ** Package hnsw *)

Record HNSW := mkHNSW {
  Layers : list (gmap Z CandidateHeap);
  EnterPoint : Z;
  M : Z;
  maxConnections : Z;
  EfConstruction : Z;
  NormalizationML : float;
  MaxLayers : Z;
  Elements : gmap Z Element
}.

(** Two's complement wrap-around of a 64-bit [int]. *)
Definition wrap64 (z : Z) : Z := (z + 2 ^ 63) `mod` 2 ^ 64 - 2 ^ 63.

Definition NewHNSW (efConstruction M maxLayers : Z) (nm : float) : HNSW :=
  mkHNSW [] (-1) M (wrap64 (2 * M)) efConstruction nm maxLayers ∅.

(** [min] of the package. *)
Definition min (a b : Z) : Z := if bool_decide (a < b) then a else b.

(** [Distance]: the loop ranges over the coordinates of [e1] and indexes
    [e2] with the same index, which panics when [e2] is shorter. The
    receiver is not used. *)
Fixpoint sumSquares (sum : float) (xs ys : list float) : exec float :=
  match xs with
  | [] => Ok sum
  | x :: xs' =>
      match ys with
      | [] => Panic
      | y :: ys' =>
          let diff := PrimFloat.sub x y in
          sumSquares (PrimFloat.add sum (PrimFloat.mul diff diff)) xs' ys'
      end
  end.

Definition Distance (e1 e2 : Element) : exec float :=
  sum ← sumSquares PrimFloat.zero (Embeddings e1) (Embeddings e2);
  Ok (PrimFloat.sqrt sum).

(** [h.Elements[id]]: the zero [Element] when the key is missing. *)
Definition elementOf (h : HNSW) (id : Z) : Element :=
  default zeroElement (Elements h !! id).

(** [s[i]] for a Go [int] index: out of range panics. *)
Definition index {A} (s : list A) (i : Z) : option A :=
  if bool_decide (i < 0) then None else s !! Z.to_nat i.

(** [h.Layers[lc][id]] followed by a use of the heap: the slice index panics
    out of range, and a missing key yields a nil pointer whose use panics. *)
Definition layerHeap (h : HNSW) (lc id : Z) : exec CandidateHeap :=
  layer ← orPanic (index (Layers h) lc);
  orPanic (layer !! id).

(** Left-to-right iteration with early exit on a panic. *)
Fixpoint foldExec {S A} (f : S → A → exec S) (s : S) (l : list A) : exec S :=
  match l with
  | [] => Ok s
  | a :: l' => s' ← f s a; foldExec f s' l'
  end.

(** *** SearchLayer *)

(** The state of the search: visited set [V], frontier [C], results [W]. *)
Definition searchState : Type := gset Z * CandidateHeap * CandidateHeap.

(** The body of the inner loop for the neighbour [vNode]; [fc] is the root of
    [W] read once before the inner loop starts. *)
Definition visit (h : HNSW) (q : Element) (ef : Z) (fc : Candidate)
    (st : searchState) (vNode : Z) : exec searchState :=
  let '(V, C, W) := st in
  if bool_decide (vNode ∈ V) then Ok st
  else
    let V := {[vNode]} ∪ V in
    d ← Distance q (elementOf h vNode);
    if PrimFloat.ltb d (models.Distance fc)
       || bool_decide (Z.of_nat (Len W) < ef) then
      let tmpC := mkCandidate vNode d in
      let C := heap_Push C tmpC in
      let W := heap_Push W tmpC in
      if bool_decide (ef < Z.of_nat (Len W)) then
        '(_, W') ← heap_Pop W;
        Ok (V, C, W')
      else Ok (V, C, W)
    else Ok (V, C, W).

(** The loop [for C.Len() > 0]. *)
Fixpoint searchLoop (fuel : nat) (h : HNSW) (q : Element) (ef lc : Z)
    (st : searchState) : exec CandidateHeap :=
  match fuel with
  | O => OutOfFuel
  | S fuel' =>
      let '(V, C, W) := st in
      if bool_decide (Len C = 0%nat) then Ok W
      else
        '(nc, C) ← heap_Pop C;
        fc ← orPanic (Candidates W !! 0%nat);
        if PrimFloat.ltb (models.Distance fc) (models.Distance nc) then Ok W
        else
          nbrs ← layerHeap h lc (NodeID nc);
          st' ← foldExec (visit h q ef fc) (V, C, W) (ExtractHeapData nbrs);
          searchLoop fuel' h q ef lc st'
  end.

(** The ids that occur in some neighbour list of a layer. *)
Definition neighbourIDs (layer : gmap Z CandidateHeap) : gset Z :=
  list_to_set (mjoin ((ExtractHeapData ∘ snd) <$> map_to_list layer)).

(** Every turn of the loop takes one candidate out of [C], and a candidate
    enters [C] only when its id is visited for the first time; the ids that
    can be visited are the entry point and those of [neighbourIDs]. *)
Definition searchFuel (h : HNSW) (lc : Z) : nat :=
  2 + size (neighbourIDs (default ∅ (index (Layers h) lc))).

Definition SearchLayer (h : HNSW) (q : Element) (entryPoint ef lc : Z)
  : exec CandidateHeap :=
  let V : gset Z := {[entryPoint]} in
  d ← Distance q (elementOf h entryPoint);
  let qCandidate := mkCandidate entryPoint d in
  let C := heap_Push (heap_Init NewSmallCandidatesHeap) qCandidate in
  let W := heap_Push (heap_Init NewBigCandidatesHeap) qCandidate in
  searchLoop (searchFuel h lc) h q ef lc (V, C, W).

(** *** addConnection *)

(** The heap behind the pointer [h.Layers[lc][id]] is replaced by [ch]. *)
Definition storeHeap (h : HNSW) (lc id : Z) (ch : CandidateHeap) : HNSW :=
  mkHNSW (alter (fun layer => <[id := ch]> layer) (Z.to_nat lc) (Layers h))
         (EnterPoint h) (M h) (maxConnections h) (EfConstruction h)
         (NormalizationML h) (MaxLayers h) (Elements h).

Definition addConnection (h : HNSW) (from to layer : Z) : exec HNSW :=
  ft ← Distance (elementOf h from) (elementOf h to);
  let toCandidate := mkCandidate to ft in
  nb ← layerHeap h layer from;
  if bool_decide (Z.of_nat (Len nb) < maxConnections h) then
    Ok (storeHeap h layer from (heap_Push nb toCandidate))
  else
    top ← orPanic (Candidates nb !! 0%nat);
    if PrimFloat.ltb ft (models.Distance top) then
      '(_, nb') ← heap_Pop nb;
      Ok (storeHeap h layer from (heap_Push nb' toCandidate))
    else Ok h.

(** The two loops that walk down the layers with [ef = 1], in [Insert]
    ([for lc := topLevel; lc > level; lc--]) and in [KNNSearch]
    ([for lc := totalLayers - 1; lc >= 1; lc--]): [turns] layers from [lc]
    downwards, each replacing [ep] by the id at index 0 of the result. *)
Fixpoint descend (turns : nat) (h : HNSW) (q : Element) (lc ep : Z) : exec Z :=
  match turns with
  | O => Ok ep
  | S turns' =>
      W ← SearchLayer h q ep 1 lc;
      c ← orPanic (Candidates W !! 0%nat);
      descend turns' h q (lc - 1) (NodeID c)
  end.

(** *** KNNSearch *)

Definition KNNSearch (h : HNSW) (q : Element) (K : Z) : exec (list Z) :=
  let ep := EnterPoint h in
  let totalLayers := Z.of_nat (length (Layers h)) in
  ep ← descend (Z.to_nat (totalLayers - 1)) h q (totalLayers - 1) ep;
  W ← SearchLayer h q ep K 0;
  '(res, _) ← TopKMinVal K W;
  Ok res.

Section WithRangeOrder.

(** Go leaves the order of [for r := range R] over a map unspecified. The
    order in which the keys of a map are produced is a parameter of the
    model: [rangeOrder keys] is the sequence in which a [range] yields them. *)
Variable rangeOrder : list Z → list Z.

(** *** SelectNeighborsHeuristic *)

(** [for _, c := range candidates { dist := ...; heap.Push(W, ...) }] *)
Definition pushCandidate (h : HNSW) (q : Element) (W : CandidateHeap) (c : Z)
  : exec CandidateHeap :=
  dist ← Distance q (elementOf h c);
  Ok (heap_Push W (mkCandidate c dist)).

(** The body of the extension loop for one neighbour of a candidate. *)
Definition extendOne (h : HNSW) (q : Element)
    (st : CandidateHeap * gset Z) (neighbor : Z)
  : exec (CandidateHeap * gset Z) :=
  let '(W, neighbors) := st in
  if bool_decide (neighbor ∈ neighbors) then Ok st
  else
    dist ← Distance q (elementOf h neighbor);
    Ok (heap_Push W (mkCandidate neighbor dist), {[neighbor]} ∪ neighbors).

Definition extendCandidate (h : HNSW) (q : Element) (layer : Z)
    (st : CandidateHeap * gset Z) (c : Z)
  : exec (CandidateHeap * gset Z) :=
  nb ← layerHeap h layer c;
  foldExec (extendOne h q) st (ExtractHeapData nb).

(** [for r := range R { if Distance(e, r) < e.Distance { closer = false; break } }] *)
Fixpoint closerLoop (h : HNSW) (e : Candidate) (rs : list Z) : exec bool :=
  match rs with
  | [] => Ok true
  | r :: rs' =>
      d ← Distance (elementOf h (NodeID e)) (elementOf h r);
      if PrimFloat.ltb d (models.Distance e) then Ok false
      else closerLoop h e rs'
  end.

(** [for W.Len() > 0 && len(R) < M]: every turn pops [W], so [Len W] turns
    are enough. *)
Fixpoint selectLoop (turns : nat) (h : HNSW) (M : Z)
    (W : CandidateHeap) (R : gset Z) (Wd : CandidateHeap)
  : exec (gset Z * CandidateHeap) :=
  match turns with
  | O => Ok (R, Wd)
  | S turns' =>
      if bool_decide (0 < Len W)%nat && bool_decide (Z.of_nat (size R) < M) then
        '(e, W') ← heap_Pop W;
        closer ← closerLoop h e (rangeOrder (elements R));
        if (closer : bool) then selectLoop turns' h M W' ({[NodeID e]} ∪ R) Wd
        else selectLoop turns' h M W' R (heap_Push Wd e)
      else Ok (R, Wd)
  end.

(** [for Wd.Len() > 0 && len(R) < M { e := heap.Pop(Wd); R[e.NodeID] = true }] *)
Fixpoint keepLoop (turns : nat) (M : Z) (Wd : CandidateHeap) (R : gset Z)
  : exec (gset Z) :=
  match turns with
  | O => Ok R
  | S turns' =>
      if bool_decide (0 < Len Wd)%nat && bool_decide (Z.of_nat (size R) < M) then
        '(e, Wd') ← heap_Pop Wd;
        keepLoop turns' M Wd' ({[NodeID e]} ∪ R)
      else Ok R
  end.

Definition SelectNeighborsHeuristic (h : HNSW) (q : Element)
    (candidates : list Z) (M layer : Z)
    (extendCandidates keepPrunedConnections : bool) : exec (list Z) :=
  let R : gset Z := ∅ in
  let W := heap_Init NewSmallCandidatesHeap in
  W ← foldExec (pushCandidate h q) W candidates;
  W ← (if extendCandidates
       then '(W', _) ← foldExec (extendCandidate h q layer) (W, ∅) candidates;
            Ok W'
       else Ok W);
  let Wd := heap_Init NewSmallCandidatesHeap in
  '(R, Wd) ← selectLoop (Len W) h M W R Wd;
  R ← (if keepPrunedConnections then keepLoop (Len Wd) M Wd R else Ok R);
  Ok (rangeOrder (elements R)).

(** *** Insert *)

(** The value returned by [generateLevel], which reads the process-wide
    source of [math/rand], is the argument [drawn] of [Insert]. *)

(** [h.Elements[q.ID] = q] *)
Definition setElement (h : HNSW) (q : Element) : HNSW :=
  mkHNSW (Layers h) (EnterPoint h) (M h) (maxConnections h) (EfConstruction h)
         (NormalizationML h) (MaxLayers h) (<[ID q := q]> (Elements h)).

(** [for i := len(h.Layers); i <= level; i++ { h.Layers = append(...) }] *)
Definition newLayers (count : nat) (id : Z) : list (gmap Z CandidateHeap) :=
  replicate count {[ id := heap_Init (mkHeap [] "big") ]}.

(** The branch [topLevel <= level]: the new layers, each holding the new
    point alone, and [h.EnterPoint = q.ID]. *)
Definition growLayers (h : HNSW) (level id : Z) : HNSW :=
  let topLevel := Z.of_nat (length (Layers h)) - 1 in
  mkHNSW (Layers h ++ newLayers (Z.to_nat (level - topLevel)) id)
         id (M h) (maxConnections h) (EfConstruction h)
         (NormalizationML h) (MaxLayers h) (Elements h).

(** The body of [for _, n := range selected]. *)
Definition connectOne (qID lc : Z) (h : HNSW) (n : Z) : exec HNSW :=
  h ← addConnection h n qID lc;
  addConnection h qID n lc.

(** One turn of [for lc := min(topLevel, level); lc >= 0; lc--]: the state
    and the entry point for the next layer. *)
Definition connectLayer (h : HNSW) (q : Element) (lc ep : Z) : exec (HNSW * Z) :=
  _ ← orPanic (index (Layers h) lc);
  let h := storeHeap h lc (ID q) (heap_Init (mkHeap [] "big")) in
  tmpNeighbors ← SearchLayer h q ep (EfConstruction h) lc;
  let neighbors := ExtractHeapData tmpNeighbors in
  selected ← SelectNeighborsHeuristic h q neighbors (M h) lc true true;
  h ← foldExec (connectOne (ID q) lc) h selected;
  ep ← orPanic (neighbors !! 0%nat);
  Ok (h, ep).

Fixpoint connect (turns : nat) (h : HNSW) (q : Element) (lc ep : Z)
  : exec (HNSW * Z) :=
  match turns with
  | O => Ok (h, ep)
  | S turns' =>
      '(h, ep) ← connectLayer h q lc ep;
      connect turns' h q (lc - 1) ep
  end.

Definition Insert (drawn : Z) (q : Element) (h : HNSW) : exec HNSW :=
  let level := if bool_decide (drawn > MaxLayers h) then MaxLayers h else drawn in
  let h := setElement h q in
  let topLevel := Z.of_nat (length (Layers h)) - 1 in
  let ep := EnterPoint h in
  '(h, ep) ←
    (if bool_decide (topLevel ≤ level) then Ok (growLayers h level (ID q), ep)
     else
       ep ← descend (Z.to_nat (topLevel - level)) h q topLevel ep;
       Ok (h, ep));
  let start := min topLevel level in
  '(h, _) ← connect (Z.to_nat (start + 1)) h q start ep;
  Ok h.

(** A run of insertions, each with the level drawn for it. *)
Definition InsertAll (h : HNSW) (ops : list (Z * Element)) : exec HNSW :=
  foldExec (fun h op => Insert op.1 op.2 h) h ops.

End WithRangeOrder.

(** ** Notions used in the statements *)

(** [id] has a neighbour list at layer [lc]. *)
Definition present (h : HNSW) (lc id : Z) : Prop :=
  ∃ layer, index (Layers h) lc = Some layer ∧ is_Some (layer !! id).

(** The edge [u → v] is stored at layer [lc]. *)
Definition edge (h : HNSW) (lc u v : Z) : Prop :=
  ∃ layer ch, index (Layers h) lc = Some layer ∧ layer !! u = Some ch
              ∧ v ∈ ExtractHeapData ch.

(** The points that a walk along stored edges of layer [lc] reaches from
    [entry]. *)
Inductive reachable (h : HNSW) (lc entry : Z) : Z → Prop :=
| reach_entry : reachable h lc entry entry
| reach_edge u v :
    reachable h lc entry u → edge h lc u v → reachable h lc entry v.

(** A candidate carries the distance from [q] to its point. *)
Definition tagged (h : HNSW) (q : Element) (c : Candidate) : Prop :=
  Distance q (elementOf h (NodeID c)) = Ok (models.Distance c).

(** What [SearchLayer] needs of layer [lc] to run to its end: the layer
    exists, the ends of its edges have a neighbour list there, and the
    vector of every point of the layer has a coordinate for each coordinate
    of [q]. *)
Record searchable (h : HNSW) (q : Element) (lc : Z) : Prop := {
  searchable_layer : is_Some (index (Layers h) lc);
  searchable_closed : ∀ u v, edge h lc u v → present h lc v;
  searchable_dim : ∀ u, present h lc u →
    (length (Embeddings q) ≤ length (Embeddings (elementOf h u)))%nat
}.

(** The invariant of the loop of [SearchLayer]. *)
Record searchInv (h : HNSW) (q : Element) (ef lc entry : Z)
    (V : gset Z) (C W : CandidateHeap) : Prop := {
  inv_W_nonempty : (1 ≤ Len W)%nat;
  inv_W_bound : Z.of_nat (Len W) ≤ Z.max ef 1;
  inv_C_visited : ∀ c, c ∈ Candidates C → NodeID c ∈ V;
  inv_W_visited : ∀ c, c ∈ Candidates W → NodeID c ∈ V;
  inv_W_tagged : ∀ c, c ∈ Candidates W → tagged h q c;
  inv_V_reach : ∀ v, v ∈ V → reachable h lc entry v;
  inv_W_NoDup : NoDup (ExtractHeapData W);
  inv_W_Compare : Compare W = BIG
}.

Definition searchInvSt (h : HNSW) (q : Element) (ef lc entry : Z)
    (st : searchState) : Prop :=
  searchInv h q ef lc entry st.1.1 st.1.2 st.2.

(** The quantity that decreases at every turn of the loop. *)
Definition searchMeasure (h : HNSW) (lc : Z) (st : searchState) : nat :=
  Len st.1.2 + size (neighbourIDs (default ∅ (index (Layers h) lc)) ∖ st.1.1).

(** A property of ids that holds of every candidate of a heap. *)
Definition idsIn (P : Z → Prop) (ch : CandidateHeap) : Prop :=
  ∀ c, c ∈ Candidates ch → P (NodeID c).

(** The pool of the heuristic: the candidates and their neighbours at the
    layer. *)
Definition pool (h : HNSW) (layer : Z) (candidates : list Z) (r : Z) : Prop :=
  r ∈ candidates ∨ ∃ c, c ∈ candidates ∧ edge h layer c r.

(** Every distance that the heuristic may compute over the ids of [P] is
    defined: the vectors of these points have one common length, which is at
    least that of [q]. *)
Record measurable (h : HNSW) (q : Element) (P : Z → Prop) : Prop := {
  measurable_query : ∀ a, P a →
    (length (Embeddings q) ≤ length (Embeddings (elementOf h a)))%nat;
  measurable_pair : ∀ a b, P a → P b →
    (length (Embeddings (elementOf h a))
       ≤ length (Embeddings (elementOf h b)))%nat
}.

(** Every neighbour list of the index has at most [cap] entries. *)
Definition degreeBounded (cap : Z) (h : HNSW) : Prop :=
  ∀ lc id ch, layerHeap h lc id = Ok ch → Z.of_nat (Len ch) ≤ cap.

(** Every neighbour list has room for one more entry. *)
Definition roomy (h : HNSW) : Prop :=
  ∀ lc id ch, layerHeap h lc id = Ok ch → Z.of_nat (Len ch) < maxConnections h.

(** The stored edges of every layer come in both directions. *)
Definition symmetric (h : HNSW) : Prop :=
  ∀ lc u v, edge h lc u v → edge h lc v u.

(** [id] has no neighbour list yet, at any layer. *)
Definition fresh (h : HNSW) (id : Z) : Prop := ∀ lc, ¬ present h lc id.

(** The fields that the linking of a new point leaves alone. *)
Record sameConfig (h h' : HNSW) : Prop := {
  same_EnterPoint : EnterPoint h' = EnterPoint h;
  same_M : M h' = M h;
  same_maxConnections : maxConnections h' = maxConnections h;
  same_EfConstruction : EfConstruction h' = EfConstruction h;
  same_NormalizationML : NormalizationML h' = NormalizationML h;
  same_MaxLayers : MaxLayers h' = MaxLayers h;
  same_Elements : Elements h' = Elements h;
  same_length : length (Layers h') = length (Layers h)
}.

(** What the linking of the point [qID] relies on, and keeps, while the
    layers are walked: the ends of the edges have a neighbour list at the
    layer, the stored vectors of the points of the layers, and of [qID],
    have [d] coordinates, the points other than [qID] are in every layer
    below one they are in, [M] is not negative and a list may hold an
    entry. *)
Record linkable (d : nat) (qID : Z) (h : HNSW) : Prop := {
  link_closed : ∀ lc u v, edge h lc u v → present h lc v;
  link_dim : ∀ lc u, present h lc u →
    length (Embeddings (elementOf h u)) = d;
  link_new : length (Embeddings (elementOf h qID)) = d;
  link_nested : ∀ lc u, u ≠ qID → 0 < lc →
    present h lc u → present h (lc - 1) u;
  link_M : 0 ≤ M h;
  link_cap : 1 ≤ maxConnections h
}.

(** An index as [Insert] leaves it: as above for every point, and with the
    entry point in the top layer. *)
Record wellFormed (d : nat) (h : HNSW) : Prop := {
  wf_closed : ∀ lc u v, edge h lc u v → present h lc v;
  wf_dim : ∀ lc u, present h lc u →
    length (Embeddings (elementOf h u)) = d;
  wf_nested : ∀ lc u, 0 < lc → present h lc u → present h (lc - 1) u;
  wf_entry : (0 < length (Layers h))%nat →
    present h (Z.of_nat (length (Layers h)) - 1) (EnterPoint h);
  wf_M : 0 ≤ M h;
  wf_cap : 1 ≤ maxConnections h
}.

(** The ids of the candidates of a heap, as a set. *)
Definition idSet (ch : CandidateHeap) : gset Z :=
  list_to_set (ExtractHeapData ch).

(** ** The notions above, computed *)

Definition presentb (h : HNSW) (lc id : Z) : bool :=
  match index (Layers h) lc with
  | Some layer => bool_decide (is_Some (layer !! id))
  | None => false
  end.

Definition edgeb (h : HNSW) (lc u v : Z) : bool :=
  match layerHeap h lc u with
  | Ok ch => bool_decide (v ∈ ExtractHeapData ch)
  | _ => false
  end.

Definition longEnough (h : HNSW) (e : Element) (id : Z) : bool :=
  bool_decide (length (Embeddings e) ≤ length (Embeddings (elementOf h id)))%nat.

Definition searchableb (h : HNSW) (q : Element) (lc : Z) : bool :=
  match index (Layers h) lc with
  | Some layer =>
      forallb (fun uch =>
                 longEnough h q uch.1
                 && forallb (fun v => bool_decide (is_Some (layer !! v)))
                      (ExtractHeapData uch.2))
        (map_to_list layer)
  | None => false
  end.

(** The stored edges of a layer. *)
Definition edgesOf (layer : gmap Z CandidateHeap) : list (Z * Z) :=
  uch ← map_to_list layer; pair uch.1 <$> ExtractHeapData uch.2.

Definition symmetricb (h : HNSW) : bool :=
  forallb (fun layer =>
             forallb (fun uv => bool_decide ((uv.2, uv.1) ∈ edgesOf layer))
               (edgesOf layer))
    (Layers h).

Definition roomyb (h : HNSW) : bool :=
  forallb (fun layer =>
             forallb (fun uch =>
                        bool_decide (Z.of_nat (Len uch.2) < maxConnections h))
               (map_to_list layer))
    (Layers h).

Definition freshb (h : HNSW) (id : Z) : bool :=
  forallb (fun layer => bool_decide (layer !! id = None)) (Layers h).

(** The ids of [pool], listed. *)
Definition poolOf (h : HNSW) (layer : Z) (candidates : list Z) : list Z :=
  candidates
  ++ (c ← candidates;
      match layerHeap h layer c with
      | Ok ch => ExtractHeapData ch
      | _ => []
      end).

Definition measurableb (h : HNSW) (q : Element) (ids : list Z) : bool :=
  forallb (fun a =>
             longEnough h q a
             && forallb (fun b => longEnough h (elementOf h a) b) ids)
    ids.

(** [a] is strictly nearer to [q] than [b] is. *)
Definition closer (h : HNSW) (q : Element) (a b : Z) : Prop :=
  ∃ da db, Distance q (elementOf h a) = Ok da
           ∧ Distance q (elementOf h b) = Ok db
           ∧ PrimFloat.ltb da db = true.

(** ** The order of the distances *)

(** [d == d] in Go: [d] is not a NaN. *)
Definition ordered (d : float) : Prop := PrimFloat.eqb d d = true.

(** The place of a float in the order that [SFcompare] computes: its sign
    class, then its exponent and its mantissa, both negated for a negative
    number. *)
Definition SFkey (x : spec_float) : Z * Z * Z :=
  match x with
  | S754_zero _ | S754_nan => (0, 0, 0)
  | S754_infinity s => (if s then -2 else 2, 0, 0)
  | S754_finite s m e => if s then (-1, - e, - Z.pos m) else (1, e, Z.pos m)
  end.

(** The lexicographic order of these triples. *)
Definition lt3 (a b : Z * Z * Z) : Prop :=
  a.1.1 < b.1.1
  ∨ (a.1.1 = b.1.1 ∧ (a.1.2 < b.1.2 ∨ (a.1.2 = b.1.2 ∧ a.2 < b.2))).

(** A float above zero. *)
Definition positiveSF (x : spec_float) : Prop :=
  match x with
  | S754_finite false _ _ | S754_infinity false => True
  | _ => False
  end.

(** What [Less] tests, on the two candidates themselves: [a] is farther
    than [b] in a heap whose [Compare] is ["big"], nearer in any other. *)
Definition before (compare : string) (a b : Candidate) : bool :=
  if String.eqb compare BIG
  then PrimFloat.ltb (models.Distance b) (models.Distance a)
  else PrimFloat.ltb (models.Distance a) (models.Distance b).

(** The index that [up] compares with. *)
Definition parent (j : nat) : nat := ((j - 1) / 2)%nat.

Definition heapAt (compare : string) (l : list Candidate) (k : nat) : Prop :=
  before compare (l !!! k) (l !!! parent k) = false.

(** The invariant of container/heap: no cell is before its parent, and the
    distances are numbers. *)
Record heapOrdered (ch : CandidateHeap) : Prop := {
  heap_ordered : ∀ c, c ∈ Candidates ch → ordered (models.Distance c);
  heap_parent : ∀ k, (0 < k < Len ch)%nat →
    heapAt (Compare ch) (Candidates ch) k
}.

(** The distance from [q] to any point of layer [lc] is a number, so that
    any two of them compare. *)
Definition comparable (h : HNSW) (q : Element) (lc : Z) : Prop :=
  ∀ u d, present h lc u → Distance q (elementOf h u) = Ok d → ordered d.

Definition comparableb (h : HNSW) (q : Element) (lc : Z) : bool :=
  match index (Layers h) lc with
  | Some layer =>
      forallb (fun uch => match Distance q (elementOf h uch.1) with
                          | Ok d => PrimFloat.eqb d d
                          | _ => true
                          end)
        (map_to_list layer)
  | None => true
  end.

(** Every neighbour of [u] at layer [lc] has been visited. *)
Definition expanded (h : HNSW) (lc : Z) (V : gset Z) (u : Z) : Prop :=
  ∀ v, edge h lc u v → v ∈ V.

(** The order in the two heaps of the search. *)
Record searchOrd (h : HNSW) (q : Element) (st : searchState) : Prop := {
  ord_C_tagged : ∀ c, c ∈ Candidates st.1.2 → tagged h q c;
  ord_C_Compare : Compare st.1.2 = SMALL;
  ord_C : heapOrdered st.1.2;
  ord_W : heapOrdered st.2
}.

(** The state while the neighbours [nbrs] of the candidate [nc] are
    visited. *)
Definition visiting (h : HNSW) (q : Element) (ef lc entry : Z)
    (nc : Candidate) (nbrs : CandidateHeap) (st : searchState) : Prop :=
  searchInvSt h q ef lc entry st ∧ searchOrd h q st
  ∧ reachable h lc entry (NodeID nc) ∧ layerHeap h lc (NodeID nc) = Ok nbrs.

(** [b] is a candidate of [W] that no candidate of [W] and no visited point
    is strictly nearer than. *)
Definition bestOf (h : HNSW) (q : Element) (V : gset Z) (W : CandidateHeap)
    (b : Candidate) : Prop :=
  b ∈ Candidates W
  ∧ (∀ c, c ∈ Candidates W →
       PrimFloat.ltb (models.Distance c) (models.Distance b) = false)
  ∧ (∀ v dv, v ∈ V → Distance q (elementOf h v) = Ok dv →
       PrimFloat.ltb dv (models.Distance b) = false).

(** Every candidate of [W] waits in [C], unless its neighbours have been
    visited or it is the candidate [nc] whose neighbours are being
    visited. *)
Definition pending (h : HNSW) (lc : Z) (nc : option Candidate)
    (st : searchState) : Prop :=
  ∀ c, c ∈ Candidates st.2 →
    c ∈ Candidates st.1.2 ∨ expanded h lc st.1.1 (NodeID c) ∨ Some c = nc.

(** While the neighbours of [nc] are visited with the farthest candidate
    [fc] read before: the nearest candidate is not farther than [fc]. *)
Definition greedyInv (h : HNSW) (q : Element) (lc : Z) (fc nc : Candidate)
    (st : searchState) : Prop :=
  (∃ b, bestOf h q st.1.1 st.2 b
        ∧ PrimFloat.ltb (models.Distance fc) (models.Distance b) = false)
  ∧ ordered (models.Distance fc)
  ∧ pending h lc (Some nc) st.

(** While [W] has room for every reachable point: the visited points are
    all in [W], and each waits in [C] unless its neighbours have been
    visited or it is [nc]. *)
Definition roomInv (h : HNSW) (lc entry : Z) (nc : option Candidate)
    (st : searchState) : Prop :=
  entry ∈ st.1.1
  ∧ (∀ v, v ∈ st.1.1 → v ∈ ExtractHeapData st.2)
  ∧ (∀ c, c ∈ Candidates st.1.2 → c ∈ Candidates st.2)
  ∧ (∀ v, v ∈ st.1.1 →
       v ∈ ExtractHeapData st.1.2 ∨ expanded h lc st.1.1 v
       ∨ Some v = NodeID <$> nc).

(** ** Small indexes used as examples *)

(** A point of the line. *)
Definition point (id : Z) (x : float) : Element :=
  mkElement id [x] EmptyString.

(** A [range] that yields the keys in the order of [elements]. *)
Definition idOrder (keys : list Z) : list Z := keys.

Definition fromOk {A} (d : A) (e : exec A) : A :=
  match e with
  | Ok a => a
  | _ => d
  end.

(** [NewHNSW(10, 1, 5, 1.0)]: every neighbour list is capped at 2. *)
Definition smallIndex : HNSW := NewHNSW 10 1 5 1%float.

(** One point. *)
Definition singleIndex : HNSW :=
  fromOk smallIndex (InsertAll idOrder smallIndex [(0, point 7 0%float)]).

(** Two points, at 0 and 10. *)
Definition pairIndex : HNSW :=
  fromOk smallIndex
    (InsertAll idOrder smallIndex [(0, point 1 0%float); (0, point 2 10%float)]).

(** Three points at 0, 8 and 5, all drawn at level 0: the edges are
    1 - 2 and 2 - 3. *)
Definition lineOps : list (Z * Element) :=
  [(0, point 1 0%float); (0, point 2 8%float); (0, point 3 5%float)].
Definition lineIndex : HNSW :=
  fromOk smallIndex (InsertAll idOrder smallIndex lineOps).

(** The same three points, the second one drawn at level 1. *)
Definition liftedOps : list (Z * Element) :=
  [(0, point 1 0%float); (1, point 2 8%float); (0, point 3 5%float)].

(** Three points, all drawn at level 1. *)
Definition towerIndex : HNSW :=
  fromOk smallIndex
    (InsertAll idOrder smallIndex
       [(1, point 1 0%float); (1, point 2 1%float); (1, point 3 2%float)]).

(** Four points at 0, 10, 11 and 10.25. *)
Definition crowdedIndex : HNSW :=
  fromOk smallIndex
    (InsertAll idOrder smallIndex
       [(0, point 1 0%float); (0, point 2 10%float); (0, point 3 11%float);
        (0, point 4 10.25%float)]).

(** [NewHNSW(10, 2, 5, 1.0)]: [M = 2]. *)
Definition widerIndex : HNSW := NewHNSW 10 2 5 1%float.

(** A [range] that yields the keys in the opposite order. *)
Definition backOrder (keys : list Z) : list Z := reverse keys.

(** Four points at 0, 1, 7 and 4, all drawn at level 0. *)
Definition spreadOps : list (Z * Element) :=
  [(0, point 1 0%float); (0, point 2 1%float); (0, point 3 7%float);
   (0, point 4 4%float)].

(** ** The first draft of package hnsw

    The repository also holds the draft from which package [hnsw] was
    rewritten: adjacency as slices of ids, the two heap types
    [BigCandidates] and [SmallCandidates], and a [searchLayer] that returns
    a slice holding its entry point. *)

Module draft.

(** *** BigCandidates and SmallCandidates

    Both are slices of candidates; they differ by [Less]. *)

Definition Big_Less (bc : list Candidate) (i j : nat) : bool :=
  PrimFloat.ltb (models.Distance (bc !!! j)) (models.Distance (bc !!! i)).

Definition Small_Less (sc : list Candidate) (i j : nat) : bool :=
  PrimFloat.ltb (models.Distance (sc !!! i)) (models.Distance (sc !!! j)).

(** The methods [Push] and [Pop] of both types. *)
Definition Push (s : list Candidate) (x : Candidate) : list Candidate :=
  s ++ [x].

Definition Pop (s : list Candidate) : exec (Candidate * list Candidate) :=
  item ← orPanic (last s);
  Ok (item, removelast s).

(** Go's container/heap over a slice of candidates with a given [Less]. *)
Section ContainerHeap.

Variable Less : list Candidate → nat → nat → bool.

Fixpoint up (turns : nat) (s : list Candidate) (j : nat) : list Candidate :=
  match turns with
  | O => s
  | S turns' =>
      let i := ((j - 1) / 2)%nat in
      if bool_decide (i = j) || negb (Less s j i) then s
      else up turns' (swapList s i j) i
  end.

Fixpoint down (turns : nat) (s : list Candidate) (i n : nat) : list Candidate :=
  match turns with
  | O => s
  | S turns' =>
      let j1 := (2 * i + 1)%nat in
      if bool_decide (n ≤ j1)%nat then s
      else
        let j2 := (j1 + 1)%nat in
        let j := if bool_decide (j2 < n)%nat && Less s j2 j1 then j2 else j1 in
        if negb (Less s j i) then s
        else down turns' (swapList s i j) j n
  end.

Definition heap_Init (s : list Candidate) : list Candidate :=
  let n := length s in
  foldl (fun s i => down (n - i) s i n) s (reverse (seq 0 (n / 2))).

Definition heap_Push (s : list Candidate) (x : Candidate) : list Candidate :=
  let s1 := Push s x in
  up (length s1 - 1) s1 (length s1 - 1).

Definition heap_Pop (s : list Candidate) : exec (Candidate * list Candidate) :=
  if bool_decide (length s = 0%nat) then Panic
  else
    let n := (length s - 1)%nat in
    Pop (down (n - 0) (swapList s 0 n) 0 n).

End ContainerHeap.

(** *** The index *)

Record HNSW := mkHNSW {
  Layers : list (gmap Z (list Z));
  EnterPoint : Z;
  InitConnects : Z;
  MaxConnections : Z;
  EfConstruction : Z;
  NormalizationML : float;
  MaxLayers : Z;
  Elements : gmap Z Element
}.

Definition NewHNSW (maxConnections efConstruction initConnects maxLayers : Z)
    (nm : float) : HNSW :=
  mkHNSW [] (-1) initConnects maxConnections efConstruction nm maxLayers ∅.

Definition distance (e1 e2 : Element) : exec float :=
  sum ← sumSquares PrimFloat.zero (Embeddings e1) (Embeddings e2);
  Ok (PrimFloat.sqrt sum).

Definition elementOf (h : HNSW) (id : Z) : Element :=
  default zeroElement (Elements h !! id).

(** [h.Layers[lc][id]]: the slice index panics out of range; a missing key
    yields the nil slice. *)
Definition neighbours (h : HNSW) (lc id : Z) : exec (list Z) :=
  layer ← orPanic (index (Layers h) lc);
  Ok (default [] (layer !! id)).

(** *** searchLayer *)

Definition searchState : Type := gset Z * list Candidate * list Candidate.

(** The body of [for _, el := range h.Layers[lc][nc.NodeID]]. The distance
    to [el] is taken once in the test and once more for [tmpC], with the
    same arguments. *)
Definition visit (h : HNSW) (q : Element) (ef : Z)
    (st : searchState) (el : Z) : exec searchState :=
  let '(V, C, W) := st in
  if bool_decide (el ∈ V) then Ok st
  else
    let V := {[el]} ∪ V in
    fc ← orPanic (W !! 0%nat);
    d ← distance q (elementOf h el);
    if PrimFloat.ltb (models.Distance fc) d
       || bool_decide (Z.of_nat (length W) < ef) then
      let tmpC := mkCandidate el d in
      let C := heap_Push Small_Less C tmpC in
      let W := heap_Push Big_Less W tmpC in
      if bool_decide (ef < Z.of_nat (length W)) then
        '(_, W') ← heap_Pop Big_Less W;
        Ok (V, C, W')
      else Ok (V, C, W)
    else Ok (V, C, W).

(** The loop [for C.Len() > 0]; what it leaves behind is not used. *)
Fixpoint searchLoop (fuel : nat) (h : HNSW) (q : Element) (ef lc : Z)
    (st : searchState) : exec unit :=
  match fuel with
  | O => OutOfFuel
  | S fuel' =>
      let '(V, C, W) := st in
      if bool_decide (length C = 0%nat) then Ok ()
      else
        '(nc, C) ← heap_Pop Small_Less C;
        fc ← orPanic (W !! 0%nat);
        if PrimFloat.ltb (models.Distance fc) (models.Distance nc) then Ok ()
        else
          nbrs ← neighbours h lc (NodeID nc);
          st' ← foldExec (visit h q ef) (V, C, W) nbrs;
          searchLoop fuel' h q ef lc st'
  end.

(** The ids that occur in some neighbour list of a layer. *)
Definition neighbourIDs (layer : gmap Z (list Z)) : gset Z :=
  list_to_set (mjoin (snd <$> map_to_list layer)).

Definition searchFuel (h : HNSW) (lc : Z) : nat :=
  2 + size (neighbourIDs (default ∅ (index (Layers h) lc))).

(** The quantity that decreases at every turn of the loop. *)
Definition searchMeasure (h : HNSW) (lc : Z) (st : searchState) : nat :=
  length st.1.2
  + size (neighbourIDs (default ∅ (index (Layers h) lc)) ∖ st.1.1).

Definition searchLayer (h : HNSW) (q : Element) (entryPoint ef lc : Z)
  : exec (list Z) :=
  let V : gset Z := {[entryPoint]} in
  d ← distance q (elementOf h entryPoint);
  let qCandidate := mkCandidate entryPoint d in
  let C := heap_Push Small_Less (heap_Init Small_Less []) qCandidate in
  let W := heap_Push Big_Less (heap_Init Big_Less []) qCandidate in
  _ ← searchLoop (searchFuel h lc) h q ef lc (V, C, W);
  Ok [entryPoint].

(** *** addConnection

    [h.Layers[layer][from] = append(h.Layers[layer][from], to)]: a missing
    key reads as the nil slice, and the assignment makes the key. *)
Definition addConnection (h : HNSW) (from to layer : Z) : exec HNSW :=
  l ← orPanic (index (Layers h) layer);
  Ok (mkHNSW (<[Z.to_nat layer := <[from := default [] (l !! from) ++ [to]]> l]>
                (Layers h))
             (EnterPoint h) (InitConnects h) (MaxConnections h)
             (EfConstruction h) (NormalizationML h) (MaxLayers h) (Elements h)).

(** The loop of [Insert] that walks down with [ef = 1] and the loop of
    [KNNSearch]: [turns] layers from [lc] downwards. *)
Fixpoint descend (turns : nat) (h : HNSW) (q : Element) (lc ep : Z) : exec Z :=
  match turns with
  | O => Ok ep
  | S turns' =>
      W ← searchLayer h q ep 1 lc;
      ep ← orPanic (W !! 0%nat);
      descend turns' h q (lc - 1) ep
  end.

(** *** KNNSearch: [K] is not used. *)
Definition KNNSearch (h : HNSW) (q : Element) (K : Z) : exec (list Z) :=
  let ep := EnterPoint h in
  let totalLayers := Z.of_nat (length (Layers h)) in
  ep ← descend (Z.to_nat totalLayers) h q (totalLayers - 1) ep;
  searchLayer h q ep (EfConstruction h) 0.

Section WithRangeOrder.

Variable rangeOrder : list Z → list Z.

(** *** SelectNeighborsHeuristic *)

Definition pushCandidate (h : HNSW) (q : Element) (W : list Candidate) (c : Z)
  : exec (list Candidate) :=
  dist ← distance q (elementOf h c);
  Ok (heap_Push Small_Less W (mkCandidate c dist)).

Definition extendOne (h : HNSW) (q : Element)
    (st : list Candidate * gset Z) (neighbor : Z)
  : exec (list Candidate * gset Z) :=
  let '(W, neighbors) := st in
  if bool_decide (neighbor ∈ neighbors) then Ok st
  else
    dist ← distance q (elementOf h neighbor);
    Ok (heap_Push Small_Less W (mkCandidate neighbor dist),
        {[neighbor]} ∪ neighbors).

Definition extendCandidate (h : HNSW) (q : Element) (layer : Z)
    (st : list Candidate * gset Z) (c : Z)
  : exec (list Candidate * gset Z) :=
  nb ← neighbours h layer c;
  foldExec (extendOne h q) st nb.

Fixpoint closerLoop (h : HNSW) (e : Candidate) (rs : list Z) : exec bool :=
  match rs with
  | [] => Ok true
  | r :: rs' =>
      d ← distance (elementOf h (NodeID e)) (elementOf h r);
      if PrimFloat.ltb d (models.Distance e) then Ok false
      else closerLoop h e rs'
  end.

Fixpoint selectLoop (turns : nat) (h : HNSW) (M : Z)
    (W : list Candidate) (R : gset Z) (Wd : list Candidate)
  : exec (gset Z * list Candidate) :=
  match turns with
  | O => Ok (R, Wd)
  | S turns' =>
      if bool_decide (0 < length W)%nat && bool_decide (Z.of_nat (size R) < M)
      then
        '(e, W') ← heap_Pop Small_Less W;
        closer ← closerLoop h e (rangeOrder (elements R));
        if (closer : bool) then selectLoop turns' h M W' ({[NodeID e]} ∪ R) Wd
        else selectLoop turns' h M W' R (heap_Push Small_Less Wd e)
      else Ok (R, Wd)
  end.

Fixpoint keepLoop (turns : nat) (M : Z) (Wd : list Candidate) (R : gset Z)
  : exec (gset Z) :=
  match turns with
  | O => Ok R
  | S turns' =>
      if bool_decide (0 < length Wd)%nat && bool_decide (Z.of_nat (size R) < M)
      then
        '(e, Wd') ← heap_Pop Small_Less Wd;
        keepLoop turns' M Wd' ({[NodeID e]} ∪ R)
      else Ok R
  end.

Definition SelectNeighborsHeuristic (h : HNSW) (q : Element)
    (candidates : list Z) (M layer : Z)
    (extendCandidates keepPrunedConnections : bool) : exec (list Z) :=
  let R : gset Z := ∅ in
  let W := heap_Init Small_Less [] in
  W ← foldExec (pushCandidate h q) W candidates;
  W ← (if extendCandidates
       then '(W', _) ← foldExec (extendCandidate h q layer) (W, ∅) candidates;
            Ok W'
       else Ok W);
  let Wd := heap_Init Small_Less [] in
  '(R, Wd) ← selectLoop (length W) h M W R Wd;
  R ← (if keepPrunedConnections then keepLoop (length Wd) M Wd R else Ok R);
  Ok (rangeOrder (elements R)).

(** *** Insert *)

Definition setElement (h : HNSW) (q : Element) : HNSW :=
  mkHNSW (Layers h) (EnterPoint h) (InitConnects h) (MaxConnections h)
         (EfConstruction h) (NormalizationML h) (MaxLayers h)
         (<[ID q := q]> (Elements h)).

Definition growLayers (h : HNSW) (level id : Z) : HNSW :=
  let topLevel := Z.of_nat (length (Layers h)) - 1 in
  mkHNSW (Layers h ++ replicate (Z.to_nat (level - topLevel)) {[ id := [] ]})
         id (InitConnects h) (MaxConnections h) (EfConstruction h)
         (NormalizationML h) (MaxLayers h) (Elements h).

(** The body of [for _, n := range selected]. *)
Definition connectOne (qID lc : Z) (h : HNSW) (n : Z) : exec HNSW :=
  h ← addConnection h qID n lc;
  addConnection h n qID lc.

Definition connectLayer (h : HNSW) (q : Element) (lc ep : Z) : exec (HNSW * Z) :=
  neighbors ← searchLayer h q ep (EfConstruction h) lc;
  selected ← SelectNeighborsHeuristic h q neighbors (InitConnects h) lc true true;
  h ← foldExec (connectOne (ID q) lc) h selected;
  ep ← orPanic (neighbors !! 0%nat);
  Ok (h, ep).

Fixpoint connect (turns : nat) (h : HNSW) (q : Element) (lc ep : Z)
  : exec (HNSW * Z) :=
  match turns with
  | O => Ok (h, ep)
  | S turns' =>
      '(h, ep) ← connectLayer h q lc ep;
      connect turns' h q (lc - 1) ep
  end.

Definition Insert (drawn : Z) (q : Element) (h : HNSW) : exec HNSW :=
  let level := if bool_decide (drawn > MaxLayers h) then MaxLayers h else drawn in
  let h := setElement h q in
  let topLevel := Z.of_nat (length (Layers h)) - 1 in
  let ep := EnterPoint h in
  '(h, ep) ←
    (if bool_decide (topLevel ≤ level) then Ok (growLayers h level (ID q), ep)
     else
       ep ← descend (Z.to_nat (topLevel - level)) h q topLevel ep;
       Ok (h, ep));
  let start := min topLevel level in
  '(h, _) ← connect (Z.to_nat (start + 1)) h q start ep;
  Ok h.

End WithRangeOrder.

(** The edge [u → v] is stored at layer [lc]. *)
Definition edge (h : HNSW) (lc u v : Z) : Prop :=
  ∃ layer l, index (Layers h) lc = Some layer ∧ layer !! u = Some l ∧ v ∈ l.

Definition symmetric (h : HNSW) : Prop :=
  ∀ lc u v, edge h lc u v → edge h lc v u.

(** The index with another value in the field [MaxConnections]. *)
Definition withMaxConnections (m : Z) (h : HNSW) : HNSW :=
  mkHNSW (Layers h) (EnterPoint h) (InitConnects h) m (EfConstruction h)
         (NormalizationML h) (MaxLayers h) (Elements h).

(** [h'] stores every edge that [h] stores, and is symmetric if [h] is. *)
Definition grows (h h' : HNSW) : Prop :=
  (∀ lc u v, edge h lc u v → edge h' lc u v)
  ∧ (symmetric h → symmetric h').

End draft.

(** The draft index [NewHNSW(2, 10, 1, 5, 1.0)] and the three points of
    [lineOps] inserted into it. *)
Definition draftEmpty : draft.HNSW := draft.NewHNSW 2 10 1 5 1%float.

Definition draftLine : draft.HNSW :=
  fromOk draftEmpty
    (foldExec (fun h op => draft.Insert idOrder op.1 op.2 h) draftEmpty lineOps).

(* ===================================================================== *)
(** * Properties *)
(* ===================================================================== *)

#[local] Set Warnings "-clear-no-such-hyp".

(** ** The outcome monad *)

Lemma Ok_bind {A B} (a : A) (k : A → exec B) : Ok a ≫= k = k a.
Proof. reflexivity. Qed.

Lemma bind_Ok {A B} (m : exec A) (k : A → exec B) (b : B) :
  m ≫= k = Ok b ↔ ∃ a, m = Ok a ∧ k a = Ok b.
Proof.
  destruct m; simpl; split.
  - eauto.
  - by intros (a' & [= ->] & ?).
  - done.
  - by intros (? & ? & ?).
  - done.
  - by intros (? & ? & ?).
Qed.

Lemma bind_OutOfFuel {A B} (m : exec A) (k : A → exec B) :
  m ≫= k = OutOfFuel ↔ m = OutOfFuel ∨ ∃ a, m = Ok a ∧ k a = OutOfFuel.
Proof.
  destruct m; simpl; split.
  - eauto.
  - by intros [|(a' & [= ->] & ?)].
  - done.
  - by intros [|(? & ? & ?)].
  - eauto.
  - done.
Qed.

Lemma orPanic_Ok {A} (o : option A) (a : A) : orPanic o = Ok a ↔ o = Some a.
Proof. destruct o; simpl; split; congruence. Qed.

Lemma orPanic_fuel {A} (o : option A) : orPanic o ≠ OutOfFuel.
Proof. by destruct o. Qed.

Lemma foldExec_app {S A} (f : S → A → exec S) (s : S) (l1 l2 : list A) :
  foldExec f s (l1 ++ l2) = foldExec f s l1 ≫= fun s' => foldExec f s' l2.
Proof.
  revert s. induction l1 as [|a l1 IH]; intros s; simpl; [done|].
  destruct (f s a); simpl; auto.
Qed.

(** An invariant of the state is carried along a [foldExec]. *)
Lemma foldExec_inv {S A} (P : S → Prop) (f : S → A → exec S) (l : list A) :
  (∀ s a s', a ∈ l → P s → f s a = Ok s' → P s') →
  ∀ s s', P s → foldExec f s l = Ok s' → P s'.
Proof.
  induction l as [|a l IH]; intros Hf s s' Hs; simpl.
  - by intros [= <-].
  - intros (s1 & H1 & H2)%bind_Ok.
    eapply IH; [|eapply Hf; [|exact Hs|exact H1]|exact H2].
    + intros ? ? ? ?. apply Hf. by right.
    + by left.
Qed.

Lemma foldExec_Ok {S A} (f : S → A → exec S) (l : list A) (s : S) :
  (∀ s a, a ∈ l → ∃ s', f s a = Ok s') → ∃ s', foldExec f s l = Ok s'.
Proof.
  revert s. induction l as [|a l IH]; intros s Hf; simpl; [eauto|].
  destruct (Hf s a) as [s1 ->]; [by left|]. simpl.
  apply IH. intros ? ? ?. apply Hf. by right.
Qed.

Lemma foldExec_fuel {S A} (f : S → A → exec S) (l : list A) (s : S) :
  (∀ s a, f s a ≠ OutOfFuel) → foldExec f s l ≠ OutOfFuel.
Proof.
  intros Hf. revert s. induction l as [|a l IH]; intros s; simpl; [done|].
  intros [?|(? & _ & ?)]%bind_OutOfFuel; [by eapply Hf|by eapply IH].
Qed.

(** ** The heaps *)

Lemma swapList_perm {A} (l : list A) (i j : nat) : swapList l i j ≡ₚ l.
Proof.
  unfold swapList.
  destruct (l !! i) as [a|] eqn:Hi; [|done].
  destruct (l !! j) as [b|] eqn:Hj; [|done].
  by apply Permutation_insert_swap.
Qed.

Lemma Swap_perm ch i j : Candidates (Swap ch i j) ≡ₚ Candidates ch.
Proof. apply swapList_perm. Qed.

Lemma up_perm turns ch j : Candidates (up turns ch j) ≡ₚ Candidates ch.
Proof.
  revert ch j. induction turns as [|t IH]; intros ch j; simpl; [done|].
  case_match; [done|]. by rewrite IH, Swap_perm.
Qed.

Lemma down_perm turns ch i n : Candidates (down turns ch i n) ≡ₚ Candidates ch.
Proof.
  revert ch i. induction turns as [|t IH]; intros ch i; simpl; [done|].
  repeat case_match; try done; by rewrite IH, Swap_perm.
Qed.

Lemma up_Compare turns ch j : Compare (up turns ch j) = Compare ch.
Proof.
  revert ch j. induction turns as [|t IH]; intros ch j; simpl; [done|].
  case_match; [done|]. by rewrite IH.
Qed.

Lemma down_Compare turns ch i n : Compare (down turns ch i n) = Compare ch.
Proof.
  revert ch i. induction turns as [|t IH]; intros ch i; simpl; [done|].
  repeat case_match; try done; by rewrite IH.
Qed.

(** The bound on the turns of [up] and [down] is never what stops them:
    more turns change nothing. *)
Lemma up_turns t1 t2 ch j :
  (j ≤ t1)%nat → (j ≤ t2)%nat → up t1 ch j = up t2 ch j.
Proof.
  revert t2 ch j. induction t1 as [|t1 IH]; intros t2 ch j H1 H2.
  - assert (j = 0%nat) as -> by lia. by destruct t2.
  - destruct t2 as [|t2].
    + by assert (j = 0%nat) as -> by lia.
    + cbn [up]. case_match; [done|].
      assert (((j - 1) / 2 ≤ (j - 1))%nat) by (apply Nat.Div0.div_le_upper_bound; lia).
      assert (j ≠ 0%nat) by (by intros ->).
      apply IH; lia.
Qed.

Lemma down_turns t1 t2 ch i n :
  (n - i ≤ t1)%nat → (n - i ≤ t2)%nat → down t1 ch i n = down t2 ch i n.
Proof.
  revert t2 ch i. induction t1 as [|t1 IH]; intros t2 ch i H1 H2.
  - destruct t2; simpl; [done|]. rewrite bool_decide_eq_true_2; [done|lia].
  - destruct t2 as [|t2]; simpl.
    + rewrite bool_decide_eq_true_2; [done|lia].
    + case_bool_decide; [done|]. case_match; [done|].
      case_match; apply IH; lia.
Qed.

Lemma heap_Push_perm ch x : Candidates (heap_Push ch x) ≡ₚ x :: Candidates ch.
Proof.
  unfold heap_Push, heap_up. rewrite up_perm. simpl.
  by rewrite Permutation_app_comm.
Qed.

Lemma heap_Push_Len ch x : Len (heap_Push ch x) = S (Len ch).
Proof. unfold Len. by rewrite heap_Push_perm. Qed.

Lemma heap_Push_Compare ch x : Compare (heap_Push ch x) = Compare ch.
Proof. unfold heap_Push, heap_up. by rewrite up_Compare. Qed.

Lemma heap_Init_perm ch : Candidates (heap_Init ch) ≡ₚ Candidates ch.
Proof.
  unfold heap_Init. cbv zeta.
  generalize (reverse (seq 0 (Len ch / 2))). generalize (Len ch).
  intros n l. revert ch.
  induction l as [|i l IH]; intros ch; simpl; [done|].
  rewrite IH. apply down_perm.
Qed.

Lemma heap_Init_empty compare : heap_Init (mkHeap [] compare) = mkHeap [] compare.
Proof. reflexivity. Qed.

Lemma Pop_inv ch item ch' :
  Pop ch = Ok (item, ch') →
  Candidates ch = Candidates ch' ++ [item] ∧ Compare ch' = Compare ch.
Proof.
  unfold Pop. intros (x & Hx%orPanic_Ok & [= -> <-])%bind_Ok. simpl.
  apply last_Some in Hx as [l' ->]. by rewrite removelast_last.
Qed.

Lemma Pop_Ok ch : Len ch ≠ 0%nat → ∃ item ch', Pop ch = Ok (item, ch').
Proof.
  unfold Pop, Len. intros Hn.
  destruct (last (Candidates ch)) as [x|] eqn:Hx; simpl; [eauto|].
  apply last_None in Hx. by rewrite Hx in Hn.
Qed.

Lemma Pop_fuel ch : Pop ch ≠ OutOfFuel.
Proof. unfold Pop. by destruct (last (Candidates ch)). Qed.

Lemma heap_Pop_inv ch item ch' :
  heap_Pop ch = Ok (item, ch') →
  item :: Candidates ch' ≡ₚ Candidates ch ∧ Compare ch' = Compare ch.
Proof.
  unfold heap_Pop. case_bool_decide; [done|].
  intros [Hc Hcmp]%Pop_inv. unfold heap_down in *.
  rewrite down_Compare in Hcmp. split; [|done].
  etrans; [|apply (Swap_perm ch 0 (Len ch - 1))].
  etrans; [|apply (down_perm (Len ch - 1 - 0) _ 0 (Len ch - 1))].
  rewrite Hc. by rewrite Permutation_app_comm.
Qed.

Lemma heap_Pop_Ok ch :
  Len ch ≠ 0%nat → ∃ item ch', heap_Pop ch = Ok (item, ch').
Proof.
  intros Hn. unfold heap_Pop. rewrite bool_decide_eq_false_2 by done.
  apply Pop_Ok. unfold Len, heap_down. by rewrite down_perm, Swap_perm.
Qed.

Lemma heap_Pop_fuel ch : heap_Pop ch ≠ OutOfFuel.
Proof. unfold heap_Pop. case_bool_decide; [done|apply Pop_fuel]. Qed.

Lemma heap_Pop_Len ch item ch' :
  heap_Pop ch = Ok (item, ch') → Len ch = S (Len ch').
Proof. intros [Hp _]%heap_Pop_inv. unfold Len. by rewrite <- Hp. Qed.

Lemma heap_Pop_elem ch item ch' c :
  heap_Pop ch = Ok (item, ch') → c ∈ Candidates ch' → c ∈ Candidates ch.
Proof. intros [Hp _]%heap_Pop_inv Hc. rewrite <- Hp. by right. Qed.

Lemma heap_Push_elem ch x c :
  c ∈ Candidates (heap_Push ch x) ↔ c = x ∨ c ∈ Candidates ch.
Proof. rewrite heap_Push_perm. apply elem_of_cons. Qed.

(** ** Floats *)

Lemma SFcompare_refl s : SFcompare s s = Some Eq ∨ SFcompare s s = None.
Proof.
  destruct s as [[]|[]| |[] m e]; simpl; auto;
    rewrite Z.compare_refl, ?Pos.compare_cont_refl, ?Pos.compare_refl; auto.
Qed.

(** No [float64] is below itself. *)
Lemma ltb_irrefl (x : float) : PrimFloat.ltb x x = false.
Proof.
  rewrite ltb_spec. unfold SFltb.
  by destruct (SFcompare_refl (Prim2SF x)) as [-> | ->].
Qed.

(** ** Distance *)

Lemma sumSquares_Ok xs ys sum :
  (length xs ≤ length ys)%nat → ∃ s, sumSquares sum xs ys = Ok s.
Proof.
  revert ys sum. induction xs as [|x xs IH]; intros ys sum Hle; simpl; [eauto|].
  destruct ys as [|y ys]; simpl in *; [lia|]. apply IH. lia.
Qed.

Lemma sumSquares_fuel xs ys sum : sumSquares sum xs ys ≠ OutOfFuel.
Proof.
  revert ys sum. induction xs as [|x xs IH]; intros ys sum; simpl; [done|].
  destruct ys; [done|apply IH].
Qed.

Lemma Distance_Ok e1 e2 :
  (length (Embeddings e1) ≤ length (Embeddings e2))%nat →
  ∃ d, Distance e1 e2 = Ok d.
Proof.
  intros [s Hs]%(sumSquares_Ok _ _ PrimFloat.zero).
  unfold Distance. rewrite Hs. simpl. eauto.
Qed.

Lemma Distance_fuel e1 e2 : Distance e1 e2 ≠ OutOfFuel.
Proof.
  unfold Distance. intros [?|(? & _ & ?)]%bind_OutOfFuel; [|done].
  by eapply sumSquares_fuel.
Qed.

(** ** The layers *)

Lemma layerHeap_Ok h lc id ch :
  layerHeap h lc id = Ok ch ↔
  ∃ layer, index (Layers h) lc = Some layer ∧ layer !! id = Some ch.
Proof.
  unfold layerHeap. rewrite bind_Ok. split.
  - intros (layer & ?%orPanic_Ok & ?%orPanic_Ok). eauto.
  - intros (layer & ? & ?). exists layer. by rewrite !orPanic_Ok.
Qed.

Lemma layerHeap_fuel h lc id : layerHeap h lc id ≠ OutOfFuel.
Proof.
  unfold layerHeap. intros [?|(? & _ & ?)]%bind_OutOfFuel; by eapply orPanic_fuel.
Qed.

Lemma layerHeap_present h lc id :
  present h lc id ↔ ∃ ch, layerHeap h lc id = Ok ch.
Proof.
  unfold present. split.
  - intros (layer & ? & [ch ?]). exists ch. apply layerHeap_Ok. eauto.
  - intros (ch & (layer & ? & ?)%layerHeap_Ok). eauto.
Qed.

Lemma layerHeap_edge h lc u v ch :
  layerHeap h lc u = Ok ch → v ∈ ExtractHeapData ch → edge h lc u v.
Proof. intros (layer & ? & ?)%layerHeap_Ok ?. exists layer, ch. eauto. Qed.

Lemma elem_of_neighbourIDs layer v :
  v ∈ neighbourIDs layer ↔
  ∃ u ch, layer !! u = Some ch ∧ v ∈ ExtractHeapData ch.
Proof.
  unfold neighbourIDs. rewrite elem_of_list_to_set, list_elem_of_join. split.
  - intros (l & Hv & ([u ch] & -> & Hl%elem_of_map_to_list)%list_elem_of_fmap).
    eauto.
  - intros (u & ch & Hl & Hv). exists (ExtractHeapData ch). split; [done|].
    apply list_elem_of_fmap. exists (u, ch). split; [done|].
    by apply elem_of_map_to_list.
Qed.

Lemma edge_neighbourIDs h lc u v :
  edge h lc u v → v ∈ neighbourIDs (default ∅ (index (Layers h) lc)).
Proof.
  intros (layer & ch & -> & ? & ?). simpl. apply elem_of_neighbourIDs. eauto.
Qed.

Lemma reachable_present h lc entry v :
  (∀ u w, edge h lc u w → present h lc w) →
  present h lc entry → reachable h lc entry v → present h lc v.
Proof. intros Hcl He. induction 1; eauto. Qed.

(** ** SearchLayer *)

Section SearchLayerFacts.

Variables (h : HNSW) (q : Element) (ef lc entry : Z).

Lemma visit_fuel fc st vNode : visit h q ef fc st vNode ≠ OutOfFuel.
Proof.
  destruct st as [[V C] W]. unfold visit.
  case_bool_decide; [done|].
  intros [?|(d & _ & Hd)]%bind_OutOfFuel; [by eapply Distance_fuel|].
  revert Hd. case_match eqn:Hcond; [clear Hcond|done]. case_bool_decide; [|done].
  intros [?|([] & _ & ?)]%bind_OutOfFuel; [by eapply heap_Pop_fuel|done].
Qed.

Lemma visit_inv fc st vNode st' :
  searchInvSt h q ef lc entry st →
  reachable h lc entry vNode →
  visit h q ef fc st vNode = Ok st' →
  searchInvSt h q ef lc entry st'.
Proof.
  destruct st as [[V C] W]. unfold searchInvSt, visit. simpl.
  intros [Hne Hbd HC HW Htag HV Hnd Hcmp] Hreach.
  case_bool_decide as Hvis; [by intros [= <-]|].
  intros (d & Hd & Hrest)%bind_Ok. revert Hrest.
  assert (HV' : ∀ v, v ∈ ({[vNode]} ∪ V : gset Z) → reachable h lc entry v).
  { intros v [->%elem_of_singleton|?]%elem_of_union; auto. }
  case_match eqn:Hcond; clear Hcond; cycle 1.
  { intros [= <-]. simpl. split; auto; set_solver. }
  set (tmpC := mkCandidate vNode d).
  assert (Hpush : NoDup (ExtractHeapData (heap_Push W tmpC))).
  { unfold ExtractHeapData. rewrite heap_Push_perm. simpl. constructor; [|done].
    intros (c & -> & Hc)%list_elem_of_fmap. apply Hvis. by apply HW. }
  assert (HWV : ∀ c, c ∈ Candidates (heap_Push W tmpC) →
                     NodeID c ∈ ({[vNode]} ∪ V : gset Z) ∧ tagged h q c).
  { intros c [Hc|Hc]%heap_Push_elem.
    - rewrite Hc. split; [set_solver|done].
    - split; [set_solver|auto]. }
  assert (HCV : ∀ c, c ∈ Candidates (heap_Push C tmpC) →
                     NodeID c ∈ ({[vNode]} ∪ V : gset Z)).
  { intros c [Hc|Hc]%heap_Push_elem; [rewrite Hc; set_solver|].
    apply HC in Hc. set_solver. }
  case_bool_decide as Hef.
  - intros ([item W'] & Hpop & [= <-])%bind_Ok. simpl.
    pose proof (heap_Pop_Len _ _ _ Hpop) as Hlen.
    rewrite heap_Push_Len in Hlen.
    destruct (heap_Pop_inv _ _ _ Hpop) as [Hperm _].
    split; simpl; auto.
    + lia.
    + lia.
    + intros c Hc. eapply HWV, heap_Pop_elem; eauto.
    + intros c Hc. eapply HWV, heap_Pop_elem; eauto.
    + unfold ExtractHeapData in *. rewrite <- Hperm in Hpush.
      by apply NoDup_cons in Hpush as [_ ?].
    + destruct (heap_Pop_inv _ _ _ Hpop) as [_ ->].
      by rewrite heap_Push_Compare.
  - intros [= <-]. simpl. rewrite heap_Push_Len in Hef.
    split; simpl; auto.
    + rewrite heap_Push_Len. lia.
    + rewrite heap_Push_Len. lia.
    + intros c Hc. by apply HWV.
    + intros c Hc. by apply HWV.
    + by rewrite heap_Push_Compare.
Qed.

Lemma visit_measure fc st vNode st' :
  vNode ∈ neighbourIDs (default ∅ (index (Layers h) lc)) →
  visit h q ef fc st vNode = Ok st' →
  (searchMeasure h lc st' ≤ searchMeasure h lc st)%nat.
Proof.
  destruct st as [[V C] W]. unfold searchMeasure, visit. simpl.
  set (U := neighbourIDs _). intros HU.
  case_bool_decide as Hvis; [by intros [= <-]|].
  intros (d & Hd & Hrest)%bind_Ok. revert Hrest.
  assert (Hsz : (size (U ∖ V) = 1 + size (U ∖ ({[vNode]} ∪ V)))%nat).
  { rewrite <- (size_singleton (C:=gset Z) vNode), <- size_union by set_solver.
    f_equal. apply set_eq. intros x.
    destruct (decide (x = vNode)) as [->|]; set_solver. }
  case_match eqn:Hcond; clear Hcond.
  - case_bool_decide.
    + intros ([item W'] & _ & [= <-])%bind_Ok. simpl. rewrite heap_Push_Len. lia.
    + intros [= <-]. simpl. rewrite heap_Push_Len. lia.
  - intros [= <-]. simpl. lia.
Qed.

Lemma visit_Ok fc st vNode :
  (length (Embeddings q) ≤ length (Embeddings (elementOf h vNode)))%nat →
  ∃ st', visit h q ef fc st vNode = Ok st'.
Proof.
  destruct st as [[V C] W]. unfold visit. intros [d Hd]%Distance_Ok.
  case_bool_decide; [eauto|]. rewrite Hd. simpl.
  case_match eqn:Hcond; clear Hcond; [|eauto]. case_bool_decide; [|eauto].
  destruct (heap_Pop_Ok (heap_Push W (mkCandidate vNode d))) as (item & W' & ->).
  { rewrite heap_Push_Len. lia. }
  simpl. eauto.
Qed.

(** With [ef] at least 2 the result never shrinks below two candidates once
    it has them, and the first neighbour that is new is always admitted. *)
Lemma visit_two fc st vNode st' :
  2 ≤ ef → (2 ≤ Len st.2)%nat →
  visit h q ef fc st vNode = Ok st' → (2 ≤ Len st'.2)%nat.
Proof.
  destruct st as [[V C] W]. unfold visit. simpl. intros Hef HW.
  case_bool_decide; [by intros [= <-]|].
  intros (d & _ & Hk)%bind_Ok. revert Hk.
  case_match eqn:Hcond; clear Hcond; [|by intros [= <-]].
  case_bool_decide.
  - intros ([item W'] & Hpop%heap_Pop_Len & [= <-])%bind_Ok. simpl.
    rewrite heap_Push_Len in Hpop. lia.
  - intros [= <-]. simpl. rewrite heap_Push_Len. lia.
Qed.

Lemma visit_new fc st vNode st' :
  2 ≤ ef → (1 ≤ Len st.2)%nat → vNode ∉ st.1.1 →
  visit h q ef fc st vNode = Ok st' → (2 ≤ Len st'.2)%nat.
Proof.
  destruct st as [[V C] W]. unfold visit. simpl. intros Hef HW Hnew.
  rewrite bool_decide_eq_false_2 by done.
  intros (d & _ & Hk)%bind_Ok. revert Hk.
  case_match eqn:Hcond.
  - clear Hcond. case_bool_decide as Hlen.
    + intros ([item W'] & Hpop%heap_Pop_Len & [= <-])%bind_Ok. simpl.
      rewrite heap_Push_Len in Hpop, Hlen. lia.
    + intros [= <-]. simpl. rewrite heap_Push_Len. lia.
  - intros [= <-]. simpl.
    apply orb_false_iff in Hcond as [_ Hlen%bool_decide_eq_false]. lia.
Qed.

Lemma visit_Len fc st vNode st' :
  (1 ≤ Len st.2)%nat →
  visit h q ef fc st vNode = Ok st' → (1 ≤ Len st'.2)%nat.
Proof.
  destruct st as [[V C] W]. unfold visit. simpl. intros HW.
  case_bool_decide; [by intros [= <-]|].
  intros (d & _ & Hk)%bind_Ok. revert Hk.
  case_match eqn:Hcond; clear Hcond; [|by intros [= <-]].
  case_bool_decide.
  - intros ([item W'] & Hpop%heap_Pop_Len & [= <-])%bind_Ok. simpl.
    rewrite heap_Push_Len in Hpop. lia.
  - intros [= <-]. simpl. rewrite heap_Push_Len. lia.
Qed.

Lemma foldExec_visit_two fc l st st' :
  2 ≤ ef → (1 ≤ Len st.2)%nat →
  (∃ v, v ∈ l ∧ v ∉ st.1.1) →
  foldExec (visit h q ef fc) st l = Ok st' → (2 ≤ Len st'.2)%nat.
Proof.
  intros Hef. revert st. induction l as [|a l IH]; intros st HW (v & Hv & Hnew).
  { by apply elem_of_nil in Hv. }
  simpl. intros (s1 & H1 & H2)%bind_Ok.
  destruct (decide (a ∈ st.1.1)) as [Ha|Ha].
  - assert (s1 = st) as ->.
    { destruct st as [[V C] W]. unfold visit in H1. simpl in Ha.
      rewrite bool_decide_eq_true_2 in H1 by done. congruence. }
    apply (IH st); [done| |done]. exists v. split; [|done].
    apply elem_of_cons in Hv as [->|]; done.
  - pose proof (visit_new _ _ _ _ Hef HW Ha H1) as Htwo.
    eapply (foldExec_inv (fun s => (2 ≤ Len s.2)%nat)); [|exact Htwo|exact H2].
    intros s b s' _ Hs Hb. by eapply visit_two.
Qed.

Lemma searchLoop_two fuel st W' :
  2 ≤ ef → (2 ≤ Len st.2)%nat →
  searchLoop fuel h q ef lc st = Ok W' → (2 ≤ Len W')%nat.
Proof.
  intros Hef. revert st.
  induction fuel as [|fuel IH]; intros [[V C] W] HW; [done|].
  cbn [searchLoop]. case_bool_decide as HC; [by intros [= <-]|].
  intros ([nc C'] & Hpop & Hk)%bind_Ok.
  apply bind_Ok in Hk as (fc & _ & Hk). revert Hk.
  case_match; [by intros [= <-]|].
  intros (nbrs & Hnb & (st' & Hfold & Hk)%bind_Ok)%bind_Ok.
  eapply IH; [|exact Hk].
  eapply (foldExec_inv (fun s => (2 ≤ Len s.2)%nat)); [| |exact Hfold]; [|exact HW].
  intros s b s' _ Hs Hb. by eapply visit_two.
Qed.

Lemma searchLoop_fuel fuel st :
  (searchMeasure h lc st < fuel)%nat → searchLoop fuel h q ef lc st ≠ OutOfFuel.
Proof.
  revert st. induction fuel as [|fuel IH]; intros [[V C] W] Hm; [lia|].
  cbn [searchLoop]. case_bool_decide as HC; [done|].
  intros [?|([nc C'] & Hpop & Hk)]%bind_OutOfFuel; [by eapply heap_Pop_fuel|].
  apply bind_OutOfFuel in Hk as [?|(fc & _ & Hk)]; [by eapply orPanic_fuel|].
  revert Hk. case_match; [done|].
  intros [?|(nbrs & Hnb & Hk)]%bind_OutOfFuel; [by eapply layerHeap_fuel|].
  apply bind_OutOfFuel in Hk as [?|(st' & Hfold & Hk)].
  { eapply foldExec_fuel; [|done]. intros ? ?. apply visit_fuel. }
  revert Hk. apply IH.
  apply heap_Pop_Len in Hpop.
  assert (searchMeasure h lc st' ≤ searchMeasure h lc (V, C', W))%nat; cycle 1.
  { unfold searchMeasure in *. simpl in *. lia. }
  eapply (foldExec_inv
    (fun s => (searchMeasure h lc s ≤ searchMeasure h lc (V, C', W))%nat));
    [|reflexivity|exact Hfold].
  intros s a s' Ha Hs Hv. etrans; [|exact Hs].
  eapply visit_measure; [|exact Hv].
  eapply edge_neighbourIDs, layerHeap_edge; eauto.
Qed.

Lemma searchLoop_inv fuel st W' :
  searchInvSt h q ef lc entry st →
  searchLoop fuel h q ef lc st = Ok W' →
  ∃ V' C', searchInv h q ef lc entry V' C' W'.
Proof.
  revert st. induction fuel as [|fuel IH]; intros [[V C] W] Hinv; [done|].
  cbn [searchLoop]. case_bool_decide as HC; [intros [= <-]; eauto|].
  intros ([nc C'] & Hpop & Hk)%bind_Ok.
  apply bind_Ok in Hk as (fc & _ & Hk). revert Hk.
  case_match; [intros [= <-]; eauto|].
  intros (nbrs & Hnb & (st' & Hfold & Hk)%bind_Ok)%bind_Ok.
  eapply IH; [|exact Hk].
  destruct (heap_Pop_inv _ _ _ Hpop) as [Hperm _].
  assert (Hnc : reachable h lc entry (NodeID nc)).
  { apply Hinv. simpl. apply Hinv. simpl. rewrite <- Hperm. by left. }
  eapply (foldExec_inv (searchInvSt h q ef lc entry)); [| |exact Hfold].
  - intros s a s' Ha Hs Hv. eapply visit_inv; [exact Hs| |exact Hv].
    eapply reach_edge; [exact Hnc|]. by eapply layerHeap_edge.
  - destruct Hinv. split; simpl in *; auto.
    intros c Hc. eauto using heap_Pop_elem.
Qed.

Lemma searchLoop_Ok fuel st :
  searchable h q lc → present h lc entry →
  searchInvSt h q ef lc entry st →
  (searchMeasure h lc st < fuel)%nat →
  ∃ W', searchLoop fuel h q ef lc st = Ok W'.
Proof.
  intros Hs He. revert st.
  induction fuel as [|fuel IH]; intros [[V C] W] Hinv Hm; [lia|].
  cbn [searchLoop]. case_bool_decide as HC; [eauto|].
  destruct (heap_Pop_Ok C HC) as (nc & C' & Hpop). rewrite Hpop. simpl.
  destruct (Candidates W !! 0%nat) as [fc|] eqn:Hfc; cycle 1.
  { apply lookup_ge_None in Hfc. destruct Hinv. simpl in *. unfold Len in *. lia. }
  simpl. case_match; [eauto|].
  destruct (heap_Pop_inv _ _ _ Hpop) as [Hperm _].
  assert (Hnc : reachable h lc entry (NodeID nc)).
  { apply Hinv. simpl. apply Hinv. simpl. rewrite <- Hperm. by left. }
  pose proof (reachable_present _ _ _ _ (searchable_closed _ _ _ Hs) He Hnc) as Hp.
  apply layerHeap_present in Hp as [nbrs Hnb]. rewrite Hnb. simpl.
  destruct (foldExec_Ok (visit h q ef fc) (ExtractHeapData nbrs) (V, C', W))
    as [st' Hfold].
  { intros s a Ha. apply visit_Ok. eapply searchable_dim; [exact Hs|].
    eapply searchable_closed; [exact Hs|]. by eapply layerHeap_edge. }
  rewrite Hfold. simpl. apply IH.
  - eapply (foldExec_inv (searchInvSt h q ef lc entry)); [| |exact Hfold].
    + intros s a s' Ha Hs' Hv. eapply visit_inv; [exact Hs'| |exact Hv].
      eapply reach_edge; [exact Hnc|]. by eapply layerHeap_edge.
    + destruct Hinv. split; simpl in *; auto.
      intros c Hc. eauto using heap_Pop_elem.
  - apply heap_Pop_Len in Hpop.
    assert (searchMeasure h lc st' ≤ searchMeasure h lc (V, C', W))%nat; cycle 1.
    { unfold searchMeasure in *. simpl in *. lia. }
    eapply (foldExec_inv
      (fun s => (searchMeasure h lc s ≤ searchMeasure h lc (V, C', W))%nat));
      [|reflexivity|exact Hfold].
    intros s a s' Ha Hs' Hv. etrans; [|exact Hs'].
    eapply visit_measure; [|exact Hv].
    eapply edge_neighbourIDs, layerHeap_edge; eauto.
Qed.

Lemma SearchLayer_start d :
  Distance q (elementOf h entry) = Ok d →
  let qCandidate := mkCandidate entry d in
  let st : searchState :=
    ({[entry]}, heap_Push (heap_Init NewSmallCandidatesHeap) qCandidate,
                heap_Push (heap_Init NewBigCandidatesHeap) qCandidate) in
  searchInvSt h q ef lc entry st ∧ (searchMeasure h lc st < searchFuel h lc)%nat.
Proof.
  intros Hd qC st. split.
  - split; simpl.
    + rewrite heap_Push_Len. lia.
    + rewrite heap_Push_Len. change (Len (heap_Init _)) with 0%nat. lia.
    + intros c ->%list_elem_of_singleton. set_solver.
    + intros c ->%list_elem_of_singleton. set_solver.
    + by intros c ->%list_elem_of_singleton.
    + intros v ->%elem_of_singleton. constructor.
    + apply NoDup_singleton.
    + reflexivity.
  - unfold searchMeasure, searchFuel. simpl.
    set (U := neighbourIDs _).
    pose proof (subseteq_size (U ∖ {[entry]}) U ltac:(set_solver)).
    lia.
Qed.

Lemma SearchLayer_fuel : SearchLayer h q entry ef lc ≠ OutOfFuel.
Proof.
  unfold SearchLayer.
  intros [?|(d & Hd & Hk)]%bind_OutOfFuel; [by eapply Distance_fuel|].
  revert Hk. apply searchLoop_fuel. by apply SearchLayer_start.
Qed.

Lemma SearchLayer_inv W :
  SearchLayer h q entry ef lc = Ok W →
  ∃ V C, searchInv h q ef lc entry V C W.
Proof.
  unfold SearchLayer. intros (d & Hd & Hk)%bind_Ok.
  eapply searchLoop_inv; [|exact Hk]. by apply SearchLayer_start.
Qed.

Lemma SearchLayer_Ok :
  searchable h q lc → present h lc entry →
  ∃ W, SearchLayer h q entry ef lc = Ok W.
Proof.
  intros Hs He. unfold SearchLayer.
  destruct (Distance_Ok q (elementOf h entry)) as [d Hd].
  { by eapply searchable_dim. }
  rewrite Hd, Ok_bind.
  destruct (SearchLayer_start d Hd). by apply searchLoop_Ok.
Qed.

Lemma SearchLayer_two W v :
  2 ≤ ef → edge h lc entry v → v ≠ entry →
  SearchLayer h q entry ef lc = Ok W → (2 ≤ Len W)%nat.
Proof.
  intros Hef (layer & nbrs & Hl & Hnb & Hv) Hne.
  unfold SearchLayer. intros (d & Hd & Hk)%bind_Ok. revert Hk.
  unfold searchFuel. cbn [Nat.add].
  set (fuel := S (size _)). cbn [searchLoop].
  rewrite bool_decide_eq_false_2 by (rewrite heap_Push_Len; lia).
  change (heap_Pop (heap_Push (heap_Init NewSmallCandidatesHeap)
                      (mkCandidate entry d)))
    with (Ok (mkCandidate entry d, mkHeap [] "small")).
  rewrite Ok_bind.
  change (Candidates (heap_Push (heap_Init NewBigCandidatesHeap)
                        (mkCandidate entry d)) !! 0%nat)
    with (Some (mkCandidate entry d)).
  cbn [orPanic]. rewrite Ok_bind. cbn [models.Distance NodeID].
  rewrite ltb_irrefl.
  assert (layerHeap h lc entry = Ok nbrs) as ->.
  { apply layerHeap_Ok. eauto. }
  rewrite Ok_bind. intros (st' & Hfold & Hk)%bind_Ok.
  eapply searchLoop_two; [done| |exact Hk].
  eapply foldExec_visit_two; [done| | |exact Hfold].
  - simpl. rewrite heap_Push_Len. lia.
  - exists v. split; [done|]. simpl. set_solver.
Qed.

End SearchLayerFacts.

(** ** SelectNeighborsHeuristic *)

Lemma size_add_le (x : Z) (R : gset Z) : (size ({[x]} ∪ R) ≤ S (size R))%nat.
Proof.
  rewrite size_union_alt, size_singleton.
  pose proof (subseteq_size (R ∖ {[x]}) R ltac:(set_solver)). lia.
Qed.

Section HeuristicFacts.

Variable rangeOrder : list Z → list Z.
Variables (h : HNSW) (q : Element) (layer : Z).

Lemma idsIn_Push P ch c : idsIn P ch → P (NodeID c) → idsIn P (heap_Push ch c).
Proof. intros Hch Hc x [->|?]%heap_Push_elem; auto. Qed.

Lemma idsIn_Pop P ch item ch' :
  idsIn P ch → heap_Pop ch = Ok (item, ch') → P (NodeID item) ∧ idsIn P ch'.
Proof.
  intros Hch Hpop. destruct (heap_Pop_inv _ _ _ Hpop) as [Hperm _]. split.
  - apply Hch. rewrite <- Hperm. by left.
  - intros c Hc. apply Hch. rewrite <- Hperm. by right.
Qed.

Lemma pushCandidates_ids P W W' candidates :
  idsIn P W → (∀ c, c ∈ candidates → P c) →
  foldExec (pushCandidate h q) W candidates = Ok W' → idsIn P W'.
Proof.
  intros HW HP. apply (foldExec_inv (idsIn P)); [|done].
  intros s a s' Ha Hs. unfold pushCandidate.
  intros (d & _ & [= <-])%bind_Ok. apply idsIn_Push; auto.
Qed.

Lemma extendCandidate_ids P st st' c :
  idsIn P st.1 → (∀ v, edge h layer c v → P v) →
  extendCandidate h q layer st c = Ok st' → idsIn P st'.1.
Proof.
  intros Hst HP. unfold extendCandidate.
  intros (nb & Hnb & Hfold)%bind_Ok. revert Hfold.
  apply (foldExec_inv (fun s => idsIn P s.1)); [|done].
  intros [W nbs] v s' Hv Hs. unfold extendOne.
  case_bool_decide; [by intros [= <-]|].
  intros (d & _ & [= <-])%bind_Ok. simpl in *.
  apply idsIn_Push; [done|]. simpl. apply HP. by eapply layerHeap_edge.
Qed.

Lemma selectLoop_inv P turns M W R Wd R' Wd' :
  idsIn P W → idsIn P Wd → (∀ r, r ∈ R → P r) → Z.of_nat (size R) ≤ M →
  selectLoop rangeOrder turns h M W R Wd = Ok (R', Wd') →
  (∀ r, r ∈ R' → P r) ∧ idsIn P Wd' ∧ Z.of_nat (size R') ≤ M.
Proof.
  revert W R Wd. induction turns as [|t IH]; intros W R Wd HW HWd HR Hsz.
  { by intros [= <- <-]. }
  cbn [selectLoop]. case_match eqn:Hcond; [|by intros [= <- <-]].
  apply andb_true_iff in Hcond as [_ Hlt%bool_decide_eq_true].
  intros ([e W'] & Hpop & Hk)%bind_Ok.
  destruct (idsIn_Pop _ _ _ _ HW Hpop) as [He HW'].
  apply bind_Ok in Hk as ([] & _ & Hk); revert Hk; apply IH; auto.
  - intros r [->%elem_of_singleton|?]%elem_of_union; auto.
  - pose proof (size_add_le (NodeID e) R). lia.
  - by apply idsIn_Push.
Qed.

Lemma keepLoop_inv P turns M Wd R R' :
  idsIn P Wd → (∀ r, r ∈ R → P r) → Z.of_nat (size R) ≤ M →
  keepLoop turns M Wd R = Ok R' →
  (∀ r, r ∈ R' → P r) ∧ Z.of_nat (size R') ≤ M.
Proof.
  revert Wd R. induction turns as [|t IH]; intros Wd R HWd HR Hsz.
  { by intros [= <-]. }
  cbn [keepLoop]. case_match eqn:Hcond; [|by intros [= <-]].
  apply andb_true_iff in Hcond as [_ Hlt%bool_decide_eq_true].
  intros ([e Wd'] & Hpop & Hk)%bind_Ok.
  destruct (idsIn_Pop _ _ _ _ HWd Hpop) as [He HWd'].
  revert Hk. apply IH; auto.
  - intros r [->%elem_of_singleton|?]%elem_of_union; auto.
  - pose proof (size_add_le (NodeID e) R). lia.
Qed.

Lemma heuristic_heaps candidates (extendCandidates : bool) W0 W :
  foldExec (pushCandidate h q) (heap_Init NewSmallCandidatesHeap) candidates
    = Ok W0 →
  (if extendCandidates
   then '(W', _) ← foldExec (extendCandidate h q layer) (W0, ∅) candidates; Ok W'
   else Ok W0) = Ok W →
  idsIn (pool h layer candidates) W.
Proof.
  intros Hpush Hk.
  assert (HW0 : idsIn (pool h layer candidates) W0).
  { eapply pushCandidates_ids; [| |exact Hpush].
    - by intros c Hc%elem_of_nil.
    - intros c Hc. by left. }
  destruct extendCandidates; [|by injection Hk as <-].
  apply bind_Ok in Hk as ([W' nbs] & Hfold & [= <-]).
  change W' with (W', nbs).1. revert Hfold.
  apply (foldExec_inv (fun s => idsIn (pool h layer candidates) s.1)); [|done].
  intros s c s' Hc Hs. apply extendCandidate_ids; [done|].
  intros v Hv. right. eauto.
Qed.

Lemma SelectNeighborsHeuristic_inv candidates M extendCandidates keepPruned R :
  (∀ l, rangeOrder l ≡ₚ l) → 0 ≤ M →
  SelectNeighborsHeuristic rangeOrder h q candidates M layer
    extendCandidates keepPruned = Ok R →
  NoDup R ∧ Z.of_nat (length R) ≤ M ∧ ∀ r, r ∈ R → pool h layer candidates r.
Proof.
  intros Hperm HM. unfold SelectNeighborsHeuristic.
  intros (W0 & Hpush & (W & Hext & Hk)%bind_Ok)%bind_Ok.
  pose proof (heuristic_heaps _ _ _ _ Hpush Hext) as HW.
  apply bind_Ok in Hk as ([R1 Wd] & Hsel & (R2 & Hkeep & [= <-])%bind_Ok).
  apply (selectLoop_inv (pool h layer candidates)) in Hsel
    as (HR1 & HWd & Hsz1); cycle 1.
  { done. }
  { intros c Hc. by apply elem_of_nil in Hc. }
  { set_solver. }
  { rewrite size_empty. lia. }
  assert (HR2 : (∀ r, r ∈ R2 → pool h layer candidates r)
                ∧ Z.of_nat (size R2) ≤ M).
  { destruct keepPruned;
      [eapply keepLoop_inv; [exact HWd|exact HR1|exact Hsz1|exact Hkeep]|].
    injection Hkeep as <-. auto. }
  destruct HR2 as [HR2 Hsz2]. rewrite !Hperm. split_and!.
  - apply NoDup_elements.
  - done.
  - intros r Hr. apply HR2. rewrite Hperm in Hr. by apply elem_of_elements.
Qed.

(** *** The heuristic returns *)

Lemma pushCandidates_Ok W candidates :
  (∀ c, c ∈ candidates →
     (length (Embeddings q) ≤ length (Embeddings (elementOf h c)))%nat) →
  ∃ W', foldExec (pushCandidate h q) W candidates = Ok W'.
Proof.
  intros Hdim. apply foldExec_Ok. intros s c Hc. unfold pushCandidate.
  destruct (Distance_Ok q (elementOf h c)) as [d ->]; [auto|]. simpl. eauto.
Qed.

Lemma extendCandidates_Ok st candidates :
  (∀ c, c ∈ candidates → present h layer c) →
  (∀ c v, c ∈ candidates → edge h layer c v →
     (length (Embeddings q) ≤ length (Embeddings (elementOf h v)))%nat) →
  ∃ st', foldExec (extendCandidate h q layer) st candidates = Ok st'.
Proof.
  intros Hpres Hdim. apply foldExec_Ok. intros s c Hc. unfold extendCandidate.
  destruct (proj1 (layerHeap_present _ _ _) (Hpres c Hc)) as [nb Hnb].
  rewrite Hnb, Ok_bind. apply foldExec_Ok. intros [W nbs] v Hv.
  unfold extendOne. case_bool_decide; [eauto|].
  destruct (Distance_Ok q (elementOf h v)) as [d ->]; [|simpl; eauto].
  eapply Hdim; [exact Hc|]. by eapply layerHeap_edge.
Qed.

Lemma closerLoop_Ok e rs :
  (∀ r, r ∈ rs →
     (length (Embeddings (elementOf h (NodeID e)))
        ≤ length (Embeddings (elementOf h r)))%nat) →
  ∃ b, closerLoop h e rs = Ok b.
Proof.
  induction rs as [|r rs IH]; intros Hdim; simpl; [eauto|].
  destruct (Distance_Ok (elementOf h (NodeID e)) (elementOf h r)) as [d ->].
  { apply Hdim. by left. }
  simpl. case_match; [eauto|]. apply IH. intros ? ?. apply Hdim. by right.
Qed.

Lemma selectLoop_Ok P turns M W R Wd :
  (∀ l, rangeOrder l ≡ₚ l) →
  (∀ a b, P a → P b →
     (length (Embeddings (elementOf h a))
        ≤ length (Embeddings (elementOf h b)))%nat) →
  idsIn P W → (∀ r, r ∈ R → P r) →
  ∃ res, selectLoop rangeOrder turns h M W R Wd = Ok res.
Proof.
  intros Hperm Hdim. revert W R Wd.
  induction turns as [|t IH]; intros W R Wd HW HR; cbn [selectLoop]; [eauto|].
  case_match eqn:Hcond; [|eauto].
  apply andb_true_iff in Hcond as [Hlen%bool_decide_eq_true _].
  destruct (heap_Pop_Ok W) as (e & W' & Hpop); [lia|].
  rewrite Hpop, Ok_bind.
  destruct (idsIn_Pop _ _ _ _ HW Hpop) as [He HW'].
  destruct (closerLoop_Ok e (rangeOrder (elements R))) as [b ->].
  { intros r Hr. apply Hdim; [done|]. apply HR.
    rewrite Hperm in Hr. by apply elem_of_elements. }
  rewrite Ok_bind. destruct b; apply IH; auto.
  intros r [->%elem_of_singleton|?]%elem_of_union; auto.
Qed.

Lemma keepLoop_Ok turns M Wd R : ∃ R', keepLoop turns M Wd R = Ok R'.
Proof.
  revert Wd R. induction turns as [|t IH]; intros Wd R; cbn [keepLoop]; [eauto|].
  case_match eqn:Hcond; [|eauto].
  apply andb_true_iff in Hcond as [Hlen%bool_decide_eq_true _].
  destruct (heap_Pop_Ok Wd) as (e & Wd' & ->); [lia|]. rewrite Ok_bind. apply IH.
Qed.

Lemma SelectNeighborsHeuristic_Ok candidates M extendCandidates keepPruned :
  (∀ l, rangeOrder l ≡ₚ l) →
  measurable h q (pool h layer candidates) →
  (extendCandidates = true → ∀ c, c ∈ candidates → present h layer c) →
  ∃ R, SelectNeighborsHeuristic rangeOrder h q candidates M layer
         extendCandidates keepPruned = Ok R.
Proof.
  intros Hperm [Hq Hpair] Hpres. unfold SelectNeighborsHeuristic.
  destruct (pushCandidates_Ok (heap_Init NewSmallCandidatesHeap) candidates)
    as [W0 Hpush].
  { intros c Hc. apply Hq. by left. }
  rewrite Hpush, Ok_bind.
  assert (∃ W, (if extendCandidates
     then '(W', _) ← foldExec (extendCandidate h q layer) (W0, ∅) candidates;
          Ok W'
     else Ok W0) = Ok W) as [W Hext].
  { destruct extendCandidates; [|eauto].
    destruct (extendCandidates_Ok (W0, ∅) candidates) as [[W' nbs] ->]; eauto.
    intros c v Hc Hv. apply Hq. right. eauto. }
  pose proof (heuristic_heaps _ _ _ _ Hpush Hext) as HW.
  rewrite Hext, Ok_bind.
  destruct (selectLoop_Ok (pool h layer candidates) (Len W) M W ∅
              (heap_Init NewSmallCandidatesHeap)) as [[R1 Wd] ->]; auto.
  { set_solver. }
  rewrite Ok_bind.
  assert (∃ R2, (if keepPruned then keepLoop (Len Wd) M Wd R1 else Ok R1)
                = Ok R2) as [R2 ->].
  { destruct keepPruned; [apply keepLoop_Ok|eauto]. }
  rewrite Ok_bind. eauto.
Qed.

(** *** The loops of the heuristic are not cut short *)

Lemma pushCandidate_fuel W c : pushCandidate h q W c ≠ OutOfFuel.
Proof.
  unfold pushCandidate.
  intros [?|(? & _ & ?)]%bind_OutOfFuel; [by eapply Distance_fuel|done].
Qed.

Lemma extendCandidate_fuel st c : extendCandidate h q layer st c ≠ OutOfFuel.
Proof.
  unfold extendCandidate.
  intros [?|(? & _ & Hk)]%bind_OutOfFuel; [by eapply layerHeap_fuel|].
  revert Hk. apply foldExec_fuel. intros [W nbs] v. unfold extendOne.
  case_bool_decide; [done|].
  intros [?|(? & _ & ?)]%bind_OutOfFuel; [by eapply Distance_fuel|done].
Qed.

Lemma closerLoop_fuel e rs : closerLoop h e rs ≠ OutOfFuel.
Proof.
  induction rs as [|r rs IH]; simpl; [done|].
  intros [?|(? & _ & Hk)]%bind_OutOfFuel; [by eapply Distance_fuel|].
  revert Hk. by case_match.
Qed.

Lemma selectLoop_fuel turns M W R Wd :
  selectLoop rangeOrder turns h M W R Wd ≠ OutOfFuel.
Proof.
  revert W R Wd. induction turns as [|t IH]; intros W R Wd; cbn [selectLoop];
    [done|].
  case_match; [|done].
  intros [?|([e W'] & _ & Hk)]%bind_OutOfFuel; [by eapply heap_Pop_fuel|].
  apply bind_OutOfFuel in Hk as [?|([] & _ & Hk)];
    [by eapply closerLoop_fuel|by eapply IH..].
Qed.

Lemma keepLoop_fuel turns M Wd R : keepLoop turns M Wd R ≠ OutOfFuel.
Proof.
  revert Wd R. induction turns as [|t IH]; intros Wd R; cbn [keepLoop]; [done|].
  case_match; [|done].
  intros [?|([e W'] & _ & Hk)]%bind_OutOfFuel; [by eapply heap_Pop_fuel|].
  by eapply IH.
Qed.

Lemma SelectNeighborsHeuristic_fuel candidates M extendCandidates keepPruned :
  SelectNeighborsHeuristic rangeOrder h q candidates M layer
    extendCandidates keepPruned ≠ OutOfFuel.
Proof.
  unfold SelectNeighborsHeuristic.
  intros [Hk|(W0 & _ & Hk)]%bind_OutOfFuel.
  { revert Hk. apply foldExec_fuel, pushCandidate_fuel. }
  apply bind_OutOfFuel in Hk as [Hk|(W & _ & Hk)].
  { destruct extendCandidates; [|done].
    apply bind_OutOfFuel in Hk as [Hk|([] & _ & ?)]; [|done].
    revert Hk. apply foldExec_fuel, extendCandidate_fuel. }
  apply bind_OutOfFuel in Hk as [Hk|([R1 Wd] & _ & Hk)].
  { by eapply selectLoop_fuel. }
  apply bind_OutOfFuel in Hk as [Hk|(? & _ & ?)]; [|done].
  destruct keepPruned; [by eapply keepLoop_fuel|done].
Qed.

(** More turns than the length of the heap change nothing. *)
Lemma selectLoop_turns t1 t2 M W R Wd :
  (Len W ≤ t1)%nat → (Len W ≤ t2)%nat →
  selectLoop rangeOrder t1 h M W R Wd = selectLoop rangeOrder t2 h M W R Wd.
Proof.
  revert t2 W R Wd. induction t1 as [|t1 IH]; intros t2 W R Wd H1 H2.
  - destruct t2; cbn [selectLoop]; [done|].
    rewrite (bool_decide_eq_false_2 (0 < Len W)%nat) by lia. done.
  - destruct t2 as [|t2]; cbn [selectLoop].
    + rewrite (bool_decide_eq_false_2 (0 < Len W)%nat) by lia. done.
    + case_match; [|done].
      destruct (heap_Pop W) as [[e W']| |] eqn:Hpop; [|done..].
      apply heap_Pop_Len in Hpop. rewrite !Ok_bind.
      destruct (closerLoop h e (rangeOrder (elements R))) as [[]| |];
        [| |done..]; rewrite !Ok_bind; apply IH; lia.
Qed.

Lemma keepLoop_turns t1 t2 M Wd R :
  (Len Wd ≤ t1)%nat → (Len Wd ≤ t2)%nat →
  keepLoop t1 M Wd R = keepLoop t2 M Wd R.
Proof.
  revert t2 Wd R. induction t1 as [|t1 IH]; intros t2 Wd R H1 H2.
  - destruct t2; cbn [keepLoop]; [done|].
    rewrite (bool_decide_eq_false_2 (0 < Len Wd)%nat) by lia. done.
  - destruct t2 as [|t2]; cbn [keepLoop].
    + rewrite (bool_decide_eq_false_2 (0 < Len Wd)%nat) by lia. done.
    + case_match; [|done].
      destruct (heap_Pop Wd) as [[e W']| |] eqn:Hpop; [|done..].
      apply heap_Pop_Len in Hpop. rewrite !Ok_bind. apply IH; lia.
Qed.

End HeuristicFacts.

(** ** addConnection *)

Lemma sameConfig_refl h : sameConfig h h.
Proof. by split. Qed.

Lemma sameConfig_trans h1 h2 h3 :
  sameConfig h1 h2 → sameConfig h2 h3 → sameConfig h1 h3.
Proof. intros [] []. split; congruence. Qed.

Lemma sameConfig_storeHeap h lc id ch : sameConfig h (storeHeap h lc id ch).
Proof. split; try done. simpl. by rewrite length_alter. Qed.

Lemma index_Some {A} (s : list A) (i : Z) (a : A) :
  index s i = Some a ↔ 0 ≤ i ∧ s !! Z.to_nat i = Some a.
Proof.
  unfold index. case_bool_decide; [|intuition lia].
  split; [done|]. intros [? _]. lia.
Qed.

Lemma index_length {A} (s : list A) (i : Z) :
  is_Some (index s i) ↔ 0 ≤ i < Z.of_nat (length s).
Proof.
  unfold index. case_bool_decide.
  - split; [by intros [? ?]|lia].
  - rewrite lookup_lt_is_Some. lia.
Qed.

Lemma index_sameLength {A} (s s' : list A) (i : Z) :
  length s = length s' → is_Some (index s i) → is_Some (index s' i).
Proof. rewrite !index_length. lia. Qed.

Lemma layerHeap_storeHeap h lc id ch lc' id' :
  is_Some (index (Layers h) lc) →
  layerHeap (storeHeap h lc id ch) lc' id' =
    if decide (lc' = lc ∧ id' = id) then Ok ch else layerHeap h lc' id'.
Proof.
  intros [layer Hl]. pose proof Hl as [Hlc Hl']%index_Some.
  unfold layerHeap, storeHeap, index. simpl.
  case_bool_decide as Hneg.
  { simpl. case_decide as Hd; [lia|done]. }
  destruct (decide (lc' = lc)) as [->|Hne].
  - rewrite list_lookup_alter_eq, Hl'. simpl.
    destruct (decide (id' = id)) as [->|Hid].
    + rewrite lookup_insert_eq. by rewrite decide_True.
    + rewrite lookup_insert_ne by done. by rewrite decide_False by tauto.
  - rewrite list_lookup_alter_ne by lia. by rewrite decide_False by tauto.
Qed.

Lemma present_storeHeap h lc id ch lc' id' :
  is_Some (index (Layers h) lc) →
  present (storeHeap h lc id ch) lc' id' ↔
    (lc' = lc ∧ id' = id) ∨ present h lc' id'.
Proof.
  intros Hl. rewrite !layerHeap_present.
  setoid_rewrite (layerHeap_storeHeap h lc id ch lc' id' Hl).
  case_decide; [|naive_solver]. split; [auto|eauto].
Qed.

(** The edges after the heap of [id] at [lc] is replaced. *)
Lemma edge_storeHeap h lc id ch lc' u v :
  is_Some (index (Layers h) lc) →
  edge (storeHeap h lc id ch) lc' u v ↔
    (lc' = lc ∧ u = id ∧ v ∈ ExtractHeapData ch)
    ∨ (¬ (lc' = lc ∧ u = id) ∧ edge h lc' u v).
Proof.
  intros Hl.
  assert (Hedge : ∀ g, edge g lc' u v ↔
            ∃ c, layerHeap g lc' u = Ok c ∧ v ∈ ExtractHeapData c).
  { intros g. split.
    - intros (layer & c & ? & ? & ?). exists c. split; [|done].
      apply layerHeap_Ok. eauto.
    - intros (c & (layer & ? & ?)%layerHeap_Ok & ?). exists layer, c. eauto. }
  rewrite !Hedge. setoid_rewrite (layerHeap_storeHeap h lc id ch lc' u Hl).
  case_decide as Hd.
  - split; [intros (c & [= <-] & ?); tauto|].
    intros [(_ & _ & ?)|[? _]]; [eauto|tauto].
  - split; [eauto|]. intros [(? & ? & _)|[_ ?]]; [tauto|done].
Qed.

Lemma addConnection_fuel h from to layer :
  addConnection h from to layer ≠ OutOfFuel.
Proof.
  unfold addConnection.
  intros [?|(ft & _ & Hk)]%bind_OutOfFuel; [by eapply Distance_fuel|].
  apply bind_OutOfFuel in Hk as [?|(nb & _ & Hk)]; [by eapply layerHeap_fuel|].
  revert Hk. case_bool_decide; [done|].
  intros [?|(top & _ & Hk)]%bind_OutOfFuel; [by eapply orPanic_fuel|].
  revert Hk. case_match; [|done].
  intros [?|([] & _ & ?)]%bind_OutOfFuel; [by eapply heap_Pop_fuel|done].
Qed.

(** What a call of [addConnection] does to the index: nothing, or the
    replacement of the list of [from] at [layer] by a list of the stated
    length that holds [to]. *)
Lemma addConnection_inv h from to layer h' :
  addConnection h from to layer = Ok h' →
  ∃ nb, layerHeap h layer from = Ok nb ∧
    (h' = h ∧ maxConnections h ≤ Z.of_nat (Len nb)
     ∨ ∃ nb', h' = storeHeap h layer from nb' ∧ to ∈ ExtractHeapData nb'
         ∧ (Len nb' = S (Len nb) ∧ Z.of_nat (Len nb) < maxConnections h
              ∧ ExtractHeapData nb' ≡ₚ to :: ExtractHeapData nb
            ∨ Len nb' = Len nb ∧ maxConnections h ≤ Z.of_nat (Len nb))).
Proof.
  unfold addConnection.
  intros (ft & _ & (nb & Hnb & Hk)%bind_Ok)%bind_Ok. exists nb. split; [done|].
  revert Hk. case_bool_decide as Hlen.
  - intros [= <-]. right. eexists. split; [done|].
    unfold ExtractHeapData. rewrite heap_Push_perm, heap_Push_Len.
    split; [by left|]. left. auto.
  - intros (top & _ & Hk)%bind_Ok. revert Hk. case_match.
    + intros ([item nb'] & Hpop & [= <-])%bind_Ok. right. eexists.
      split; [done|]. unfold ExtractHeapData.
      rewrite heap_Push_perm, heap_Push_Len.
      split; [by left|]. right. apply heap_Pop_Len in Hpop. lia.
    + intros [= <-]. left. split; [done|lia].
Qed.

Lemma addConnection_config h from to layer h' :
  addConnection h from to layer = Ok h' → sameConfig h h'.
Proof.
  intros (nb & _ & [[-> _]|(nb' & -> & _)])%addConnection_inv;
    [apply sameConfig_refl|apply sameConfig_storeHeap].
Qed.

Lemma layerHeap_index h lc id ch :
  layerHeap h lc id = Ok ch → is_Some (index (Layers h) lc).
Proof. intros (layer & ? & _)%layerHeap_Ok. eauto. Qed.

Lemma addConnection_degree cap h from to layer h' :
  Z.max 0 (maxConnections h) ≤ cap →
  degreeBounded cap h →
  addConnection h from to layer = Ok h' → degreeBounded cap h'.
Proof.
  intros Hcap Hdeg (nb & Hnb & [[-> _]|(nb' & -> & _ & Hlen)])%addConnection_inv;
    [done|].
  intros lc id ch. rewrite layerHeap_storeHeap by by eapply layerHeap_index.
  case_decide; [|apply Hdeg]. intros [= <-].
  pose proof (Hdeg _ _ _ Hnb). lia.
Qed.

(** ** Insert *)

Lemma descend_fuel turns h q lc ep : descend turns h q lc ep ≠ OutOfFuel.
Proof.
  revert lc ep. induction turns as [|t IH]; intros lc ep; cbn [descend]; [done|].
  intros [?|(W & _ & Hk)]%bind_OutOfFuel; [by eapply SearchLayer_fuel|].
  apply bind_OutOfFuel in Hk as [?|(c & _ & Hk)]; [by eapply orPanic_fuel|].
  by eapply IH.
Qed.

Lemma degreeBounded_storeEmpty cap h lc id compare :
  0 ≤ cap → is_Some (index (Layers h) lc) → degreeBounded cap h →
  degreeBounded cap (storeHeap h lc id (heap_Init (mkHeap [] compare))).
Proof.
  intros Hcap Hl Hdeg lc' id' ch. rewrite layerHeap_storeHeap by done.
  case_decide; [|apply Hdeg]. by intros [= <-].
Qed.

Lemma layerHeap_growLayers h level id lc id' ch :
  layerHeap (growLayers h level id) lc id' = Ok ch →
  layerHeap h lc id' = Ok ch ∨ (id' = id ∧ ch = mkHeap [] "big").
Proof.
  rewrite !layerHeap_Ok. simpl. intros (layer & [Hlc Hl]%index_Some & Hid).
  apply lookup_app_Some in Hl as [Hl|[_ Hl]].
  - left. exists layer. by rewrite index_Some.
  - right. unfold newLayers in Hl.
    apply lookup_replicate in Hl as [-> _].
    by apply lookup_singleton_Some in Hid as [<- <-].
Qed.

(** The two phases of [Insert]. *)
Lemma Insert_inv rangeOrder drawn q h h' :
  Insert rangeOrder drawn q h = Ok h' →
  let level := if bool_decide (drawn > MaxLayers h) then MaxLayers h else drawn in
  let topLevel := Z.of_nat (length (Layers h)) - 1 in
  ∃ h1 ep ep',
    (topLevel ≤ level ∧ h1 = growLayers (setElement h q) level (ID q)
       ∧ ep = EnterPoint h
     ∨ level < topLevel ∧ h1 = setElement h q
       ∧ descend (Z.to_nat (topLevel - level)) h1 q topLevel (EnterPoint h)
         = Ok ep)
    ∧ connect rangeOrder (Z.to_nat (min topLevel level + 1)) h1 q
        (min topLevel level) ep = Ok (h', ep').
Proof.
  unfold Insert. cbv zeta.
  set (level := if bool_decide (drawn > MaxLayers h) then _ else _).
  change (Layers (setElement h q)) with (Layers h).
  change (EnterPoint (setElement h q)) with (EnterPoint h).
  set (topLevel := Z.of_nat (length (Layers h)) - 1).
  intros ([h1 ep] & H1 & ([h2 ep'] & H2 & [= <-])%bind_Ok)%bind_Ok.
  exists h1, ep, ep'. split; [|done].
  destruct (decide (topLevel ≤ level)) as [Hle|Hgt].
  - rewrite bool_decide_eq_true_2 in H1 by done. injection H1 as <- <-. auto.
  - rewrite bool_decide_eq_false_2 in H1 by done.
    apply bind_Ok in H1 as (ep0 & Hdesc & [= <- <-]). right.
    split; [lia|]. auto.
Qed.

Section InsertFacts.

Variable rangeOrder : list Z → list Z.

Lemma connectOne_fuel qID lc h n : connectOne qID lc h n ≠ OutOfFuel.
Proof.
  unfold connectOne.
  intros [?|(? & _ & ?)]%bind_OutOfFuel; by eapply addConnection_fuel.
Qed.

Lemma connectLayer_fuel h q lc ep : connectLayer rangeOrder h q lc ep ≠ OutOfFuel.
Proof.
  unfold connectLayer.
  intros [?|(? & _ & Hk)]%bind_OutOfFuel; [by eapply orPanic_fuel|].
  apply bind_OutOfFuel in Hk as [?|(W & _ & Hk)]; [by eapply SearchLayer_fuel|].
  apply bind_OutOfFuel in Hk as [?|(sel & _ & Hk)];
    [by eapply SelectNeighborsHeuristic_fuel|].
  apply bind_OutOfFuel in Hk as [Hk|(h' & _ & Hk)].
  { revert Hk. apply foldExec_fuel, connectOne_fuel. }
  apply bind_OutOfFuel in Hk as [?|(? & _ & ?)]; [by eapply orPanic_fuel|done].
Qed.

Lemma connect_fuel turns h q lc ep : connect rangeOrder turns h q lc ep ≠ OutOfFuel.
Proof.
  revert h lc ep. induction turns as [|t IH]; intros h lc ep; cbn [connect];
    [done|].
  intros [?|([h' ep'] & _ & Hk)]%bind_OutOfFuel; [by eapply connectLayer_fuel|].
  by eapply IH.
Qed.

Lemma Insert_fuel drawn q h : Insert rangeOrder drawn q h ≠ OutOfFuel.
Proof.
  unfold Insert. cbv zeta.
  intros [Hk|([h1 ep] & _ & Hk)]%bind_OutOfFuel.
  - revert Hk. case_match; [done|].
    intros [?|(? & _ & ?)]%bind_OutOfFuel; [by eapply descend_fuel|done].
  - apply bind_OutOfFuel in Hk as [?|([] & _ & ?)]; [by eapply connect_fuel|done].
Qed.

Lemma InsertAll_fuel h ops : InsertAll rangeOrder h ops ≠ OutOfFuel.
Proof. apply foldExec_fuel. intros ? ?. apply Insert_fuel. Qed.

(** The linking of the new point keeps the configuration and the bound on
    the neighbour lists. *)
Lemma connectOne_config qID lc h n h' :
  connectOne qID lc h n = Ok h' → sameConfig h h'.
Proof.
  unfold connectOne. intros (h1 & H1 & H2)%bind_Ok.
  eapply sameConfig_trans; by eapply addConnection_config.
Qed.

Lemma connectOne_degree cap qID lc h n h' :
  Z.max 0 (maxConnections h) ≤ cap → degreeBounded cap h →
  connectOne qID lc h n = Ok h' → degreeBounded cap h'.
Proof.
  unfold connectOne. intros Hcap Hdeg (h1 & H1 & H2)%bind_Ok.
  eapply addConnection_degree; [| |exact H2].
  - by rewrite (same_maxConnections _ _ (addConnection_config _ _ _ _ _ H1)).
  - by eapply addConnection_degree.
Qed.

Lemma connectAll_config qID lc l h h' :
  foldExec (connectOne qID lc) h l = Ok h' → sameConfig h h'.
Proof.
  apply (foldExec_inv (sameConfig h)); [|apply sameConfig_refl].
  intros s n s' _ Hs Hn. eapply sameConfig_trans; [exact Hs|].
  by eapply connectOne_config.
Qed.

Lemma connectAll_degree cap qID lc l h h' :
  Z.max 0 (maxConnections h) ≤ cap → degreeBounded cap h →
  foldExec (connectOne qID lc) h l = Ok h' → degreeBounded cap h'.
Proof.
  intros Hcap Hdeg Hfold.
  cut (sameConfig h h' ∧ degreeBounded cap h'); [tauto|]. revert Hfold.
  apply (foldExec_inv (fun s => sameConfig h s ∧ degreeBounded cap s));
    [|split; [apply sameConfig_refl|done]].
  intros s n s' _ [Hs Hd] Hn. split.
  - eapply sameConfig_trans; [exact Hs|]. by eapply connectOne_config.
  - eapply connectOne_degree; [|exact Hd|exact Hn].
    by rewrite (same_maxConnections _ _ Hs).
Qed.

Lemma connectLayer_config h q lc ep h' ep' :
  connectLayer rangeOrder h q lc ep = Ok (h', ep') → sameConfig h h'.
Proof.
  unfold connectLayer. intros (layer & _ & (W & _ & Hk)%bind_Ok)%bind_Ok.
  apply bind_Ok in Hk as (sel & _ & (h1 & Hfold & Hk)%bind_Ok).
  apply bind_Ok in Hk as (? & _ & [= <- <-]).
  eapply sameConfig_trans; [apply sameConfig_storeHeap|].
  by eapply connectAll_config.
Qed.

Lemma connectLayer_degree cap h q lc ep h' ep' :
  Z.max 0 (maxConnections h) ≤ cap → degreeBounded cap h →
  connectLayer rangeOrder h q lc ep = Ok (h', ep') → degreeBounded cap h'.
Proof.
  intros Hcap Hdeg. unfold connectLayer.
  intros (layer & Hl%orPanic_Ok & (W & _ & Hk)%bind_Ok)%bind_Ok.
  apply bind_Ok in Hk as (sel & _ & (h1 & Hfold & Hk)%bind_Ok).
  apply bind_Ok in Hk as (? & _ & [= <- <-]).
  eapply connectAll_degree; [| |exact Hfold]; [done|].
  apply degreeBounded_storeEmpty; [lia|eauto|done].
Qed.

Lemma connect_config turns h q lc ep h' ep' :
  connect rangeOrder turns h q lc ep = Ok (h', ep') → sameConfig h h'.
Proof.
  revert h lc ep. induction turns as [|t IH]; intros h lc ep; cbn [connect].
  { intros [= <- <-]. apply sameConfig_refl. }
  intros ([h1 ep1] & H1 & H2)%bind_Ok.
  eapply sameConfig_trans; [by eapply connectLayer_config|by eapply IH].
Qed.

Lemma connect_degree cap turns h q lc ep h' ep' :
  Z.max 0 (maxConnections h) ≤ cap → degreeBounded cap h →
  connect rangeOrder turns h q lc ep = Ok (h', ep') → degreeBounded cap h'.
Proof.
  revert h lc ep. induction turns as [|t IH]; intros h lc ep Hcap Hdeg;
    cbn [connect].
  { by intros [= <- <-]. }
  intros ([h1 ep1] & H1 & H2)%bind_Ok.
  eapply IH; [| |exact H2].
  - by rewrite (same_maxConnections _ _ (connectLayer_config _ _ _ _ _ _ H1)).
  - by eapply connectLayer_degree.
Qed.

(** [Insert] stores the element under its id, whatever was there, and
    leaves the rest of the configuration alone. *)
Lemma Insert_config drawn q h h' :
  Insert rangeOrder drawn q h = Ok h' →
  Elements h' = <[ID q := q]> (Elements h) ∧ M h' = M h
  ∧ maxConnections h' = maxConnections h
  ∧ EfConstruction h' = EfConstruction h ∧ MaxLayers h' = MaxLayers h.
Proof.
  intros (h1 & ep & ep' & Hphase & Hconn)%Insert_inv.
  apply connect_config in Hconn as [].
  destruct Hphase as [(_ & -> & _)|(_ & -> & _)]; simpl in *; auto.
Qed.

Lemma Insert_degree cap drawn q h h' :
  Z.max 0 (maxConnections h) ≤ cap → degreeBounded cap h →
  Insert rangeOrder drawn q h = Ok h' → degreeBounded cap h'.
Proof.
  intros Hcap Hdeg (h1 & ep & ep' & Hphase & Hconn)%Insert_inv.
  eapply connect_degree; [| |exact Hconn].
  - by destruct Hphase as [(_ & -> & _)|(_ & -> & _)].
  - destruct Hphase as [(_ & -> & _)|(_ & -> & _)].
    + intros lc id ch [Hold|[_ ->]]%layerHeap_growLayers;
        [|unfold Len; simpl; lia].
      eapply Hdeg. exact Hold.
    + intros lc id ch Hch. eapply Hdeg. exact Hch.
Qed.

Lemma InsertAll_degree cap h ops h' :
  Z.max 0 (maxConnections h) ≤ cap → degreeBounded cap h →
  InsertAll rangeOrder h ops = Ok h' →
  degreeBounded cap h' ∧ maxConnections h' = maxConnections h.
Proof.
  intros Hcap Hdeg. unfold InsertAll.
  apply (foldExec_inv
    (fun s => degreeBounded cap s ∧ maxConnections s = maxConnections h));
    [|done].
  intros s [drawn q] s' _ [Hd Hm] Hins. simpl in Hins. split.
  - eapply Insert_degree; [|exact Hd|exact Hins]. by rewrite Hm.
  - apply Insert_config in Hins. destruct Hins as (_ & _ & -> & _). done.
Qed.

End InsertFacts.

(** ** KNNSearch *)

Lemma topFill_first j ch res res' ch' :
  topFill j ch res = Ok (res', ch') →
  length res' = length res ∧ res' !! 0%nat = res !! 0%nat.
Proof.
  revert ch res. induction j as [|j IH]; intros ch res; cbn [topFill].
  { by intros [= <- <-]. }
  intros ([item ch1] & _ & Hk)%bind_Ok. apply IH in Hk as [-> ->].
  by rewrite length_insert, list_lookup_insert_ne.
Qed.

Lemma topFill_fuel j ch res : topFill j ch res ≠ OutOfFuel.
Proof.
  revert ch res. induction j as [|j IH]; intros ch res; cbn [topFill]; [done|].
  intros [?|([] & _ & ?)]%bind_OutOfFuel; [by eapply heap_Pop_fuel|by eapply IH].
Qed.

Lemma topSame_fuel count i ch res : topSame count i ch res ≠ OutOfFuel.
Proof.
  revert i ch res. induction count as [|n IH]; intros i ch res; cbn [topSame];
    [done|].
  intros [?|([] & _ & ?)]%bind_OutOfFuel; [by eapply Pop_fuel|by eapply IH].
Qed.

Lemma topDrop_fuel turns j K ch : topDrop turns j K ch ≠ OutOfFuel.
Proof.
  revert j ch. induction turns as [|t IH]; intros j ch; cbn [topDrop]; [done|].
  case_bool_decide; [|done].
  intros [?|([] & _ & ?)]%bind_OutOfFuel; [by eapply heap_Pop_fuel|by eapply IH].
Qed.

(** More turns than the length of the heap change nothing. *)
Lemma topDrop_turns t1 t2 j K ch :
  0 ≤ j → 0 ≤ K → (Len ch ≤ t1)%nat → (Len ch ≤ t2)%nat →
  topDrop t1 j K ch = topDrop t2 j K ch.
Proof.
  revert t2 j ch. induction t1 as [|t1 IH]; intros t2 j ch Hj HK H1 H2.
  - destruct t2; cbn [topDrop]; [done|]. rewrite bool_decide_eq_false_2; [done|lia].
  - destruct t2 as [|t2]; cbn [topDrop].
    + rewrite bool_decide_eq_false_2; [done|lia].
    + case_bool_decide; [|done].
      destruct (heap_Pop ch) as [[e ch']| |] eqn:Hpop; [|done..].
      apply heap_Pop_Len in Hpop. rewrite !Ok_bind. apply IH; lia.
Qed.

Lemma topValue_fuel K topType ch : topValue K topType ch ≠ OutOfFuel.
Proof.
  unfold topValue. case_bool_decide; [done|]. case_match.
  - apply topSame_fuel.
  - intros [Hk|(? & _ & ?)]%bind_OutOfFuel; [|by eapply topFill_fuel].
    revert Hk. case_bool_decide; [apply topDrop_fuel|done].
Qed.

Lemma KNNSearch_fuel h q K : KNNSearch h q K ≠ OutOfFuel.
Proof.
  unfold KNNSearch.
  intros [?|(ep & _ & Hk)]%bind_OutOfFuel; [by eapply descend_fuel|].
  apply bind_OutOfFuel in Hk as [?|(W & _ & Hk)]; [by eapply SearchLayer_fuel|].
  apply bind_OutOfFuel in Hk as [?|([] & _ & ?)]; [|done].
  by eapply topValue_fuel.
Qed.

(** Whatever the index and the query, the first cell of the result of
    [KNNSearch] is the [0] that [make] put there, and the result has [K]
    cells. *)
Lemma KNNSearch_first_cell h q K res :
  1 ≤ K → KNNSearch h q K = Ok res →
  length res = Z.to_nat K ∧ res !! 0%nat = Some 0.
Proof.
  intros HK. unfold KNNSearch.
  intros (ep & _ & (W & HW & ([res' W'] & Htop & [= <-])%bind_Ok)%bind_Ok)%bind_Ok.
  apply SearchLayer_inv in HW as (V & C & [_ _ _ _ _ _ _ Hcmp]).
  revert Htop. unfold TopKMinVal, topValue. rewrite Hcmp.
  rewrite bool_decide_eq_false_2 by lia.
  change (String.eqb SMALL BIG) with false. cbv iota.
  intros (W1 & _ & [-> ->]%topFill_first)%bind_Ok.
  rewrite length_replicate. split; [done|].
  apply lookup_replicate. split; [done|lia].
Qed.

(** On an index without points [KNNSearch] reaches an index expression that
    is out of range. *)
Lemma KNNSearch_NewHNSW efConstruction M maxLayers nm q K :
  KNNSearch (NewHNSW efConstruction M maxLayers nm) q K = Panic.
Proof.
  unfold KNNSearch, NewHNSW, SearchLayer, Distance, elementOf. simpl.
  destruct (Embeddings q) as [|x xs]; reflexivity.
Qed.

(** ** The computed notions are sound *)

Lemma edge_layerHeap h lc u v :
  edge h lc u v ↔ ∃ ch, layerHeap h lc u = Ok ch ∧ v ∈ ExtractHeapData ch.
Proof.
  split.
  - intros (layer & ch & ? & ? & ?). exists ch. split; [|done].
    apply layerHeap_Ok. eauto.
  - intros (ch & (layer & ? & ?)%layerHeap_Ok & ?). exists layer, ch. eauto.
Qed.

Lemma presentb_sound h lc id : presentb h lc id → present h lc id.
Proof.
  unfold presentb, present. destruct (index (Layers h) lc) as [layer|]; [|done].
  intros ?%bool_decide_unpack. eauto.
Qed.

Lemma edgeb_spec h lc u v : edge h lc u v ↔ edgeb h lc u v.
Proof.
  rewrite edge_layerHeap. unfold edgeb.
  destruct (layerHeap h lc u) as [ch| |]; [|naive_solver..].
  rewrite bool_decide_spec. naive_solver.
Qed.

Lemma searchableb_sound h q lc : searchableb h q lc → searchable h q lc.
Proof.
  unfold searchableb. destruct (index (Layers h) lc) as [layer|] eqn:Hl; [|done].
  rewrite forallb_True, Forall_forall. intros Hall.
  assert (Hlayer : ∀ u ch, layer !! u = Some ch →
            (length (Embeddings q) ≤ length (Embeddings (elementOf h u)))%nat
            ∧ ∀ v, v ∈ ExtractHeapData ch → is_Some (layer !! v)).
  { intros u ch Hu%elem_of_map_to_list. apply Hall in Hu.
    apply andb_True in Hu as [Hd%bool_decide_unpack Hn]. split; [done|].
    rewrite forallb_True, Forall_forall in Hn.
    intros v Hv. by apply Hn, bool_decide_unpack in Hv. }
  split.
  - eauto.
  - intros u v (layer' & ch & Hl' & Hu & Hv). simplify_eq.
    exists layer. split; [done|]. by eapply Hlayer.
  - intros u (layer' & Hl' & [ch Hu]). simplify_eq. by eapply Hlayer.
Qed.

Lemma elem_of_edgesOf layer u v :
  (u, v) ∈ edgesOf layer ↔
  ∃ ch, layer !! u = Some ch ∧ v ∈ ExtractHeapData ch.
Proof.
  unfold edgesOf. rewrite list_elem_of_bind. split.
  - intros ([u' ch] & (v' & [= -> ->] & Hv)%list_elem_of_fmap
              & Hu%elem_of_map_to_list). eauto.
  - intros (ch & Hu%elem_of_map_to_list & Hv). exists (u, ch).
    split; [|done]. apply list_elem_of_fmap. eauto.
Qed.

Lemma layer_lookup h lc layer :
  index (Layers h) lc = Some layer → layer ∈ Layers h.
Proof. intros [_ Hl]%index_Some. by eapply list_elem_of_lookup_2. Qed.

Lemma symmetricb_sound h : symmetricb h → symmetric h.
Proof.
  unfold symmetricb. rewrite forallb_True, Forall_forall.
  intros Hall lc u v (layer & ch & Hl & Hu & Hv).
  pose proof (Hall _ (layer_lookup _ _ _ Hl)) as Hsym.
  rewrite forallb_True, Forall_forall in Hsym.
  specialize (Hsym (u, v)). simpl in Hsym.
  assert (Huv : (u, v) ∈ edgesOf layer) by (apply elem_of_edgesOf; eauto).
  apply Hsym, bool_decide_unpack, elem_of_edgesOf in Huv as (ch' & ? & ?).
  exists layer, ch'. eauto.
Qed.

Lemma roomyb_sound h : roomyb h → roomy h.
Proof.
  unfold roomyb. rewrite forallb_True, Forall_forall.
  intros Hall lc id ch (layer & Hl & Hid)%layerHeap_Ok.
  apply layer_lookup, Hall in Hl. rewrite forallb_True, Forall_forall in Hl.
  apply elem_of_map_to_list, Hl in Hid. by apply bool_decide_unpack in Hid.
Qed.

Lemma freshb_sound h id : freshb h id → fresh h id.
Proof.
  unfold freshb. rewrite forallb_True, Forall_forall.
  intros Hall lc (layer & Hl & [ch Hid]).
  apply layer_lookup, Hall, bool_decide_unpack in Hl. congruence.
Qed.

Lemma pool_poolOf h layer candidates r :
  pool h layer candidates r → r ∈ poolOf h layer candidates.
Proof.
  unfold pool, poolOf. rewrite elem_of_app, list_elem_of_bind.
  intros [?|(c & Hc & (ch & Hch & Hr)%edge_layerHeap)]; [by left|].
  right. exists c. by rewrite Hch.
Qed.

Lemma measurableb_sound h q layer candidates :
  measurableb h q (poolOf h layer candidates) →
  measurable h q (pool h layer candidates).
Proof.
  unfold measurableb. rewrite forallb_True, Forall_forall. intros Hall.
  split.
  - intros a Ha%pool_poolOf%Hall. apply andb_True in Ha as [Ha _].
    by apply bool_decide_unpack in Ha.
  - intros a b Ha%pool_poolOf%Hall Hb%pool_poolOf.
    apply andb_True in Ha as [_ Ha]. rewrite forallb_True, Forall_forall in Ha.
    by apply Ha, bool_decide_unpack in Hb.
Qed.

(** ** The order of [range] matters on the sets of at most [M] keys only *)

Lemma bind_ext {A B} (m : exec A) (k1 k2 : A → exec B) :
  (∀ a, k1 a = k2 a) → m ≫= k1 = m ≫= k2.
Proof. intros Hk. destruct m; simpl; auto. Qed.

Lemma foldExec_ext {S A} (f g : S → A → exec S) (l : list A) (s : S) :
  (∀ s a, f s a = g s a) → foldExec f s l = foldExec g s l.
Proof.
  intros Hfg. revert s. induction l as [|a l IH]; intros s; simpl; [done|].
  rewrite Hfg. by apply bind_ext.
Qed.

Lemma selectLoop_size rangeOrder turns h M W R Wd R' Wd' :
  Z.of_nat (size R) ≤ Z.max M 0 →
  selectLoop rangeOrder turns h M W R Wd = Ok (R', Wd') →
  Z.of_nat (size R') ≤ Z.max M 0.
Proof.
  revert W R Wd. induction turns as [|t IH]; intros W R Wd Hsz.
  { by intros [= <- <-]. }
  cbn [selectLoop]. case_match eqn:Hcond; [|by intros [= <- <-]].
  apply andb_true_iff in Hcond as [_ Hlt%bool_decide_eq_true].
  intros ([e W'] & Hpop & Hk)%bind_Ok.
  apply bind_Ok in Hk as ([] & _ & Hk); revert Hk; apply IH; auto.
  pose proof (size_add_le (NodeID e) R). lia.
Qed.

Lemma keepLoop_size turns M Wd R R' :
  Z.of_nat (size R) ≤ Z.max M 0 →
  keepLoop turns M Wd R = Ok R' → Z.of_nat (size R') ≤ Z.max M 0.
Proof.
  revert Wd R. induction turns as [|t IH]; intros Wd R Hsz.
  { by intros [= <-]. }
  cbn [keepLoop]. case_match eqn:Hcond; [|by intros [= <-]].
  apply andb_true_iff in Hcond as [_ Hlt%bool_decide_eq_true].
  intros ([e Wd'] & Hpop & Hk)%bind_Ok. revert Hk. apply IH.
  pose proof (size_add_le (NodeID e) R). lia.
Qed.

Section RangeOrderSmall.

Variables rangeOrder1 rangeOrder2 : list Z → list Z.
Variable bound : Z.
Hypothesis sameSmall : ∀ keys,
  Z.of_nat (length keys) ≤ Z.max bound 0 → rangeOrder1 keys = rangeOrder2 keys.

Lemma sameSmall_elements (R : gset Z) :
  Z.of_nat (size R) ≤ Z.max bound 0 →
  rangeOrder1 (elements R) = rangeOrder2 (elements R).
Proof. intros Hsz. by apply sameSmall. Qed.

Lemma selectLoop_small turns h W R Wd :
  selectLoop rangeOrder1 turns h bound W R Wd
  = selectLoop rangeOrder2 turns h bound W R Wd.
Proof.
  revert W R Wd. induction turns as [|t IH]; intros W R Wd; cbn [selectLoop];
    [done|].
  case_match eqn:Hcond; [|done].
  apply andb_true_iff in Hcond as [_ Hlt%bool_decide_eq_true].
  apply bind_ext. intros [e W']. rewrite sameSmall_elements by lia.
  apply bind_ext. intros []; apply IH.
Qed.

Lemma SelectNeighborsHeuristic_small h q candidates layer ext keep :
  SelectNeighborsHeuristic rangeOrder1 h q candidates bound layer ext keep
  = SelectNeighborsHeuristic rangeOrder2 h q candidates bound layer ext keep.
Proof.
  unfold SelectNeighborsHeuristic. cbv zeta.
  apply bind_ext. intros W0. apply bind_ext. intros W.
  rewrite selectLoop_small.
  destruct (selectLoop rangeOrder2 (Len W) h bound W ∅ _)
    as [[R Wd]| |] eqn:Hsel; [|done|done].
  rewrite !Ok_bind.
  apply selectLoop_size in Hsel; [|rewrite size_empty; lia].
  destruct (if keep then keepLoop (Len Wd) bound Wd R else Ok R)
    as [R2| |] eqn:Hkeep; [|done|done].
  rewrite !Ok_bind. f_equal. apply sameSmall_elements.
  destruct keep; [by eapply keepLoop_size|by injection Hkeep as <-].
Qed.

Lemma connectLayer_small h q lc ep :
  M h = bound →
  connectLayer rangeOrder1 h q lc ep = connectLayer rangeOrder2 h q lc ep.
Proof.
  intros HM. unfold connectLayer. apply bind_ext. intros _. cbv zeta.
  apply bind_ext. intros W.
  change (M (storeHeap h lc (ID q) (heap_Init (mkHeap [] "big")))) with (M h).
  by rewrite HM, SelectNeighborsHeuristic_small.
Qed.

Lemma connect_small turns h q lc ep :
  M h = bound →
  connect rangeOrder1 turns h q lc ep = connect rangeOrder2 turns h q lc ep.
Proof.
  revert h lc ep. induction turns as [|t IH]; intros h lc ep HM; cbn [connect];
    [done|].
  rewrite connectLayer_small by done.
  destruct (connectLayer rangeOrder2 h q lc ep) as [[h' ep']| |] eqn:Hl;
    [|done|done].
  rewrite !Ok_bind. apply IH.
  by rewrite (same_M _ _ (connectLayer_config _ _ _ _ _ _ _ Hl)).
Qed.

Lemma Insert_small drawn q h :
  M h = bound → Insert rangeOrder1 drawn q h = Insert rangeOrder2 drawn q h.
Proof.
  intros HM. unfold Insert. cbv zeta.
  set (level := if bool_decide (drawn > MaxLayers h) then MaxLayers h else drawn).
  destruct (bool_decide (Z.of_nat (length (Layers (setElement h q))) - 1 ≤ level)).
  - rewrite !Ok_bind. by rewrite connect_small.
  - destruct (descend _ _ _ _ _) as [ep| |]; [|done|done].
    rewrite !Ok_bind. by rewrite connect_small.
Qed.

Lemma InsertAll_small ops : ∀ h,
  M h = bound → InsertAll rangeOrder1 h ops = InsertAll rangeOrder2 h ops.
Proof.
  unfold InsertAll. induction ops as [|op ops IH]; intros h HM; simpl; [done|].
  rewrite Insert_small by done.
  destruct (Insert rangeOrder2 op.1 op.2 h) as [h'| |] eqn:Hi; [|done|done].
  rewrite !Ok_bind. apply IH.
  apply Insert_config in Hi as (_ & -> & _). done.
Qed.

End RangeOrderSmall.

(** ** Symmetry of the adjacency *)

(** While the list has room, [addConnection] adds the edge. *)
Lemma addConnection_push h from to layer h' nb :
  layerHeap h layer from = Ok nb → Z.of_nat (Len nb) < maxConnections h →
  addConnection h from to layer = Ok h' →
  ∃ nb', h' = storeHeap h layer from nb' ∧ Len nb' = S (Len nb)
         ∧ ExtractHeapData nb' ≡ₚ to :: ExtractHeapData nb.
Proof.
  intros Hnb Hroom (nb0 & Hnb0 & Hcase)%addConnection_inv.
  assert (nb0 = nb) as -> by congruence.
  destruct Hcase as [[_ ?]|(nb' & -> & _ & [(? & _ & ?)|[_ ?]])]; [lia| |lia].
  eauto.
Qed.

Lemma edge_store_push h lc id old ch to lc' u v :
  layerHeap h lc id = Ok old →
  ExtractHeapData ch ≡ₚ to :: ExtractHeapData old →
  edge (storeHeap h lc id ch) lc' u v ↔
    edge h lc' u v ∨ (lc' = lc ∧ u = id ∧ v = to).
Proof.
  intros Hold Hperm.
  rewrite edge_storeHeap by by eapply layerHeap_index.
  rewrite Hperm, elem_of_cons. split.
  - intros [(-> & -> & [->|Hv])|[_ ?]]; [by right; auto| |by left].
    left. apply edge_layerHeap. eauto.
  - intros [He|(-> & -> & ->)]; [|by left; auto].
    destruct (decide (lc' = lc ∧ u = id)) as [[-> ->]|Hne]; [|by right].
    apply edge_layerHeap in He as (ch' & Hch' & Hv).
    assert (ch' = old) as -> by congruence. left. auto.
Qed.

Lemma edge_store_empty h lc id compare lc' u v :
  is_Some (index (Layers h) lc) → ¬ present h lc id →
  edge (storeHeap h lc id (heap_Init (mkHeap [] compare))) lc' u v ↔
    edge h lc' u v.
Proof.
  intros Hl Hfresh. rewrite edge_storeHeap by done. split.
  - intros [(_ & _ & Hv)|[_ ?]]; [|done]. by apply elem_of_nil in Hv.
  - intros He. right. split; [|done]. intros [-> ->]. apply Hfresh.
    apply edge_layerHeap in He as (ch & Hch & _).
    apply layerHeap_present. eauto.
Qed.

(** One turn of the linking loop, when both lists have room: the two edges
    between [n] and the new point are added, and nothing else changes. *)
Lemma connectOne_link h qID lc n h' :
  (∀ ch, layerHeap h lc n = Ok ch → Z.of_nat (Len ch) < maxConnections h) →
  (∀ ch, layerHeap h lc qID = Ok ch →
     Z.of_nat (Len ch) + 2 ≤ maxConnections h) →
  connectOne qID lc h n = Ok h' →
  (∀ lc' u v, edge h' lc' u v ↔
     edge h lc' u v ∨ (lc' = lc ∧ (u = n ∧ v = qID ∨ u = qID ∧ v = n)))
  ∧ (∀ lc' id, lc' ≠ lc ∨ (id ≠ n ∧ id ≠ qID) →
       layerHeap h' lc' id = layerHeap h lc' id)
  ∧ (∀ ch', layerHeap h' lc qID = Ok ch' →
       ∃ ch, layerHeap h lc qID = Ok ch ∧ (Len ch' ≤ Len ch + 2)%nat)
  ∧ maxConnections h' = maxConnections h.
Proof.
  intros Hn Hq. unfold connectOne. intros (h1 & H1 & H2)%bind_Ok.
  pose proof H1 as (nb & Hnb & _)%addConnection_inv.
  destruct (addConnection_push _ _ _ _ _ _ Hnb (Hn _ Hnb) H1)
    as (nb' & -> & Hlen1 & Hperm1).
  pose proof (layerHeap_index _ _ _ _ Hnb) as Hl.
  pose proof H2 as (nbq & Hnbq & _)%addConnection_inv.
  assert (Hroomq : Z.of_nat (Len nbq) < maxConnections (storeHeap h lc n nb')).
  { simpl. rewrite layerHeap_storeHeap in Hnbq by done.
    case_decide as Hd.
    - destruct Hd as [_ ->]. injection Hnbq as <-.
      specialize (Hq _ Hnb). lia.
    - specialize (Hq _ Hnbq). lia. }
  destruct (addConnection_push _ _ _ _ _ _ Hnbq Hroomq H2)
    as (nbq' & -> & Hlen2 & Hperm2).
  assert (Hl1 : is_Some (index (Layers (storeHeap h lc n nb')) lc)).
  { eapply index_sameLength; [|exact Hl]. simpl. by rewrite length_alter. }
  split_and!.
  - intros lc' u v.
    rewrite (edge_store_push _ _ _ _ _ _ _ _ _ Hnbq Hperm2).
    rewrite (edge_store_push _ _ _ _ _ _ _ _ _ Hnb Hperm1). naive_solver.
  - intros lc' id Hne. rewrite !layerHeap_storeHeap by done.
    rewrite !decide_False by naive_solver. done.
  - intros ch'. rewrite layerHeap_storeHeap by done.
    rewrite decide_True by done. intros [= <-].
    rewrite layerHeap_storeHeap in Hnbq by done. case_decide as Hd.
    + destruct Hd as [_ ->]. injection Hnbq as <-. exists nb.
      split; [done|lia].
    + exists nbq. split; [done|lia].
  - done.
Qed.

Lemma layerHeap_setElement h q lc id :
  layerHeap (setElement h q) lc id = layerHeap h lc id.
Proof. reflexivity. Qed.

Lemma layerHeap_growLayers_old h level id lc id' :
  lc ≤ Z.of_nat (length (Layers h)) - 1 →
  layerHeap (growLayers h level id) lc id' = layerHeap h lc id'.
Proof.
  intros Hlc. unfold layerHeap, growLayers, index. simpl.
  case_bool_decide; [done|]. by rewrite lookup_app_l by lia.
Qed.

Lemma layerHeap_top h lc id ch :
  layerHeap h lc id = Ok ch → lc ≤ Z.of_nat (length (Layers h)) - 1.
Proof. intros Hl%layerHeap_index%index_length. lia. Qed.

Lemma symmetric_growLayers h level id :
  symmetric h → symmetric (growLayers h level id).
Proof.
  intros Hsym lc u v (ch & Hch & Hv)%edge_layerHeap.
  apply layerHeap_growLayers in Hch as [Hch|[_ ->]];
    [|by apply elem_of_nil in Hv].
  assert (He : edge h lc v u) by (apply Hsym, edge_layerHeap; eauto).
  apply edge_layerHeap in He as (ch' & Hch' & Hu).
  apply edge_layerHeap. exists ch'. split; [|done].
  rewrite layerHeap_growLayers_old; [done|by eapply layerHeap_top].
Qed.

Section SymmetryFacts.

Variable rangeOrder : list Z → list Z.
Hypothesis rangeOrder_perm : ∀ keys, rangeOrder keys ≡ₚ keys.

Lemma connectAll_symmetric qID lc l h h' :
  NoDup l → symmetric h →
  (∀ n ch, n ∈ l → n ≠ qID → layerHeap h lc n = Ok ch →
     Z.of_nat (Len ch) < maxConnections h) →
  (∀ ch, layerHeap h lc qID = Ok ch →
     Z.of_nat (Len ch) + 2 * Z.of_nat (length l) ≤ maxConnections h) →
  foldExec (connectOne qID lc) h l = Ok h' →
  symmetric h'
  ∧ (∀ lc' id, lc' ≠ lc → layerHeap h' lc' id = layerHeap h lc' id).
Proof.
  revert h. induction l as [|a l IH]; intros h Hnd Hsym Hn Hq; simpl.
  { by intros [= <-]. }
  intros (h1 & H1 & Hfold)%bind_Ok.
  apply NoDup_cons in Hnd as [Ha Hnd]. simpl in Hq.
  destruct (connectOne_link h qID lc a h1) as (Hedges & Hother & Hqlen & Hcap);
    [| |done|].
  { intros ch Hch. destruct (decide (a = qID)) as [->|Hne].
    - specialize (Hq _ Hch). lia.
    - eapply Hn; [by left|done|done]. }
  { intros ch Hch. specialize (Hq _ Hch). lia. }
  destruct (IH h1) as [Hsym' Hother']; [done| | | |done|].
  - intros lc' u v. rewrite !Hedges.
    intros [He|(-> & [[-> ->]|[-> ->]])]; [left; by apply Hsym|right..]; auto.
  - intros n ch Hin Hne. rewrite Hother, Hcap.
    + apply Hn; [by right|done].
    + right. split; [|done]. by intros ->.
  - intros ch' (ch & Hch & Hlen)%Hqlen. rewrite Hcap.
    specialize (Hq _ Hch). lia.
  - split; [done|]. intros lc' id Hne. rewrite Hother' by done.
    apply Hother. by left.
Qed.

Lemma connectLayer_symmetric h q lc ep h' ep' :
  0 ≤ M h → maxConnections h = 2 * M h →
  symmetric h → ¬ present h lc (ID q) →
  (∀ id ch, layerHeap h lc id = Ok ch →
     Z.of_nat (Len ch) < maxConnections h) →
  connectLayer rangeOrder h q lc ep = Ok (h', ep') →
  symmetric h'
  ∧ (∀ lc' id, lc' ≠ lc → layerHeap h' lc' id = layerHeap h lc' id).
Proof.
  intros HM Hcap Hsym Hfresh Hroom. unfold connectLayer.
  intros (layer & Hl%orPanic_Ok & (W & _ & Hk)%bind_Ok)%bind_Ok.
  apply bind_Ok in Hk as (sel & Hsel & (h1 & Hfold & Hk)%bind_Ok).
  apply bind_Ok in Hk as (? & _ & [= <- <-]).
  assert (Hidx : is_Some (index (Layers h) lc)) by eauto.
  apply SelectNeighborsHeuristic_inv in Hsel as (Hnd & Hlen & _);
    [|done|done].
  simpl in Hlen.
  destruct (connectAll_symmetric (ID q) lc sel
              (storeHeap h lc (ID q) (heap_Init (mkHeap [] "big"))) h1 Hnd)
    as [Hsym' Hother]; [| | |exact Hfold|].
  - intros lc' u v. rewrite !edge_store_empty by done. apply Hsym.
  - intros n ch _ Hne. rewrite layerHeap_storeHeap by done.
    rewrite decide_False by naive_solver. apply Hroom.
  - intros ch. rewrite layerHeap_storeHeap by done.
    rewrite decide_True by done. intros [= <-]. simpl.
    change (Len (heap_Init _)) with 0%nat. lia.
  - split; [done|]. intros lc' id Hne. rewrite Hother by done.
    rewrite layerHeap_storeHeap by done. by rewrite decide_False by naive_solver.
Qed.

Lemma connect_symmetric turns h q lc ep h' ep' :
  0 ≤ M h → maxConnections h = 2 * M h →
  symmetric h →
  (∀ lc', lc' ≤ lc → ¬ present h lc' (ID q)) →
  (∀ lc' id ch, lc' ≤ lc → layerHeap h lc' id = Ok ch →
     Z.of_nat (Len ch) < maxConnections h) →
  connect rangeOrder turns h q lc ep = Ok (h', ep') →
  symmetric h'.
Proof.
  revert h lc ep.
  induction turns as [|t IH]; intros h lc ep HM Hcap Hsym Hfresh Hroom;
    cbn [connect].
  { by intros [= <- <-]. }
  intros ([h1 ep1] & H1 & H2)%bind_Ok.
  pose proof (connectLayer_config _ _ _ _ _ _ _ H1) as Hcfg.
  destruct (connectLayer_symmetric _ _ _ _ _ _ HM Hcap Hsym
              (Hfresh lc ltac:(lia)) (fun id ch => Hroom lc id ch ltac:(lia)) H1)
    as [Hsym1 Hother].
  eapply IH; [| |exact Hsym1| | |exact H2].
  - by rewrite (same_M _ _ Hcfg).
  - by rewrite (same_M _ _ Hcfg), (same_maxConnections _ _ Hcfg).
  - intros lc' Hle. rewrite layerHeap_present.
    setoid_rewrite Hother; [|lia]. rewrite <- layerHeap_present.
    apply Hfresh. lia.
  - intros lc' id ch Hle. rewrite Hother by lia.
    rewrite (same_maxConnections _ _ Hcfg). apply Hroom. lia.
Qed.

Lemma Insert_symmetric drawn q h h' :
  0 ≤ M h → maxConnections h = 2 * M h →
  symmetric h → roomy h → fresh h (ID q) →
  Insert rangeOrder drawn q h = Ok h' → symmetric h'.
Proof.
  intros HM Hcap Hsym Hroom Hfresh
    (h1 & ep & ep' & Hphase & Hconn)%Insert_inv.
  set (level := if bool_decide (drawn > MaxLayers h) then _ else _) in *.
  set (topLevel := Z.of_nat (length (Layers h)) - 1) in *.
  assert (Hstart : min topLevel level ≤ topLevel).
  { unfold min. case_bool_decide; lia. }
  assert (Hold : ∀ lc' id, lc' ≤ topLevel →
            layerHeap h1 lc' id = layerHeap h lc' id).
  { intros lc' id Hle. destruct Hphase as [(_ & -> & _)|(_ & -> & _)]; [|done].
    by rewrite layerHeap_growLayers_old. }
  eapply connect_symmetric; [| | | | |exact Hconn].
  - by destruct Hphase as [(_ & -> & _)|(_ & -> & _)].
  - by destruct Hphase as [(_ & -> & _)|(_ & -> & _)].
  - destruct Hphase as [(_ & -> & _)|(_ & -> & _)].
    + apply symmetric_growLayers. intros lc u v. apply Hsym.
    + intros lc u v. apply Hsym.
  - intros lc' Hle. rewrite layerHeap_present.
    setoid_rewrite Hold; [|lia]. rewrite <- layerHeap_present. apply Hfresh.
  - intros lc' id ch Hle. rewrite Hold by lia.
    replace (maxConnections h1) with (maxConnections h)
      by by destruct Hphase as [(_ & -> & _)|(_ & -> & _)].
    apply Hroom.
Qed.

End SymmetryFacts.

(** ** The order of the distances *)

(** *** The sign of a difference of two float64

    [Less] tests [0 < x - y] on rounded floats. The difference of two finite
    floats is the rounding of an integer multiple of a power of 2 that is at
    least [2 ^ emin]: rounding does not take it to zero nor change its
    sign. *)

Lemma digits2_pos_bounds (p : positive) :
  2 ^ (Z.pos (digits2_pos p) - 1) ≤ Z.pos p < 2 ^ Z.pos (digits2_pos p).
Proof.
  induction p as [p IH|p IH|]; cbn [digits2_pos]; [| |by compute].
  - rewrite Pos2Z.inj_succ.
    replace (Z.succ (Z.pos (digits2_pos p)) - 1) with (Z.succ (Z.pos (digits2_pos p) - 1)) by lia.
    rewrite !Z.pow_succ_r by lia. lia.
  - rewrite Pos2Z.inj_succ.
    replace (Z.succ (Z.pos (digits2_pos p)) - 1) with (Z.succ (Z.pos (digits2_pos p) - 1)) by lia.
    rewrite !Z.pow_succ_r by lia. lia.
Qed.

Lemma shr_1_m mrs : 0 ≤ shr_m mrs → shr_m (shr_1 mrs) = shr_m mrs / 2.
Proof.
  destruct mrs as [m r s]. cbn [shr_m shr_1]. intros Hm.
  destruct m as [|[p|p|]|p]; cbn [shr_m]; [done| | |done|lia].
  - rewrite Pos2Z.inj_xI. apply Z.div_unique with 1; lia.
  - rewrite Pos2Z.inj_xO. apply Z.div_unique with 0; lia.
Qed.

Lemma pow2_double (p : positive) : 2 ^ Z.pos p~0 = 2 ^ Z.pos p * 2 ^ Z.pos p.
Proof. rewrite <- Z.pow_add_r by lia. f_equal. lia. Qed.

Lemma pow2_double_succ (p : positive) :
  2 ^ Z.pos p~1 = 2 * (2 ^ Z.pos p * 2 ^ Z.pos p).
Proof.
  rewrite <- Z.pow_add_r, <- Z.pow_succ_r by lia. f_equal. lia.
Qed.

Lemma iter_shr_1_m p mrs :
  0 ≤ shr_m mrs → shr_m (SpecFloat.iter_pos shr_1 p mrs) = shr_m mrs / 2 ^ Z.pos p.
Proof.
  revert mrs. induction p as [p IH|p IH|]; intros mrs Hm; cbn [SpecFloat.iter_pos].
  - assert (H1 : 0 ≤ shr_m (shr_1 mrs)).
    { rewrite shr_1_m by done. apply Z.div_pos; lia. }
    assert (H2 : 0 ≤ shr_m (SpecFloat.iter_pos shr_1 p (shr_1 mrs))).
    { rewrite IH by done. apply Z.div_pos; lia. }
    rewrite IH, IH, shr_1_m by done.
    rewrite !Z.div_div by lia. by rewrite pow2_double_succ.
  - assert (H2 : 0 ≤ shr_m (SpecFloat.iter_pos shr_1 p mrs)).
    { rewrite IH by done. apply Z.div_pos; lia. }
    rewrite IH, IH by done.
    rewrite !Z.div_div by lia. by rewrite pow2_double.
  - rewrite shr_1_m by done. by rewrite Z.pow_1_r.
Qed.

(** Rounding a mantissa to precision keeps it positive: no shift takes all
    its digits. *)
Lemma shr_fexp_pos m e l :
  0 < m → SpecFloat.emin prec emax ≤ e →
  0 < shr_m (shr_fexp prec emax m e l).1
  ∧ SpecFloat.emin prec emax ≤ (shr_fexp prec emax m e l).2.
Proof.
  intros Hm He. unfold shr_fexp, shr.
  destruct m as [|p|p]; [lia| |lia].
  cbn [Zdigits2].
  pose proof (digits2_pos_bounds p) as [Hlo _].
  set (d := Z.pos (digits2_pos p)) in *.
  assert (Hm0 : shr_m (shr_record_of_loc (Z.pos p) l) = Z.pos p).
  { by destruct l as [|[]]. }
  destruct (fexp prec emax (d + e) - e) as [|n|n] eqn:Hn; cbn [fst snd].
  - by rewrite Hm0.
  - rewrite iter_shr_1_m by (rewrite Hm0; lia). rewrite Hm0. split; [|lia].
    apply Z.div_str_pos. split; [lia|].
    etrans; [|exact Hlo]. apply Z.pow_le_mono_r; [lia|].
    unfold fexp in Hn. unfold prec in *. lia.
  - by rewrite Hm0.
Qed.

Lemma round_nearest_even_pos m l : 0 < m → 0 < round_nearest_even m l.
Proof. destruct l as [|[]]; cbn; [done| |done|lia]. case_match; lia. Qed.

Lemma binary_round_aux_pos m e l :
  0 < m → SpecFloat.emin prec emax ≤ e →
  positiveSF (binary_round_aux prec emax false m e l).
Proof.
  intros Hm He. unfold binary_round_aux.
  destruct (shr_fexp_pos m e l Hm He) as [H1 H1e].
  destruct (shr_fexp prec emax m e l) as [mrs' e']. cbn [fst snd] in *.
  pose proof (round_nearest_even_pos _ (loc_of_shr_record mrs') H1) as H2.
  destruct (shr_fexp_pos _ e' loc_Exact H2 H1e) as [H3 _].
  destruct (shr_fexp prec emax _ e' loc_Exact) as [mrs'' e'']. cbn [fst snd] in *.
  destruct (shr_m mrs''); [lia| |lia]. by case_match.
Qed.

Lemma binary_round_pos m e :
  SpecFloat.emin prec emax ≤ e →
  positiveSF (binary_round prec emax false m e).
Proof.
  intros He. unfold binary_round, shl_align.
  destruct (fexp prec emax (Z.pos (digits2_pos m) + e) - e) eqn:Hn;
    apply binary_round_aux_pos; try done.
  unfold fexp in *. lia.
Qed.

Lemma binary_round_neg m e :
  SFltb (S754_zero false) (binary_round prec emax true m e) = false.
Proof.
  unfold binary_round, binary_round_aux.
  destruct (shl_align _ _ _) as [mz ez].
  destruct (shr_fexp prec emax (Z.pos mz) ez loc_Exact) as [mrs' e'].
  destruct (shr_fexp prec emax _ e' loc_Exact) as [mrs'' e''].
  destruct (shr_m mrs''); [done| |done]. by case_match.
Qed.

(** The sign of a rounded difference of integers with a common exponent. *)
Lemma binary_normalize_sign m e :
  SpecFloat.emin prec emax ≤ e →
  SFltb (S754_zero false) (binary_normalize prec emax m e false)
  = bool_decide (0 < m).
Proof.
  intros He. destruct m as [|p|p]; cbn [binary_normalize].
  - done.
  - rewrite bool_decide_eq_true_2 by lia.
    pose proof (binary_round_pos p e He) as Hp.
    by destruct (binary_round prec emax false p e) as [[]|[]| |[] ? ?].
  - rewrite bool_decide_eq_false_2 by lia. apply binary_round_neg.
Qed.

Lemma iter_xO m d : Z.pos (Pos.iter xO m d) = Z.pos m * 2 ^ Z.pos d.
Proof.
  induction d as [|d IH] using Pos.peano_ind.
  - cbn. lia.
  - rewrite Pos.iter_succ, Pos2Z.inj_xO, IH, Pos2Z.inj_succ, Z.pow_succ_r by lia.
    lia.
Qed.

Lemma shl_align_fst m e e' :
  e' ≤ e → Z.pos (shl_align m e e').1 = Z.pos m * 2 ^ (e - e').
Proof.
  intros He. unfold shl_align.
  destruct (e' - e) as [|d|d] eqn:Hd; cbn [fst].
  - replace (e - e') with 0 by lia. lia.
  - lia.
  - rewrite iter_xO. do 2 f_equal. lia.
Qed.

(** The mantissa and exponent of a valid finite float. *)
Lemma bounded_inv m e :
  bounded prec emax m e = true →
  SpecFloat.emin prec emax ≤ e
  ∧ Z.pos (digits2_pos m) ≤ prec
  ∧ (SpecFloat.emin prec emax < e → Z.pos (digits2_pos m) = prec).
Proof.
  unfold bounded, canonical_mantissa, fexp.
  intros [H%Z.eqb_eq _]%andb_true_iff. lia.
Qed.

(** Among valid floats of one sign the larger exponent is the larger
    magnitude. *)
Lemma bounded_exponent_lt mx ex my ey :
  bounded prec emax mx ex = true → bounded prec emax my ey = true →
  ey < ex → Z.pos my < Z.pos mx * 2 ^ (ex - ey).
Proof.
  intros (Hex & Hdx & Hnx)%bounded_inv (Hey & Hdy & _)%bounded_inv Hlt.
  pose proof (digits2_pos_bounds mx) as [Hlo _].
  pose proof (digits2_pos_bounds my) as [_ Hhi].
  rewrite Hnx in Hlo by lia.
  assert (2 ^ Z.pos (digits2_pos my) ≤ 2 ^ prec) by (apply Z.pow_le_mono_r; lia).
  assert (2 ^ 1 ≤ 2 ^ (ex - ey)) by (apply Z.pow_le_mono_r; lia).
  assert (2 ^ prec = 2 ^ (prec - 1) * 2 ^ 1) as Hp.
  { reflexivity. }
  nia.
Qed.

Lemma SFsub_sign x y :
  valid_binary x = true → valid_binary y = true →
  SFltb (S754_zero false) (SF64sub x y) = SFltb y x.
Proof.
  intros Hx Hy. unfold SF64sub, SFsub.
  destruct x as [sx|sx| |sx mx ex], y as [sy|sy| |sy my ey];
    try done; try (by destruct sx); try (by destruct sy);
    try (by destruct sx, sy).
  cbn [valid_binary] in Hx, Hy.
  pose proof (bounded_inv _ _ Hx) as (Hex & _).
  pose proof (bounded_inv _ _ Hy) as (Hey & _).
  rewrite binary_normalize_sign by lia.
  rewrite !shl_align_fst by lia.
  unfold SFltb, SFcompare.
  assert (Hpx : 0 < 2 ^ (ex - ex `min` ey)) by (apply Z.pow_pos_nonneg; lia).
  assert (Hpy : 0 < 2 ^ (ey - ex `min` ey)) by (apply Z.pow_pos_nonneg; lia).
  destruct sx, sy; cbn [cond_Zopp].
  - destruct (Z.compare_spec ey ex) as [->|Hlt|Hlt].
    + rewrite Z.min_id, Z.sub_diag, Z.pow_0_r.
      change (PosDef.Pos.compare_cont Eq my mx) with (Pos.compare my mx).
      destruct (Pos.compare_spec my mx); cbn [CompOpp];
        case_bool_decide; done || lia.
    + pose proof (bounded_exponent_lt _ _ _ _ Hx Hy Hlt).
      rewrite Z.min_r, Z.sub_diag, Z.pow_0_r by lia.
      rewrite bool_decide_eq_false_2; [done|lia].
    + pose proof (bounded_exponent_lt _ _ _ _ Hy Hx Hlt).
      rewrite Z.min_l, Z.sub_diag, Z.pow_0_r by lia.
      rewrite bool_decide_eq_true_2; [done|lia].
  - rewrite bool_decide_eq_false_2; [done|lia].
  - rewrite bool_decide_eq_true_2; [done|lia].
  - destruct (Z.compare_spec ey ex) as [->|Hlt|Hlt].
    + rewrite Z.min_id, Z.sub_diag, Z.pow_0_r.
      change (PosDef.Pos.compare_cont Eq my mx) with (Pos.compare my mx).
      destruct (Pos.compare_spec my mx); case_bool_decide; done || lia.
    + pose proof (bounded_exponent_lt _ _ _ _ Hx Hy Hlt).
      rewrite Z.min_r, Z.sub_diag, Z.pow_0_r by lia.
      rewrite bool_decide_eq_true_2; [done|lia].
    + pose proof (bounded_exponent_lt _ _ _ _ Hy Hx Hlt).
      rewrite Z.min_l, Z.sub_diag, Z.pow_0_r by lia.
      rewrite bool_decide_eq_false_2; [done|lia].
Qed.

(** [0 < x - y] and [y < x] are one test. *)
Lemma ltb_zero_sub (x y : float) :
  PrimFloat.ltb PrimFloat.zero (PrimFloat.sub x y) = PrimFloat.ltb y x.
Proof.
  rewrite !ltb_spec, sub_spec.
  change (Prim2SF 0) with (S754_zero false).
  apply SFsub_sign; apply Prim2SF_valid.
Qed.

(** *** The order of float64, read off [SFcompare] *)

Lemma SFltb_key x y :
  SFltb x y = true ↔ x ≠ S754_nan ∧ y ≠ S754_nan ∧ lt3 (SFkey x) (SFkey y).
Proof.
  unfold SFltb, lt3.
  destruct x as [sx|sx| |sx mx ex], y as [sy|sy| |sy my ey]; cbn;
    try (destruct sx); try (destruct sy); cbn;
    try (split; [done|]; intros (? & ? & ?); (done || lia));
    try (split; [intros _; repeat split; (done || lia)|done]).
  - change (PosDef.Pos.compare_cont Eq mx my) with (Pos.compare mx my).
    destruct (Z.compare_spec ex ey), (Pos.compare_spec mx my); cbn;
      split; try done; try lia; intros _; repeat split; try done; lia.
  - change (PosDef.Pos.compare_cont Eq mx my) with (Pos.compare mx my).
    destruct (Z.compare_spec ex ey), (Pos.compare_spec mx my); cbn;
      split; try done; try lia; intros _; repeat split; try done; lia.
Qed.

Lemma SFeqb_refl x : SFeqb x x = true ↔ x ≠ S754_nan.
Proof.
  unfold SFeqb. destruct x as [[]|[]| |[] m e]; cbn; try by split.
  all: rewrite Z.compare_refl; change (PosDef.Pos.compare_cont Eq m m) with (Pos.compare m m);
    rewrite Pos.compare_refl; by split.
Qed.

Lemma ltb_trans (x y z : float) :
  PrimFloat.ltb x y = true → PrimFloat.ltb y z = true → PrimFloat.ltb x z = true.
Proof.
  rewrite !ltb_spec, !SFltb_key. unfold lt3.
  intros (? & ? & ?) (? & ? & ?). repeat split; [done|done|lia].
Qed.

Lemma ltb_asym (x y : float) :
  PrimFloat.ltb x y = true → PrimFloat.ltb y x = false.
Proof.
  intros H. apply not_true_is_false. intros H'.
  pose proof (ltb_trans _ _ _ H H') as Hxx.
  rewrite ltb_spec, SFltb_key in Hxx. unfold lt3 in Hxx. lia.
Qed.

(** When [x] is below [z], a number [y] is above [x] or below [z]. *)
Lemma ltb_cotrans (x y z : float) :
  ordered y → PrimFloat.ltb x z = true →
  PrimFloat.ltb x y = true ∨ PrimFloat.ltb y z = true.
Proof.
  unfold ordered. rewrite FloatAxioms.eqb_spec, SFeqb_refl, !ltb_spec, !SFltb_key.
  unfold lt3. intros Hy (? & ? & ?).
  destruct (decide (lt3 (SFkey (Prim2SF x)) (SFkey (Prim2SF y)))) as [Hl|Hl];
    unfold lt3 in Hl; [left; done|right].
  repeat split; [done|done|lia].
Qed.

(** *** The order of the heaps *)

Lemma parent_spec (k : nat) :
  (0 < k)%nat → (k = 2 * parent k + 1 ∨ k = 2 * parent k + 2)%nat.
Proof.
  intros Hk. unfold parent.
  pose proof (Nat.div_mod_eq (k - 1) 2).
  pose proof (Nat.mod_upper_bound (k - 1) 2). lia.
Qed.

Lemma parent_child (i k : nat) :
  (k = 2 * i + 1 ∨ k = 2 * i + 2)%nat → parent k = i.
Proof.
  intros Hk. unfold parent. symmetry.
  apply (Nat.div_unique _ _ _ (k - 1 - 2 * i)); lia.
Qed.

Lemma Less_before ch i j :
  Less ch i j = before (Compare ch) (Candidates ch !!! i) (Candidates ch !!! j).
Proof. unfold Less, before. case_match; apply ltb_zero_sub. Qed.

Lemma before_irrefl cmp a : before cmp a a = false.
Proof. unfold before. case_match; apply ltb_irrefl. Qed.

Lemma before_trans cmp a b c :
  before cmp a b = true → before cmp b c = true → before cmp a c = true.
Proof. unfold before. case_match; eauto using ltb_trans. Qed.

Lemma before_asym cmp a b : before cmp a b = true → before cmp b a = false.
Proof. unfold before. case_match; apply ltb_asym. Qed.

Lemma before_cotrans cmp a b c :
  ordered (models.Distance b) → before cmp a c = true →
  before cmp a b = true ∨ before cmp b c = true.
Proof.
  unfold before. intros Hb. destruct (String.eqb cmp BIG); intros Hac.
  - destruct (ltb_cotrans _ _ _ Hb Hac); auto.
  - by apply ltb_cotrans.
Qed.

(** When [a] is not before [b] and [b] is not before [c], [a] is not before
    [c]. *)
Lemma before_false_trans cmp a b c :
  ordered (models.Distance b) →
  before cmp a b = false → before cmp b c = false → before cmp a c = false.
Proof.
  intros Hb Hab Hbc. apply not_true_is_false. intros Hac.
  destruct (before_cotrans _ _ _ _ Hb Hac); congruence.
Qed.

Lemma swapList_length {A} (l : list A) i j : length (swapList l i j) = length l.
Proof. by rewrite swapList_perm. Qed.

Lemma swapList_lookup_total `{!Inhabited A} (l : list A) (i j k : nat) :
  (i < length l)%nat → (j < length l)%nat →
  swapList l i j !!! k
  = if decide (k = j) then l !!! i
    else if decide (k = i) then l !!! j else l !!! k.
Proof.
  intros Hi Hj. unfold swapList.
  destruct (lookup_lt_is_Some_2 l i Hi) as [a Ha].
  destruct (lookup_lt_is_Some_2 l j Hj) as [b Hb].
  rewrite Ha, Hb.
  rewrite (list_lookup_total_correct _ _ _ Ha), (list_lookup_total_correct _ _ _ Hb).
  rewrite !list_lookup_total_insert, length_insert.
  repeat case_decide; try done; lia.
Qed.

Section HeapOrder.

Variable cmp : string.

Abbreviation ordList l := (∀ c : Candidate, c ∈ l → ordered (models.Distance c)).

Lemma ordList_lookup (l : list Candidate) k :
  ordList l → (k < length l)%nat → ordered (models.Distance (l !!! k)).
Proof. intros Hl Hk. apply Hl. by apply list_elem_of_lookup_total_2. Qed.

(** [up], started where the order may fail, restores it. *)
Lemma up_heapAt turns ch j :
  Compare ch = cmp → ordList (Candidates ch) →
  (j < Len ch)%nat → (j ≤ turns)%nat →
  (∀ k, (0 < k < Len ch)%nat → k ≠ j → heapAt cmp (Candidates ch) k) →
  (∀ k, (0 < j)%nat → (0 < k < Len ch)%nat → parent k = j →
        before cmp (Candidates ch !!! k) (Candidates ch !!! parent j) = false) →
  ∀ k, (0 < k < Len ch)%nat → heapAt cmp (Candidates (up turns ch j)) k.
Proof.
  revert ch j. induction turns as [|t IH]; intros ch j Hcmp Hord Hj Ht Hrest Hgrand.
  { intros k Hk. cbn [up]. apply Hrest; lia. }
  cbn [up]. fold (parent j).
  destruct (bool_decide (parent j = j) || negb (Less ch j (parent j))) eqn:Hstop.
  { intros k Hk. destruct (decide (k = j)) as [->|Hkj]; [|by apply Hrest].
    apply orb_true_iff in Hstop as [Hp%bool_decide_eq_true|Hl%negb_true_iff].
    - pose proof (parent_spec j). lia.
    - rewrite Less_before, Hcmp in Hl. exact Hl. }
  apply orb_false_iff in Hstop as [Hp%bool_decide_eq_false Hl%negb_false_iff].
  rewrite Less_before, Hcmp in Hl.
  assert (Hj0 : (0 < j)%nat) by (destruct j; [done|lia]).
  pose proof (parent_spec j Hj0) as Hpj.
  set (i := parent j) in *. clearbody i.
  assert (Hi : (i < Len ch)%nat) by lia.
  unfold Len in *.
  intros k Hk.
  assert (Hlook : ∀ k', Candidates (Swap ch i j) !!! k'
    = if decide (k' = j) then Candidates ch !!! i
      else if decide (k' = i) then Candidates ch !!! j else Candidates ch !!! k').
  { intros k'. apply swapList_lookup_total; done. }
  assert (Hlen : length (Candidates (Swap ch i j)) = length (Candidates ch)).
  { apply swapList_length. }
  assert (Hord' : ordList (Candidates (Swap ch i j))).
  { intros c Hc. apply Hord. by rewrite <- (Swap_perm ch i j). }
  apply (IH (Swap ch i j) i); try done; unfold Len; try lia.
  - clear k Hk. intros k Hk Hki. unfold heapAt. rewrite !Hlook.
    rewrite Hlen in Hk.
    pose proof (parent_spec k ltac:(lia)) as Hpk.
    destruct (decide (k = j)) as [->|Hkj].
    + rewrite (parent_child i j Hpj).
      rewrite decide_False by lia. rewrite decide_True by done.
      by apply before_asym.
    + rewrite (decide_False _ _ Hki).
      destruct (decide (parent k = j)) as [Hpkj|Hpkj].
      * apply Hgrand; [done|lia|done].
      * destruct (decide (parent k = i)) as [Hpki|Hpki].
        -- apply not_true_is_false. intros Hkb.
           pose proof (before_trans _ _ _ _ Hkb Hl) as Hki'.
           pose proof (Hrest k ltac:(lia) Hkj) as Hr. unfold heapAt in Hr.
           rewrite Hpki in Hr. congruence.
        -- by apply Hrest.
  - clear k Hk. intros k Hi0 Hk Hpk. rewrite !Hlook. rewrite Hlen in Hk.
    pose proof (parent_spec i Hi0) as Hpi.
    pose proof (parent_spec k ltac:(lia)) as Hpk'. rewrite Hpk in Hpk'.
    rewrite (decide_False (P := parent i = j)) by lia.
    rewrite (decide_False (P := parent i = i)) by lia.
    assert (Hii : heapAt cmp (Candidates ch) i) by (apply Hrest; lia).
    destruct (decide (k = j)) as [->|Hkj]; [exact Hii|].
    rewrite decide_False by lia.
    eapply before_false_trans; [|apply (Hrest k); [lia|done]|].
    + rewrite Hpk. by apply ordList_lookup.
    + rewrite Hpk. exact Hii.
Qed.

(** [down], started where the order may fail, restores it below [n]. *)
Lemma down_heapAt turns ch i n :
  Compare ch = cmp → ordList (Candidates ch) →
  (n ≤ Len ch)%nat → (n - i ≤ turns)%nat →
  (∀ k, (0 < k < n)%nat → parent k ≠ i → heapAt cmp (Candidates ch) k) →
  (∀ k, (0 < i)%nat → (0 < k < n)%nat → parent k = i →
        before cmp (Candidates ch !!! k) (Candidates ch !!! parent i) = false) →
  ∀ k, (0 < k < n)%nat → heapAt cmp (Candidates (down turns ch i n)) k.
Proof.
  revert ch i. induction turns as [|t IH]; intros ch i Hcmp Hord Hn Ht Hrest Hgrand.
  { intros k Hk. cbn [down]. apply Hrest; [done|].
    pose proof (parent_spec k ltac:(lia)). lia. }
  cbn [down]. case_bool_decide as Hj1.
  { intros k Hk. apply Hrest; [done|].
    pose proof (parent_spec k ltac:(lia)). lia. }
  set (j1 := (2 * i + 1)%nat) in *.
  set (j2 := (j1 + 1)%nat) in *.
  set (j := if bool_decide (j2 < n)%nat && Less ch j2 j1 then j2 else j1).
  assert (Hjcases :
    (j = j2 ∧ (j2 < n)%nat
       ∧ before cmp (Candidates ch !!! j2) (Candidates ch !!! j1) = true)
    ∨ (j = j1 ∧ ((j2 < n)%nat →
         before cmp (Candidates ch !!! j2) (Candidates ch !!! j1) = false))).
  { subst j. destruct (bool_decide (j2 < n)%nat && Less ch j2 j1) eqn:Hc.
    - left. apply andb_true_iff in Hc as [?%bool_decide_eq_true Hl].
      rewrite Less_before, Hcmp in Hl. done.
    - right. split; [done|]. intros Hlt.
      apply andb_false_iff in Hc as [?%bool_decide_eq_false|Hl]; [lia|].
      rewrite Less_before, Hcmp in Hl. done. }
  clearbody j.
  assert (Hjn : (j < n)%nat) by (destruct Hjcases as [(-> & ? & _)|[-> _]]; lia).
  assert (Hpj : parent j = i).
  { apply parent_child. subst j1 j2. destruct Hjcases as [(-> & ? & _)|[-> _]]; lia. }
  assert (Hord1 : ordered (models.Distance (Candidates ch !!! j1))).
  { apply ordList_lookup; [done|]. unfold Len in *. lia. }
  destruct (negb (Less ch j i)) eqn:Hstop.
  { apply negb_true_iff in Hstop. rewrite Less_before, Hcmp in Hstop.
    intros k Hk. destruct (decide (parent k = i)) as [Hpk|Hpk]; [|by apply Hrest].
    unfold heapAt. rewrite Hpk.
    pose proof (parent_spec k ltac:(lia)) as Hk'. rewrite Hpk in Hk'.
    destruct Hjcases as [(-> & Hlt & Hb)|[-> Hb]].
    - destruct (decide (k = j2)) as [->|]; [done|].
      assert (k = j1) as -> by lia.
      apply not_true_is_false. intros H1.
      by rewrite (before_trans _ _ _ _ Hb H1) in Hstop.
    - destruct (decide (k = j1)) as [->|]; [done|].
      assert (k = j2) as -> by lia.
      eapply before_false_trans; [exact Hord1|apply Hb; lia|done]. }
  apply negb_false_iff in Hstop. rewrite Less_before, Hcmp in Hstop.
  unfold Len in *.
  assert (Hin : (i < length (Candidates ch))%nat) by lia.
  assert (Hjl : (j < length (Candidates ch))%nat) by lia.
  assert (Hlook : ∀ k', Candidates (Swap ch i j) !!! k'
    = if decide (k' = j) then Candidates ch !!! i
      else if decide (k' = i) then Candidates ch !!! j else Candidates ch !!! k').
  { intros k'. apply swapList_lookup_total; done. }
  assert (Hlen : length (Candidates (Swap ch i j)) = length (Candidates ch)).
  { apply swapList_length. }
  assert (Hord' : ordList (Candidates (Swap ch i j))).
  { intros c Hc. apply Hord. by rewrite <- (Swap_perm ch i j). }
  assert (Hij : i ≠ j) by (subst j1 j2; destruct Hjcases as [(-> & _)|[-> _]]; lia).
  apply (IH (Swap ch i j) j); try done; unfold Len; try lia.
  - intros k Hk Hpk. unfold heapAt. rewrite !Hlook.
    pose proof (parent_spec k ltac:(lia)) as Hk'.
    destruct (decide (k = j)) as [->|Hkj].
    + rewrite Hpj. rewrite decide_False by done. rewrite decide_True by done.
      by apply before_asym.
    + rewrite (decide_False (P := parent k = j)) by done.
      destruct (decide (parent k = i)) as [Hpki|Hpki].
      * rewrite decide_False by lia.
        rewrite Hpki in Hk'.
        destruct Hjcases as [(-> & Hlt & Hb)|[-> Hb]].
        -- assert (k = j1) as -> by lia. by apply before_asym.
        -- assert (k = j2) as -> by lia. apply Hb. lia.
      * destruct (decide (k = i)) as [->|Hki].
        -- apply Hgrand; [lia|lia|done].
        -- by apply Hrest.
  - intros k _ Hk Hpk. rewrite !Hlook. rewrite Hpj.
    pose proof (parent_spec k ltac:(lia)) as Hk'. rewrite Hpk in Hk'.
    rewrite (decide_False (P := k = j)) by lia.
    rewrite (decide_False (P := k = i)) by lia.
    rewrite (decide_False (P := i = j)) by done.
    rewrite decide_True by done.
    assert (Hr : heapAt cmp (Candidates ch) k) by (apply Hrest; lia).
    unfold heapAt in Hr. by rewrite Hpk in Hr.
Qed.

(** [down] leaves the cells from [n] on alone. *)
Lemma down_frame turns ch i n k :
  (n ≤ Len ch)%nat → (n ≤ k)%nat →
  Candidates (down turns ch i n) !!! k = Candidates ch !!! k.
Proof.
  revert ch i. induction turns as [|t IH]; intros ch i Hn Hk; [done|].
  cbn [down]. case_bool_decide as Hj1; [done|].
  set (j := if bool_decide (2 * i + 1 + 1 < n)%nat
                && Less ch (2 * i + 1 + 1) (2 * i + 1)
            then (2 * i + 1 + 1)%nat else (2 * i + 1)%nat).
  assert (Hj : (j < n)%nat).
  { subst j. destruct (bool_decide (2 * i + 1 + 1 < n)%nat) eqn:Hb; simpl.
    - apply bool_decide_eq_true in Hb. case_match; lia.
    - lia. }
  clearbody j.
  case_match; [done|].
  unfold Len in *. rewrite IH.
  - simpl. rewrite swapList_lookup_total by lia.
    rewrite !decide_False by lia. done.
  - unfold Len. simpl. rewrite swapList_length. lia.
  - done.
Qed.

End HeapOrder.

(** Nothing in an ordered heap is before its root. *)
Lemma heapOrdered_root ch c :
  heapOrdered ch → c ∈ Candidates ch →
  before (Compare ch) c (Candidates ch !!! 0%nat) = false.
Proof.
  intros [Hord Hpar] (k & Hk)%list_elem_of_lookup_1.
  pose proof (lookup_lt_Some _ _ _ Hk) as Hlt.
  rewrite <- (list_lookup_total_correct _ _ _ Hk). clear Hk c.
  induction (lt_wf k) as [k _ IH].
  destruct (decide (k = 0%nat)) as [->|Hk0]; [apply before_irrefl|].
  pose proof (parent_spec k ltac:(lia)) as Hpk.
  eapply before_false_trans; [|apply Hpar; unfold Len; lia|apply IH; lia].
  apply Hord, list_elem_of_lookup_total_2. lia.
Qed.

Lemma heap_Push_ordered ch x :
  heapOrdered ch → ordered (models.Distance x) → heapOrdered (heap_Push ch x).
Proof.
  intros [Hord Hpar] Hx. split.
  - intros c [->|Hc]%heap_Push_elem; auto.
  - rewrite heap_Push_Len, heap_Push_Compare.
    unfold heap_Push, heap_up.
    assert (HLen : Len (Push ch x) = S (Len ch)).
    { unfold Len, Push. simpl. rewrite length_app. simpl. lia. }
    rewrite HLen. replace (S (Len ch) - 1)%nat with (Len ch) by lia.
    intros k Hk.
    apply up_heapAt; try done; rewrite ?HLen; try lia.
    + intros c [Hc| ->%list_elem_of_singleton]%elem_of_app; auto.
    + intros k' Hk' Hne. unfold heapAt. simpl.
      pose proof (parent_spec k' ltac:(lia)).
      rewrite !lookup_total_app_l by (unfold Len in *; lia).
      apply Hpar. lia.
    + intros k' _ Hk' Hpk'. pose proof (parent_spec k' ltac:(lia)). lia.
Qed.

(** [heap.Pop] hands out the root and leaves an ordered heap. *)
Lemma heap_Pop_ordered ch item ch' :
  heapOrdered ch → heap_Pop ch = Ok (item, ch') →
  item = Candidates ch !!! 0%nat ∧ heapOrdered ch'.
Proof.
  intros [Hord Hpar] Hpop.
  pose proof (heap_Pop_inv _ _ _ Hpop) as [Hperm Hcmp].
  pose proof (heap_Pop_Len _ _ _ Hpop) as HLen.
  revert Hpop. unfold heap_Pop. case_bool_decide as Hne; [done|].
  set (n := (Len ch - 1)%nat). unfold heap_down. rewrite Nat.sub_0_r.
  intros [Hc _]%Pop_inv.
  assert (Hn : n = Len ch') by lia.
  assert (Hl0 : (0 < length (Candidates ch))%nat) by (unfold Len in *; lia).
  assert (Hln : (n < length (Candidates ch))%nat) by (unfold Len in *; lia).
  assert (Hitem : Candidates (down n (Swap ch 0 n) 0 n) !!! n = item).
  { rewrite Hc. rewrite lookup_total_app_r by (unfold Len in *; lia).
    replace (n - length (Candidates ch'))%nat with 0%nat by (unfold Len in *; lia).
    done. }
  rewrite down_frame in Hitem; [|unfold Len; simpl; rewrite swapList_length; lia|done].
  simpl in Hitem. rewrite swapList_lookup_total in Hitem by done.
  rewrite decide_True in Hitem by done.
  split; [done|]. split.
  - intros c Hc'. apply Hord. rewrite <- Hperm. by right.
  - intros k Hk. rewrite Hcmp.
    assert (Hda : heapAt (Compare ch) (Candidates (down n (Swap ch 0 n) 0 n)) k).
    { apply down_heapAt; try done.
      - intros c Hc'. apply Hord. by rewrite <- (Swap_perm ch 0 n).
      - unfold Len. simpl. rewrite swapList_length. lia.
      - lia.
      - intros k' Hk' Hpk'. unfold heapAt. simpl.
        pose proof (parent_spec k' ltac:(lia)).
        rewrite !swapList_lookup_total by done.
        rewrite !decide_False by lia. apply Hpar. lia.
      - lia.
      - lia. }
    unfold heapAt in *. rewrite Hc in Hda.
    pose proof (parent_spec k ltac:(lia)).
    rewrite !lookup_total_app_l in Hda by (unfold Len in *; lia). done.
Qed.


Lemma elem_of_ExtractHeapData ch v :
  v ∈ ExtractHeapData ch ↔ ∃ c, c ∈ Candidates ch ∧ NodeID c = v.
Proof.
  unfold ExtractHeapData. rewrite list_elem_of_fmap. naive_solver.
Qed.

Lemma ExtractHeapData_Push ch x v :
  v ∈ ExtractHeapData (heap_Push ch x) ↔ v = NodeID x ∨ v ∈ ExtractHeapData ch.
Proof.
  rewrite !elem_of_ExtractHeapData. setoid_rewrite heap_Push_elem. naive_solver.
Qed.


Lemma ltb_false_trans (x y z : float) :
  ordered y → PrimFloat.ltb x y = false → PrimFloat.ltb y z = false →
  PrimFloat.ltb x z = false.
Proof.
  intros Hy Hxy Hyz. apply not_true_is_false. intros Hxz.
  destruct (ltb_cotrans _ _ _ Hy Hxz); congruence.
Qed.

Lemma small_root ch c :
  heapOrdered ch → Compare ch = SMALL → c ∈ Candidates ch →
  PrimFloat.ltb (models.Distance c) (models.Distance (Candidates ch !!! 0%nat))
  = false.
Proof.
  intros Hh Hcmp Hc. pose proof (heapOrdered_root _ _ Hh Hc) as Hb.
  unfold before in Hb. by rewrite Hcmp in Hb.
Qed.

Lemma big_root ch c :
  heapOrdered ch → Compare ch = BIG → c ∈ Candidates ch →
  PrimFloat.ltb (models.Distance (Candidates ch !!! 0%nat)) (models.Distance c)
  = false.
Proof.
  intros Hh Hcmp Hc. pose proof (heapOrdered_root _ _ Hh Hc) as Hb.
  unfold before in Hb. by rewrite Hcmp in Hb.
Qed.

Lemma heapOrdered_nil compare : heapOrdered (mkHeap [] compare).
Proof.
  split; simpl.
  - by intros c ?%elem_of_nil.
  - intros k. unfold Len. simpl. lia.
Qed.

(** [heap.Pop] on a heap of farthest-first candidates takes out a farthest
    one. *)
Lemma heap_Pop_big W1 item W' :
  heapOrdered W1 → Compare W1 = BIG → heap_Pop W1 = Ok (item, W') →
  item :: Candidates W' ≡ₚ Candidates W1 ∧ heapOrdered W'
  ∧ ordered (models.Distance item)
  ∧ ∀ c, c ∈ Candidates W1 →
      PrimFloat.ltb (models.Distance item) (models.Distance c) = false.
Proof.
  intros HW1 Hbig Hpop.
  destruct (heap_Pop_inv _ _ _ Hpop) as [Hperm _].
  destruct (heap_Pop_ordered _ _ _ HW1 Hpop) as [Hroot HW'].
  split_and!; try done.
  - apply HW1. rewrite <- Hperm. by left.
  - intros c Hc. rewrite Hroot. by apply big_root.
Qed.


Lemma comparableb_sound h q lc : comparableb h q lc → comparable h q lc.
Proof.
  unfold comparableb, comparable, present, ordered.
  intros Hb u d (layer & Hl & [ch Hu]) Hd.
  rewrite Hl, forallb_True, Forall_forall in Hb.
  apply elem_of_map_to_list, Hb in Hu. simpl in Hu. rewrite Hd in Hu.
  by apply Is_true_true.
Qed.

(** *** The search on ordered heaps *)

Section SearchOrder.

Variables (h : HNSW) (q : Element) (ef lc entry : Z).

Lemma visit_cases fc V C W v st' :
  visit h q ef fc (V, C, W) v = Ok st' →
  (v ∈ V ∧ st' = (V, C, W))
  ∨ ((v ∉ V) ∧ ∃ d, Distance q (elementOf h v) = Ok d ∧
      ((PrimFloat.ltb d (models.Distance fc) = false
          ∧ ¬ (Z.of_nat (Len W) < ef) ∧ st' = ({[v]} ∪ V, C, W))
       ∨ ((PrimFloat.ltb d (models.Distance fc) = true ∨ Z.of_nat (Len W) < ef)
          ∧ ¬ (ef < Z.of_nat (S (Len W)))
          ∧ st' = ({[v]} ∪ V, heap_Push C (mkCandidate v d),
                   heap_Push W (mkCandidate v d)))
       ∨ ((PrimFloat.ltb d (models.Distance fc) = true ∨ Z.of_nat (Len W) < ef)
          ∧ ef < Z.of_nat (S (Len W))
          ∧ ∃ item W', heap_Pop (heap_Push W (mkCandidate v d)) = Ok (item, W')
              ∧ st' = ({[v]} ∪ V, heap_Push C (mkCandidate v d), W')))).
Proof.
  unfold visit. case_bool_decide as Hvis; [intros [= <-]; by left|].
  intros (d & Hd & Hk)%bind_Ok. right. split; [done|]. exists d. split; [done|].
  revert Hk. destruct (_ || _) eqn:Hcond.
  - apply orb_true_iff in Hcond.
    assert (Hadm : PrimFloat.ltb d (models.Distance fc) = true
                   ∨ Z.of_nat (Len W) < ef).
    { destruct Hcond as [?|?%bool_decide_eq_true]; auto. }
    clear Hcond.
    rewrite heap_Push_Len. case_bool_decide as Hfull.
    + intros ([item W'] & Hpop & [= <-])%bind_Ok. right. right. eauto 10.
    + intros [= <-]. right. left. eauto.
  - apply orb_false_iff in Hcond as [? ?%bool_decide_eq_false].
    intros [= <-]. left. eauto.
Qed.

Lemma visit_V fc st v st' :
  visit h q ef fc st v = Ok st' → v ∈ st'.1.1 ∧ st.1.1 ⊆ st'.1.1.
Proof.
  destruct st as [[V C] W].
  intros [[? ->]|(? & d & _ & [(_ & _ & ->)|[(_ & _ & ->)|(_ & _ & ? & ? & _ & ->)]])]%visit_cases;
    simpl; set_solver.
Qed.

Lemma foldExec_visit_V fc l st st' :
  foldExec (visit h q ef fc) st l = Ok st' →
  st.1.1 ⊆ st'.1.1 ∧ ∀ v, v ∈ l → v ∈ st'.1.1.
Proof.
  revert st. induction l as [|a l IH]; intros st; simpl.
  - intros [= <-]. split; [done|]. by intros v ?%elem_of_nil.
  - intros (s1 & [Ha Hsub]%visit_V & [Hsub' Hl]%IH)%bind_Ok. split; [set_solver|].
    intros v [->|Hv]%elem_of_cons; [set_solver|auto].
Qed.

(** The proof rule of the loop of [SearchLayer]: [I] holds between two
    turns, [J] while the neighbours of the candidate [nc] are visited. *)
Lemma searchLoop_rule (I : searchState → Prop)
    (J : Candidate → Candidate → CandidateHeap → searchState → Prop)
    (Post : CandidateHeap → Prop) :
  (∀ V C W, I (V, C, W) → Len C = 0%nat → Post W) →
  (∀ V C W nc C' fc, I (V, C, W) →
     heap_Pop C = Ok (nc, C') → Candidates W !! 0%nat = Some fc →
     (PrimFloat.ltb (models.Distance fc) (models.Distance nc) = true → Post W)
     ∧ (PrimFloat.ltb (models.Distance fc) (models.Distance nc) = false →
        ∀ nbrs, layerHeap h lc (NodeID nc) = Ok nbrs → J nc fc nbrs (V, C', W))) →
  (∀ nc fc nbrs st v st', J nc fc nbrs st → v ∈ ExtractHeapData nbrs →
     visit h q ef fc st v = Ok st' → J nc fc nbrs st') →
  (∀ nc fc nbrs st, J nc fc nbrs st →
     (∀ v, v ∈ ExtractHeapData nbrs → v ∈ st.1.1) → I st) →
  ∀ fuel st W', I st → searchLoop fuel h q ef lc st = Ok W' → Post W'.
Proof.
  intros Hend Hpop Hvisit Hdone.
  induction fuel as [|fuel IH]; intros [[V C] W] W' HI; [done|].
  cbn [searchLoop]. case_bool_decide as HC; [intros [= <-]; eauto|].
  intros ([nc C'] & Hp & Hk)%bind_Ok.
  apply bind_Ok in Hk as (fc & Hfc%orPanic_Ok & Hk). revert Hk.
  destruct (Hpop _ _ _ _ _ _ HI Hp Hfc) as [Hstop Hgo].
  destruct (PrimFloat.ltb _ _) eqn:Hlt; [intros [= <-]; auto|].
  intros (nbrs & Hnb & (st' & Hfold & Hk)%bind_Ok)%bind_Ok.
  eapply IH; [|exact Hk].
  apply (Hdone nc fc nbrs).
  - eapply (foldExec_inv (J nc fc nbrs)); [| |exact Hfold]; [|by apply Hgo].
    intros s a s' Ha Hs Hv. eapply Hvisit; eauto.
  - by apply foldExec_visit_V in Hfold as [_ ?].
Qed.

Hypothesis Hs : searchable h q lc.
Hypothesis He : present h lc entry.
Hypothesis Hc : comparable h q lc.

Lemma tagged_ordered c :
  tagged h q c → reachable h lc entry (NodeID c) → ordered (models.Distance c).
Proof.
  intros Ht Hr. eapply Hc; [|exact Ht].
  eapply reachable_present; [|exact He|exact Hr]. apply Hs.
Qed.

Lemma searchInv_Pop V C W nc C' :
  searchInv h q ef lc entry V C W → heap_Pop C = Ok (nc, C') →
  searchInv h q ef lc entry V C' W ∧ reachable h lc entry (NodeID nc).
Proof.
  intros Hinv Hpop. destruct (heap_Pop_inv _ _ _ Hpop) as [Hperm _]. split.
  - destruct Hinv. split; auto. intros c Hc'. eauto using heap_Pop_elem.
  - apply Hinv, Hinv. rewrite <- Hperm. by left.
Qed.

Lemma searchOrd_Pop V C W nc C' :
  searchOrd h q (V, C, W) → heap_Pop C = Ok (nc, C') →
  searchOrd h q (V, C', W) ∧ tagged h q nc
  ∧ ∀ c, c ∈ Candidates C →
      PrimFloat.ltb (models.Distance c) (models.Distance nc) = false.
Proof.
  intros [Htag Hsmall HC HW] Hpop. simpl in *.
  destruct (heap_Pop_inv _ _ _ Hpop) as [Hperm Hcmp].
  destruct (heap_Pop_ordered _ _ _ HC Hpop) as [Hroot HC'].
  split; [split; simpl; auto|split].
  - intros c Hc'. apply Htag. eauto using heap_Pop_elem.
  - congruence.
  - apply Htag. rewrite <- Hperm. by left.
  - intros c Hc'. rewrite Hroot. by apply small_root.
Qed.

(** One neighbour more: the heaps stay ordered. *)
Lemma visit_ord fc st v st' :
  searchInvSt h q ef lc entry st → searchOrd h q st →
  reachable h lc entry v →
  visit h q ef fc st v = Ok st' → searchOrd h q st'.
Proof.
  destruct st as [[V C] W]. intros Hinv [Htag Hsmall HC HW] Hv. simpl in *.
  intros [[? ->]|(Hnew & d & Hd & Hcase)]%visit_cases; [done|].
  assert (Hod : ordered d).
  { eapply Hc; [|exact Hd]. eapply reachable_present; [|exact He|exact Hv]. apply Hs. }
  assert (HC1 : heapOrdered (heap_Push C (mkCandidate v d))).
  { by apply heap_Push_ordered. }
  assert (HW1 : heapOrdered (heap_Push W (mkCandidate v d))).
  { by apply heap_Push_ordered. }
  assert (Htag1 : ∀ c, c ∈ Candidates (heap_Push C (mkCandidate v d)) → tagged h q c).
  { intros c [->|?]%heap_Push_elem; auto. }
  destruct Hcase as [(_ & _ & ->)|[(_ & _ & ->)|(_ & _ & item & W' & Hpop & ->)]];
    split; simpl; auto; try by rewrite heap_Push_Compare.
  by destruct (heap_Pop_ordered _ _ _ HW1 Hpop).
Qed.

Lemma visiting_visit fc nc nbrs st v st' :
  visiting h q ef lc entry nc nbrs st → v ∈ ExtractHeapData nbrs →
  visit h q ef fc st v = Ok st' →
  visiting h q ef lc entry nc nbrs st' ∧ reachable h lc entry v.
Proof.
  intros (Hinv & Hord & Hnc & Hnb) Hv Hvis.
  assert (Hr : reachable h lc entry v).
  { eapply reach_edge; [exact Hnc|]. by eapply layerHeap_edge. }
  split; [|done]. split_and!; try done.
  - by eapply visit_inv.
  - by eapply visit_ord.
Qed.

Lemma visiting_start V C W nc C' nbrs :
  searchInvSt h q ef lc entry (V, C, W) → searchOrd h q (V, C, W) →
  heap_Pop C = Ok (nc, C') → layerHeap h lc (NodeID nc) = Ok nbrs →
  visiting h q ef lc entry nc nbrs (V, C', W).
Proof.
  intros Hinv Hord Hpop Hnb.
  destruct (searchInv_Pop _ _ _ _ _ Hinv Hpop) as [Hinv' Hnc].
  destruct (searchOrd_Pop _ _ _ _ _ Hord Hpop) as (Hord' & _ & _).
  by split_and!.
Qed.

Lemma expanded_done V nc nbrs :
  layerHeap h lc (NodeID nc) = Ok nbrs →
  (∀ v, v ∈ ExtractHeapData nbrs → v ∈ V) → expanded h lc V (NodeID nc).
Proof.
  intros (layer & Hl & Hn)%layerHeap_Ok Hall v (layer' & ch & Hl' & Hu & Hv).
  simplify_eq. by apply Hall.
Qed.

Lemma expanded_mono V V' u : V ⊆ V' → expanded h lc V u → expanded h lc V' u.
Proof. intros Hsub Hex v Hv. apply Hsub, Hex, Hv. Qed.

Lemma SearchLayer_start_ord d :
  Distance q (elementOf h entry) = Ok d →
  searchOrd h q
    ({[entry]}, heap_Push (heap_Init NewSmallCandidatesHeap) (mkCandidate entry d),
     heap_Push (heap_Init NewBigCandidatesHeap) (mkCandidate entry d)).
Proof.
  intros Hd.
  assert (Hod : ordered d) by (eapply Hc; [exact He|exact Hd]).
  split; simpl.
  - by intros c ->%list_elem_of_singleton.
  - reflexivity.
  - apply heap_Push_ordered; [apply heapOrdered_nil|done].
  - apply heap_Push_ordered; [apply heapOrdered_nil|done].
Qed.

(** *** The nearest candidate of the result *)

Lemma bestOf_reject V W b v d fc :
  bestOf h q V W b → Distance q (elementOf h v) = Ok d →
  ordered (models.Distance fc) →
  PrimFloat.ltb d (models.Distance fc) = false →
  PrimFloat.ltb (models.Distance fc) (models.Distance b) = false →
  bestOf h q ({[v]} ∪ V) W b.
Proof.
  intros (Hb & Hmin & Hnear) Hd Hofc Hrej Hfb. split_and!; try done.
  intros u du [->%elem_of_singleton|Hu]%elem_of_union Hdu; [|eauto].
  assert (du = d) as -> by congruence.
  by eapply ltb_false_trans.
Qed.

Lemma bestOf_Push V W b v d fc :
  bestOf h q V W b → Distance q (elementOf h v) = Ok d →
  PrimFloat.ltb (models.Distance fc) (models.Distance b) = false →
  ∃ b', bestOf h q ({[v]} ∪ V) (heap_Push W (mkCandidate v d)) b'
        ∧ PrimFloat.ltb (models.Distance fc) (models.Distance b') = false.
Proof.
  intros (Hb & Hmin & Hnear) Hd Hfb.
  destruct (PrimFloat.ltb d (models.Distance b)) eqn:Hdb.
  - exists (mkCandidate v d). split; [split_and!|]; simpl.
    + apply heap_Push_elem. auto.
    + intros c [->|Hc']%heap_Push_elem; simpl; [apply ltb_irrefl|].
      apply not_true_is_false. intros Hcd.
      pose proof (ltb_trans _ _ _ Hcd Hdb) as Ht. by rewrite (Hmin c Hc') in Ht.
    + intros u du [->%elem_of_singleton|Hu]%elem_of_union Hdu.
      * assert (du = d) as -> by congruence. apply ltb_irrefl.
      * apply not_true_is_false. intros Hud.
        pose proof (ltb_trans _ _ _ Hud Hdb) as Ht. by rewrite (Hnear u du Hu Hdu) in Ht.
    + apply not_true_is_false. intros Hfd.
      pose proof (ltb_trans _ _ _ Hfd Hdb) as Ht. by rewrite Hfb in Ht.
  - exists b. split; [split_and!|done].
    + apply heap_Push_elem. auto.
    + intros c [->|Hc']%heap_Push_elem; auto.
    + intros u du [->%elem_of_singleton|Hu]%elem_of_union Hdu; [|eauto].
      by assert (du = d) as -> by congruence.
Qed.

Lemma bestOf_Pop V W1 b item W' fc :
  bestOf h q V W1 b →
  PrimFloat.ltb (models.Distance fc) (models.Distance b) = false →
  heapOrdered W1 → Compare W1 = BIG → heap_Pop W1 = Ok (item, W') →
  (1 ≤ Len W')%nat →
  ∃ b', bestOf h q V W' b'
        ∧ PrimFloat.ltb (models.Distance fc) (models.Distance b') = false.
Proof.
  intros (Hb & Hmin & Hnear) Hfb HW1 Hbig Hpop Hne.
  destruct (heap_Pop_big _ _ _ HW1 Hbig Hpop) as (Hperm & _ & Hoi & Hmax).
  assert (Hsub : ∀ c, c ∈ Candidates W' → c ∈ Candidates W1).
  { intros c Hc'. rewrite <- Hperm. by right. }
  rewrite <- Hperm in Hb. apply elem_of_cons in Hb as [->|Hb].
  - assert (∃ c', c' ∈ Candidates W') as [c' Hc0].
    { unfold Len in Hne.
      destruct (Candidates W') as [|c' l']; [simpl in Hne; lia|].
      exists c'. by left. }
    pose proof (Hsub c' Hc0) as Hc'.
    pose proof (Hmax c' Hc') as Hic.
    exists c'. split; [split_and!|].
    + done.
    + intros c Hc1. eapply ltb_false_trans; [exact Hoi|by apply Hmin, Hsub|done].
    + intros u du Hu Hdu. eapply ltb_false_trans; [exact Hoi|by eapply Hnear|done].
    + by eapply ltb_false_trans.
  - exists b. split; [split_and!|]; auto.
Qed.

Lemma pending_mono V V' C C' W nc :
  V ⊆ V' → (∀ c, c ∈ Candidates C → c ∈ Candidates C') →
  pending h lc nc (V, C, W) → pending h lc nc (V', C', W).
Proof.
  intros HV HC Hp c Hc'. destruct (Hp c Hc') as [?|[?|?]]; simpl in *; auto.
  right. left. by eapply expanded_mono.
Qed.

Lemma pending_Push V C W nc x :
  pending h lc nc (V, C, W) →
  pending h lc nc (V, heap_Push C x, heap_Push W x).
Proof.
  intros Hp c [->|Hc']%heap_Push_elem; simpl.
  - left. apply heap_Push_elem. auto.
  - destruct (Hp c Hc') as [?|[?|?]]; simpl in *; auto.
    left. apply heap_Push_elem. auto.
Qed.

Lemma pending_sub V C W W' nc :
  (∀ c, c ∈ Candidates W' → c ∈ Candidates W) →
  pending h lc nc (V, C, W) → pending h lc nc (V, C, W').
Proof. intros Hsub Hp c Hc'. apply (Hp c). by apply Hsub. Qed.

Lemma visit_greedy fc nc nbrs st v st' :
  visiting h q ef lc entry nc nbrs st → v ∈ ExtractHeapData nbrs →
  greedyInv h q lc fc nc st →
  visit h q ef fc st v = Ok st' → greedyInv h q lc fc nc st'.
Proof.
  intros Hvg Hv ((b & Hbest & Hfb) & Hofc & Hpend) Hvis.
  destruct (visiting_visit _ _ _ _ _ _ Hvg Hv Hvis) as [(Hinv' & Hord' & _) Hr].
  destruct Hvg as (Hinv & Hord & _).
  destruct st as [[V C] W]. simpl in *.
  assert (HVsub : V ⊆ {[v]} ∪ V) by set_solver.
  apply visit_cases in Hvis
    as [[? ->]|(Hnew & d & Hd & [(Hrej & _ & ->)|[(_ & _ & ->)|(_ & _ & item & W' & Hpop & ->)]])];
    unfold greedyInv; simpl.
  - split_and!; eauto.
  - split_and!; [|done|by eapply pending_mono].
    exists b. split; [|done]. by eapply bestOf_reject.
  - split_and!; [|done|].
    + by eapply bestOf_Push.
    + apply pending_Push. by eapply pending_mono.
  - destruct (bestOf_Push _ _ _ v d fc Hbest Hd Hfb) as (b1 & Hbest1 & Hfb1).
    assert (HW1 : heapOrdered (heap_Push W (mkCandidate v d))).
    { apply heap_Push_ordered; [apply Hord|].
      by apply (tagged_ordered (mkCandidate v d)). }
    assert (Hbig : Compare (heap_Push W (mkCandidate v d)) = BIG).
    { rewrite heap_Push_Compare. apply Hinv. }
    split_and!; [|done|].
    + eapply bestOf_Pop; eauto. apply Hinv'.
    + eapply pending_sub; [|apply pending_Push; by eapply pending_mono].
      intros c Hc'. by eapply heap_Pop_elem.
Qed.

Lemma SearchLayer_greedy W :
  SearchLayer h q entry ef lc = Ok W →
  ∃ b, b ∈ Candidates W
       ∧ (∀ c, c ∈ Candidates W →
            PrimFloat.ltb (models.Distance c) (models.Distance b) = false)
       ∧ ∀ v dv, v = entry ∨ edge h lc (NodeID b) v →
           Distance q (elementOf h v) = Ok dv →
           PrimFloat.ltb dv (models.Distance b) = false.
Proof.
  unfold SearchLayer. intros (de & Hde & Hloop)%bind_Ok. revert Hloop.
  set (Post := fun W0 : CandidateHeap =>
    ∃ b, b ∈ Candidates W0
         ∧ (∀ c, c ∈ Candidates W0 →
              PrimFloat.ltb (models.Distance c) (models.Distance b) = false)
         ∧ ∀ v dv, v = entry ∨ edge h lc (NodeID b) v →
             Distance q (elementOf h v) = Ok dv →
             PrimFloat.ltb dv (models.Distance b) = false).
  assert (Hpost : ∀ V W0 b,
    bestOf h q V W0 b → entry ∈ V → expanded h lc V (NodeID b) → Post W0).
  { intros V W0 b (Hb & Hmin & Hnear) Hent Hex. exists b. split_and!; try done.
    intros v dv Hv Hdv. apply (Hnear v); [|done].
    destruct Hv as [->|Hev]; auto. }
  apply (searchLoop_rule
    (fun st => searchInvSt h q ef lc entry st ∧ searchOrd h q st
               ∧ (∃ b, bestOf h q st.1.1 st.2 b) ∧ entry ∈ st.1.1
               ∧ pending h lc None st)
    (fun nc fc nbrs st => visiting h q ef lc entry nc nbrs st
                          ∧ entry ∈ st.1.1 ∧ greedyInv h q lc fc nc st)
    Post).
  - intros V C W0 (_ & _ & (b & Hbest) & Hent & Hpend) HC. simpl in *.
    apply (Hpost V W0 b); try done.
    destruct (Hpend b) as [Hin|[?|?]]; [apply Hbest| |done|done].
    unfold Len in HC. apply length_zero_iff_nil in HC. simpl in Hin.
    rewrite HC in Hin. by apply elem_of_nil in Hin.
  - intros V C W0 nc C' fc (Hinv & Hord & (b & Hbest) & Hent & Hpend) Hpop Hfc.
    simpl in *.
    destruct (searchOrd_Pop _ _ _ _ _ Hord Hpop) as (_ & _ & Hmin).
    destruct (heap_Pop_inv _ _ _ Hpop) as [Hperm _].
    assert (Hfcin : fc ∈ Candidates W0) by by eapply list_elem_of_lookup_2.
    assert (Hofc : ordered (models.Distance fc)).
    { destruct Hinv as [_ _ _ HWv HWt HVr _ _]. simpl in *.
      apply tagged_ordered; [by apply HWt|]. by apply HVr, HWv. }
    assert (Hmax : ∀ c, c ∈ Candidates W0 →
              PrimFloat.ltb (models.Distance fc) (models.Distance c) = false).
    { intros c Hc'. rewrite <- (list_lookup_total_correct _ _ _ Hfc).
      apply big_root; [apply Hord|apply Hinv|done]. }
    split.
    + intros Hlt. apply (Hpost V W0 b); try done.
      destruct (Hpend b) as [Hin|[?|?]]; [apply Hbest| |done|done].
      simpl in Hin. exfalso.
      assert (Hob : ordered (models.Distance b)).
      { apply (heap_ordered _ (ord_W _ _ _ Hord)), Hbest. }
      destruct (ltb_cotrans _ _ _ Hob Hlt) as [H1|H1].
      * rewrite Hmax in H1; [done|apply Hbest].
      * by rewrite Hmin in H1.
    + intros _ nbrs Hnb. split_and!; [by eapply visiting_start|done|].
      split_and!; [|done|].
      * exists b. split; [done|]. apply Hmax, Hbest.
      * intros c Hc'. destruct (Hpend c Hc') as [Hin|[?|?]]; simpl in *;
          [|auto|done].
        rewrite <- Hperm in Hin. apply elem_of_cons in Hin as [->|?]; auto.
  - intros nc fc nbrs st v st' (Hvg & Hent & Hl) Hv Hvis. split_and!.
    + by destruct (visiting_visit _ _ _ _ _ _ Hvg Hv Hvis).
    + apply visit_V in Hvis as [_ Hsub]. by apply Hsub.
    + by eapply visit_greedy.
  - intros nc fc nbrs [[V C] W0]
      ((Hinv & Hord & _ & Hnb) & Hent & ((b & Hbest & _) & _ & Hpend)) Hall.
    simpl in *. split_and!; try done; [by exists b|].
    intros c Hc'. destruct (Hpend c Hc') as [?|[?|[= ->]]]; simpl in *; auto.
    right. left. by eapply expanded_done.
  - split_and!; simpl.
    + by apply SearchLayer_start.
    + by apply SearchLayer_start_ord.
    + exists (mkCandidate entry de). split_and!; simpl.
      * by apply list_elem_of_singleton.
      * intros c ->%list_elem_of_singleton. apply ltb_irrefl.
      * intros u du ->%elem_of_singleton Hdu.
        assert (du = de) as -> by congruence. apply ltb_irrefl.
    + set_solver.
    + intros c ->%list_elem_of_singleton. left. by apply list_elem_of_singleton.
Qed.

(** *** With room for every reachable point the result holds them all *)

Section Room.

Variable pts : list Z.
Hypothesis Hpts : ∀ v, reachable h lc entry v → v ∈ pts.
Hypothesis Hroom : Z.of_nat (length pts) ≤ ef.

(** A point that is new finds room in [W]. *)
Lemma room_left V C W v :
  searchInv h q ef lc entry V C W → v ∉ V → reachable h lc entry v →
  Z.of_nat (S (Len W)) ≤ ef.
Proof.
  intros [_ _ _ HWv _ HVr Hnd _] Hnew Hv.
  assert (Hnd' : NoDup (v :: ExtractHeapData W)).
  { constructor; [|done]. intros (c & Hc' & <-)%elem_of_ExtractHeapData.
    by apply Hnew, HWv. }
  assert (Hsub : v :: ExtractHeapData W ⊆+ pts).
  { apply NoDup_submseteq; [done|].
    intros x [->|(c & Hc' & <-)%elem_of_ExtractHeapData]%elem_of_cons; [auto|].
    by apply Hpts, HVr, HWv. }
  apply submseteq_length in Hsub. simpl in Hsub.
  unfold ExtractHeapData in Hsub. rewrite length_fmap in Hsub.
  unfold Len. lia.
Qed.

Lemma visit_room nc nc' fc nbrs st v st' :
  visiting h q ef lc entry nc' nbrs st → v ∈ ExtractHeapData nbrs → roomInv h lc entry nc st →
  visit h q ef fc st v = Ok st' → roomInv h lc entry nc st'.
Proof.
  intros Hvg Hv (Hent & HVW & HCW & Hpend) Hvis.
  destruct (visiting_visit _ _ _ _ _ _ Hvg Hv Hvis) as [_ Hr].
  destruct Hvg as (Hinv & Hord & _).
  destruct st as [[V C] W]. simpl in *.
  apply visit_cases in Hvis
    as [[? ->]|(Hnew & d & Hd & [(_ & Hfull & ->)|[(_ & _ & ->)|(_ & Hfull & _)]])];
    unfold roomInv; simpl.
  - done.
  - pose proof (room_left V C W v Hinv Hnew Hr). lia.
  - split_and!.
    + set_solver.
    + intros u [->%elem_of_singleton|Hu]%elem_of_union;
        apply ExtractHeapData_Push; simpl; auto.
    + intros c [->|Hc']%heap_Push_elem; apply heap_Push_elem; auto.
    + intros u [->%elem_of_singleton|Hu]%elem_of_union.
      * left. apply ExtractHeapData_Push. auto.
      * destruct (Hpend u Hu) as [?|[?|?]]; auto.
        -- left. apply ExtractHeapData_Push. auto.
        -- right. left. eapply expanded_mono; [|done]. set_solver.
  - pose proof (room_left V C W v Hinv Hnew Hr). lia.
Qed.

Lemma SearchLayer_room W v :
  SearchLayer h q entry ef lc = Ok W →
  reachable h lc entry v → v ∈ ExtractHeapData W.
Proof.
  unfold SearchLayer. intros (de & Hde & Hloop)%bind_Ok. revert v.
  revert Hloop.
  apply (searchLoop_rule
    (fun st => searchInvSt h q ef lc entry st ∧ searchOrd h q st
               ∧ roomInv h lc entry None st)
    (fun nc fc nbrs st => visiting h q ef lc entry nc nbrs st ∧ roomInv h lc entry (Some nc) st)
    (fun W => ∀ v, reachable h lc entry v → v ∈ ExtractHeapData W)).
  - intros V C W0 (_ & _ & Hent & HVW & _ & Hpend) HC v Hv. simpl in *.
    apply HVW. induction Hv as [|u v Hu IH Huv]; [done|].
    destruct (Hpend u IH) as [Hin|[Hex|?]]; [|by apply Hex|done].
    apply elem_of_ExtractHeapData in Hin as (c & Hin & _).
    unfold Len in HC. apply length_zero_iff_nil in HC. rewrite HC in Hin.
    by apply elem_of_nil in Hin.
  - intros V C W0 nc C' fc (Hinv & Hord & Hent & HVW & HCW & Hpend) Hpop Hfc.
    simpl in *.
    destruct (heap_Pop_inv _ _ _ Hpop) as [Hperm _].
    split.
    + intros Hlt. exfalso.
      assert (Hnc : nc ∈ Candidates W0).
      { apply HCW. rewrite <- Hperm. by left. }
      pose proof (big_root _ _ (ord_W _ _ _ Hord) (inv_W_Compare _ _ _ _ _ _ _ _ Hinv) Hnc)
        as Hb.
      simpl in Hb. rewrite (list_lookup_total_correct _ _ _ Hfc) in Hb. congruence.
    + intros _ nbrs Hnb. split; [by eapply visiting_start|].
      unfold roomInv. split_and!; simpl; try done.
      * intros c Hc'. apply HCW. rewrite <- Hperm. by right.
      * intros u Hu. destruct (Hpend u Hu) as [Hin|[?|?]]; [|auto|done].
        apply elem_of_ExtractHeapData in Hin as (c & Hin & <-).
        rewrite <- Hperm in Hin. apply elem_of_cons in Hin as [->|Hin]; [auto|].
        left. apply elem_of_ExtractHeapData. eauto.
  - intros nc fc nbrs st v st' [Hvg Hl] Hv Hvis. split.
    + by destruct (visiting_visit _ _ _ _ _ _ Hvg Hv Hvis).
    + by eapply visit_room.
  - intros nc fc nbrs [[V C] W0] [(Hinv & Hord & _ & Hnb) (Hent & HVW & HCW & Hpend)] Hall.
    simpl in *. unfold roomInv. simpl. split_and!; try done.
    intros u Hu. destruct (Hpend u Hu) as [?|[?|[= ->]]]; auto.
    right. left. by eapply expanded_done.
  - unfold roomInv. split_and!; simpl.
    + by apply SearchLayer_start.
    + by apply SearchLayer_start_ord.
    + set_solver.
    + intros u ->%elem_of_singleton. by apply list_elem_of_singleton.
    + done.
    + intros u ->%elem_of_singleton. left. by apply list_elem_of_singleton.
Qed.

End Room.

End SearchOrder.

(* ===================================================================== *)
(** * The search kernel *)
(* ===================================================================== *)

Lemma SearchLayer_first W h q entry ef lc :
  SearchLayer h q entry ef lc = Ok W →
  ∃ c, Candidates W !! 0%nat = Some c
       ∧ ExtractHeapData W !! 0%nat = Some (NodeID c).
Proof.
  intros (V & C & [Hne _ _ _ _ _ _ _])%SearchLayer_inv.
  destruct (Candidates W) as [|c cs] eqn:HW.
  { unfold Len in Hne. rewrite HW in Hne. simpl in Hne. lia. }
  exists c. unfold ExtractHeapData. by rewrite HW.
Qed.

(** C10. From an entry point that has a neighbour list at layer [lc], on a
    layer where the search can run to its end (the ends of the stored edges
    have neighbour lists there and the stored vectors are as long as the
    query), [SearchLayer] returns a heap that holds at least one candidate,
    whatever [ef] is: the reads [Candidates[0]] and [neighbors[0]] of its
    result in [Insert] and [KNNSearch] are in bounds. *)
Theorem SearchLayer_nonempty h q entry ef lc :
  searchable h q lc → present h lc entry →
  ∃ W c, SearchLayer h q entry ef lc = Ok W
         ∧ Candidates W !! 0%nat = Some c
         ∧ ExtractHeapData W !! 0%nat = Some (NodeID c).
Proof.
  intros Hs He. destruct (SearchLayer_Ok h q ef lc entry Hs He) as [W HW].
  destruct (SearchLayer_first _ _ _ _ _ _ HW) as (c & ? & ?). eauto.
Qed.

Lemma SearchLayer_nonempty_witness :
  ∃ W c, SearchLayer lineIndex (point 9 3%float) 1 1 0 = Ok W
         ∧ Candidates W !! 0%nat = Some c
         ∧ ExtractHeapData W !! 0%nat = Some (NodeID c).
Proof.
  apply (SearchLayer_nonempty lineIndex (point 9 3%float) 1 1 0).
  - apply searchableb_sound. vm_compute. exact I.
  - apply presentb_sound. vm_compute. exact I.
Defined.

(** C1, as the code has it. Under the same conditions [SearchLayer]
    returns between one and [max ef 1] candidates with distinct ids, each of
    them a point that a walk along the edges of the layer reaches from the
    entry point, paired with its distance to the query; and when [ef] is at
    least 2 and the entry point has a neighbour other than itself, the
    result holds at least two candidates, so it is not the entry point
    alone. When the distances to the query are numbers, the result is what
    a greedy walk finds: its nearest candidate is not farther from the
    query than the entry point and has no neighbour strictly nearer to the
    query than itself, so that the result is not the entry point alone
    when a neighbour of the entry point is strictly nearer to the query;
    and when the points that the entry point reaches are at most [ef], the
    result holds every one of them. Which of the other visited points fill the
    result when [ef] is at least 2 is not stated here. *)
Theorem SearchLayer_result h q entry ef lc :
  searchable h q lc → present h lc entry →
  ∃ W, SearchLayer h q entry ef lc = Ok W
       ∧ (1 ≤ Len W)%nat ∧ Z.of_nat (Len W) ≤ Z.max ef 1
       ∧ NoDup (ExtractHeapData W)
       ∧ (∀ c, c ∈ Candidates W →
            reachable h lc entry (NodeID c) ∧ tagged h q c)
       ∧ (2 ≤ ef → (∃ v, edge h lc entry v ∧ v ≠ entry) → (2 ≤ Len W)%nat)
       ∧ (comparable h q lc →
            (∃ b, b ∈ Candidates W
                  ∧ (∀ c, c ∈ Candidates W →
                       ¬ closer h q (NodeID c) (NodeID b))
                  ∧ ¬ closer h q entry (NodeID b)
                  ∧ ∀ v, edge h lc (NodeID b) v → ¬ closer h q v (NodeID b))
            ∧ (∀ v, edge h lc entry v → closer h q v entry →
                 ExtractHeapData W ≠ [entry])
            ∧ (∀ pts, (∀ v, reachable h lc entry v → v ∈ pts) →
                 Z.of_nat (length pts) ≤ ef →
                 ∀ v, reachable h lc entry v → v ∈ ExtractHeapData W)).
Proof.
  intros Hs He. destruct (SearchLayer_Ok h q ef lc entry Hs He) as [W HW].
  exists W. split; [done|].
  destruct (SearchLayer_inv _ _ _ _ _ _ HW) as (V & C & [? ? ? HWv HWt HVr ? ?]).
  split_and!; auto.
  { intros Hef (v & Hv & Hne). by eapply SearchLayer_two. }
  intros Hc.
  assert (Hgreedy : ∃ b, b ∈ Candidates W
            ∧ (∀ c, c ∈ Candidates W → ¬ closer h q (NodeID c) (NodeID b))
            ∧ ¬ closer h q entry (NodeID b)
            ∧ ∀ v, edge h lc (NodeID b) v → ¬ closer h q v (NodeID b)); cycle 1.
  { split; [exact Hgreedy|]. split.
    - destruct Hgreedy as (b & Hb & _ & _ & Hloc). intros v Hev Hcl HW1.
      assert (NodeID b = entry) as Hbe.
      { apply list_elem_of_singleton. rewrite <- HW1.
        apply list_elem_of_fmap. eauto. }
      apply (Hloc v); by rewrite Hbe.
    - intros pts Hpts Hroom v Hv.
      by eapply (SearchLayer_room h q ef lc entry Hs He Hc pts Hpts Hroom). }
  - destruct (SearchLayer_greedy h q ef lc entry Hs He Hc W HW)
      as (b & Hb & Hmin & Hnear).
    pose proof (HWt b Hb) as Htb. unfold tagged in Htb.
    exists b. split_and!; [done| | |].
    + intros c Hc' (da & db & Ha & Hdb & Hab). rewrite (HWt c Hc') in Ha.
      rewrite Htb in Hdb. injection Ha as <-. injection Hdb as <-.
      by rewrite (Hmin c Hc') in Hab.
    + intros (da & db & Ha & Hdb & Hab). rewrite Htb in Hdb. injection Hdb as <-.
      rewrite (Hnear entry da) in Hab; auto. done.
    + intros v Hev (da & db & Ha & Hdb & Hab). rewrite Htb in Hdb.
      injection Hdb as <-. rewrite (Hnear v da) in Hab; auto. done.
Qed.

Lemma SearchLayer_result_witness :
  comparable lineIndex (point 9 3%float) 0
  ∧ ∃ W, SearchLayer lineIndex (point 9 3%float) 1 3 0 = Ok W
       ∧ (1 ≤ Len W)%nat ∧ Z.of_nat (Len W) ≤ Z.max 3 1
       ∧ NoDup (ExtractHeapData W)
       ∧ (∀ c, c ∈ Candidates W →
            reachable lineIndex 0 1 (NodeID c)
            ∧ tagged lineIndex (point 9 3%float) c)
       ∧ (2 ≤ 3 → (∃ v, edge lineIndex 0 1 v ∧ v ≠ 1) → (2 ≤ Len W)%nat)
       ∧ (comparable lineIndex (point 9 3%float) 0 →
            (∃ b, b ∈ Candidates W
                  ∧ (∀ c, c ∈ Candidates W →
                       ¬ closer lineIndex (point 9 3%float) (NodeID c) (NodeID b))
                  ∧ ¬ closer lineIndex (point 9 3%float) 1 (NodeID b)
                  ∧ ∀ v, edge lineIndex 0 (NodeID b) v →
                      ¬ closer lineIndex (point 9 3%float) v (NodeID b))
            ∧ (∀ v, edge lineIndex 0 1 v →
                 closer lineIndex (point 9 3%float) v 1 →
                 ExtractHeapData W ≠ [1])
            ∧ (∀ pts, (∀ v, reachable lineIndex 0 1 v → v ∈ pts) →
                 Z.of_nat (length pts) ≤ 3 →
                 ∀ v, reachable lineIndex 0 1 v → v ∈ ExtractHeapData W)).
Proof.
  split.
  - apply comparableb_sound. vm_compute. exact I.
  - apply (SearchLayer_result lineIndex (point 9 3%float) 1 3 0).
    + apply searchableb_sound. vm_compute. exact I.
    + apply presentb_sound. vm_compute. exact I.
Defined.

(** C1, as stated, fails. On the line 0 - 8 - 5 (the edges are 1 - 2 and
    2 - 3) with the query at 3, the search from point 1 with [ef = 1] looks
    at point 2, which is farther than point 1, and stops: it returns point 1
    alone, although point 3 is reachable and nearer. *)
Lemma SearchLayer_misses_closer :
  ¬ (∀ W v, SearchLayer lineIndex (point 9 3%float) 1 1 0 = Ok W →
            reachable lineIndex 0 1 v →
            closer lineIndex (point 9 3%float) v 1 →
            ExtractHeapData W ≠ [1]).
Proof.
  intros Hclaim.
  apply (Hclaim (mkHeap [mkCandidate 1 3%float] "big") 3).
  - vm_compute. reflexivity.
  - apply (reach_edge _ _ _ 2); [apply (reach_edge _ _ _ 1); [constructor|]|];
      apply edgeb_spec; vm_compute; exact I.
  - exists 2%float, 3%float. split_and!; vm_compute; reflexivity.
  - reflexivity.
Qed.

(** With [ef = 2] the farthest candidate that a neighbour is compared with
    is the one read before the neighbours of the current candidate are
    visited. On the line 0 - 8 - 5 with the query at 9, the search from
    point 2 reads the distance 1 of point 2, admits point 1 at distance 9
    since the result has room, and then turns down point 3 at distance 4,
    which is not below 1, although the farthest candidate is by then at
    distance 9: the result is points 1 and 2, and point 3, visited and
    nearer than point 1, is not in it. *)
Lemma SearchLayer_keeps_farther_of_two_visited :
  (W ← SearchLayer lineIndex (point 9 9%float) 2 2 0; Ok (Candidates W))
  = Ok [mkCandidate 1 9%float; mkCandidate 2 1%float]
  ∧ edge lineIndex 0 2 3
  ∧ Distance (point 9 9%float) (elementOf lineIndex 3) = Ok 4%float.
Proof.
  split_and!; [vm_compute; reflexivity| |vm_compute; reflexivity].
  apply edgeb_spec. vm_compute. exact I.
Qed.

(* ===================================================================== *)
(** * The query driver *)
(* ===================================================================== *)

(** C2. On an index that holds the single point 7, the query for one
    neighbour returns [[0]]: the loop of [topValue] that fills the result
    runs while [j > 0], so cell 0 keeps the [0] that [make] put there. The
    point that was found, 7, is not returned. *)
Theorem KNNSearch_single_point :
  KNNSearch singleIndex (point 9 1%float) 1 = Ok [0]
  ∧ (W ← SearchLayer singleIndex (point 9 1%float) 7 1 0;
     Ok (ExtractHeapData W)) = Ok [7].
Proof. split; vm_compute; reflexivity. Qed.

(** C6, as stated, fails: on the index that [NewHNSW] returns the query
    does not yield the empty result. *)
Lemma KNNSearch_empty_index_no_result :
  KNNSearch smallIndex (point 9 0%float) 3 ≠ Ok [].
Proof. vm_compute. discriminate. Qed.

(** C6, as the code has it. [KNNSearch] does not test whether the index is
    empty: on the index that [NewHNSW] returns, whatever the parameters,
    the query and [K], it stops with a run-time panic (an index out of
    range). It reads the index and never writes to it, so the index is as it
    was. *)
Theorem KNNSearch_empty_index_panics efConstruction M maxLayers nm q K :
  KNNSearch (NewHNSW efConstruction M maxLayers nm) q K = Panic.
Proof. apply KNNSearch_NewHNSW. Qed.

(* ===================================================================== *)
(** * The neighbour-selection heuristic *)
(* ===================================================================== *)

(** C9. When every distance over the pool is defined and, if the candidates
    are to be extended, every candidate has a neighbour list at the layer,
    [SelectNeighborsHeuristic] returns a slice without duplicates, of at most
    [M] ids, each a candidate or a neighbour at the layer of a candidate.
    This holds for every order in which [range] may yield the keys of [R],
    and for both values of each flag. *)
Theorem SelectNeighborsHeuristic_result rangeOrder h q candidates M layer
    extendCandidates keepPrunedConnections :
  (∀ keys, rangeOrder keys ≡ₚ keys) → 0 ≤ M →
  measurable h q (pool h layer candidates) →
  (extendCandidates = true → ∀ c, c ∈ candidates → present h layer c) →
  ∃ R, SelectNeighborsHeuristic rangeOrder h q candidates M layer
         extendCandidates keepPrunedConnections = Ok R
       ∧ NoDup R ∧ Z.of_nat (length R) ≤ M
       ∧ ∀ r, r ∈ R → pool h layer candidates r.
Proof.
  intros Hperm HM Hmeas Hpres.
  destruct (SelectNeighborsHeuristic_Ok rangeOrder h q layer candidates M
              extendCandidates keepPrunedConnections Hperm Hmeas Hpres)
    as [R HR].
  exists R. split; [done|]. by eapply SelectNeighborsHeuristic_inv.
Qed.

Lemma SelectNeighborsHeuristic_result_witness :
  ∃ R, SelectNeighborsHeuristic idOrder lineIndex (point 9 3%float) [1; 2] 1 0
         true true = Ok R
       ∧ NoDup R ∧ Z.of_nat (length R) ≤ 1
       ∧ ∀ r, r ∈ R → pool lineIndex 0 [1; 2] r.
Proof.
  apply (SelectNeighborsHeuristic_result idOrder lineIndex (point 9 3%float)
           [1; 2] 1 0 true true).
  - intros keys. reflexivity.
  - lia.
  - apply measurableb_sound. vm_compute. exact I.
  - intros _ c Hc. apply presentb_sound.
    apply elem_of_cons in Hc as [->|Hc]; [vm_compute; exact I|].
    apply list_elem_of_singleton in Hc as ->. vm_compute. exact I.
Defined.

(* ===================================================================== *)
(** * The insertion driver *)
(* ===================================================================== *)

Lemma wrap64_small z : - 2 ^ 63 ≤ z < 2 ^ 63 → wrap64 z = z.
Proof. intros Hz. unfold wrap64. rewrite Z.mod_small; lia. Qed.

(** C3, as stated, fails. With [M = 1] and three points all drawn at level
    1, point 2 has two neighbours at layer 1: more than [M]. *)
Lemma upper_layer_exceeds_M :
  ¬ (∀ lc id ch, 0 < lc → layerHeap towerIndex lc id = Ok ch →
                 Z.of_nat (Len ch) ≤ M towerIndex).
Proof.
  intros Hclaim.
  specialize (Hclaim 1 2
    (mkHeap [mkCandidate 1 1%float; mkCandidate 3 1%float] "big")).
  vm_compute in Hclaim. by apply Hclaim.
Qed.

(** C3, as the code has it. After every run of insertions into a new index
    with [0 <= M < 2^62], every neighbour list, at layer 0 and at the layers
    above alike, has at most [2 * M] entries: [addConnection] compares the
    length with [maxConnections = 2 * M] and knows no other cap. *)
Theorem InsertAll_degree_bound rangeOrder efConstruction M maxLayers nm
    ops h lc id ch :
  0 ≤ M < 2 ^ 62 →
  InsertAll rangeOrder (NewHNSW efConstruction M maxLayers nm) ops = Ok h →
  layerHeap h lc id = Ok ch →
  Z.of_nat (Len ch) ≤ 2 * M.
Proof.
  intros HM Hbuild Hch.
  assert (Hcap : maxConnections (NewHNSW efConstruction M maxLayers nm) = 2 * M).
  { simpl. apply wrap64_small. lia. }
  assert (Hnew : degreeBounded (2 * M)
                   (NewHNSW efConstruction M maxLayers nm)).
  { intros lc' id' ch' (layer & [_ Hl]%index_Some & _)%layerHeap_Ok.
    simpl in Hl. by rewrite lookup_nil in Hl. }
  destruct (InsertAll_degree rangeOrder (2 * M) _ _ _
              ltac:(rewrite Hcap; lia) Hnew Hbuild) as [Hdeg _].
  by eapply Hdeg.
Qed.

Lemma InsertAll_degree_bound_witness :
  Z.of_nat
    (Len (mkHeap [mkCandidate 1 1%float; mkCandidate 3 1%float] "big"))
  ≤ 2 * 1.
Proof.
  apply (InsertAll_degree_bound idOrder 10 1 5 1%float
           [(1, point 1 0%float); (1, point 2 1%float); (1, point 3 2%float)]
           towerIndex 1 2).
  - lia.
  - vm_compute. reflexivity.
  - vm_compute. reflexivity.
Defined.

(** C5. On the index with the points 1 at 0 and 2 at 10, the turn of the
    connect loop for the new point 3 at 11, entered with [ep = 2], finds
    the candidates 1 (at distance 11) and 2 (at distance 1) and leaves
    [ep = 1] for the next layer: [neighbors[0]] is the root of the heap
    [W], which orders by greatest distance, so it is the farthest candidate
    and not the nearest. *)
Theorem connectLayer_next_entry_is_farthest :
  (r ← connectLayer idOrder (setElement pairIndex (point 3 11%float))
         (point 3 11%float) 0 2;
   Ok r.2) = Ok 1
  ∧ SearchLayer
      (storeHeap (setElement pairIndex (point 3 11%float)) 0 3
         (heap_Init (mkHeap [] "big")))
      (point 3 11%float) 2 10 0
    = Ok (mkHeap [mkCandidate 1 11%float; mkCandidate 2 1%float] "big").
Proof. split; vm_compute; reflexivity. Qed.

(** C7, as stated, fails. Inserting a second element under the id 1 does
    not fail, and the index is not as it was. *)
Lemma Insert_duplicate_changes_index :
  ∃ h', Insert idOrder 0 (point 1 100%float) lineIndex = Ok h'
        ∧ h' ≠ lineIndex.
Proof.
  destruct (Insert idOrder 0 (point 1 100%float) lineIndex) as [h'| |] eqn:Hins;
    [|by vm_compute in Hins..].
  exists h'. split; [done|]. intros ->.
  apply Insert_config in Hins as [Hel _].
  apply (f_equal (fun m => m !! 1)) in Hel. by vm_compute in Hel.
Qed.

(** C7, as the code has it. [Insert] tests neither the id nor the length of
    the vector, and it has no error to return: whenever it returns, the
    element is stored under its id, in place of the one that was there if
    the id was present, and [M], [maxConnections], [EfConstruction] and
    [MaxLayers] are as they were. *)
Theorem Insert_stores_element rangeOrder drawn q h h' :
  Insert rangeOrder drawn q h = Ok h' →
  Elements h' = <[ID q := q]> (Elements h) ∧ M h' = M h
  ∧ maxConnections h' = maxConnections h
  ∧ EfConstruction h' = EfConstruction h ∧ MaxLayers h' = MaxLayers h.
Proof. apply Insert_config. Qed.

Lemma Insert_stores_element_witness :
  let h' := fromOk smallIndex (Insert idOrder 0 (point 1 100%float) lineIndex) in
  Elements h' = <[1 := point 1 100%float]> (Elements lineIndex)
  ∧ M h' = M lineIndex ∧ maxConnections h' = maxConnections lineIndex
  ∧ EfConstruction h' = EfConstruction lineIndex
  ∧ MaxLayers h' = MaxLayers lineIndex.
Proof.
  apply (Insert_stores_element idOrder 0 (point 1 100%float) lineIndex).
  vm_compute. reflexivity.
Defined.

(** C8, as stated, fails. The constructor takes no seed; and with the same
    parameters, the same elements in the same order and the same levels
    drawn for them, two builds answer the same query differently when
    [range] yields the two keys of [R] in one order in the first and in the
    other order in the second: point 4 gets its neighbours 2 and 3, both at
    distance 3 from it, in one order or the other, and the query for the two
    points nearest to 3 finds the points 1 and 4 in one index and the points
    2 and 4 in the other. *)
Lemma knn_depends_on_range_order :
  (h ← InsertAll idOrder widerIndex spreadOps; KNNSearch h (point 9 3%float) 2)
  ≠ (h ← InsertAll backOrder widerIndex spreadOps;
     KNNSearch h (point 9 3%float) 2)
  ∧ (h ← InsertAll idOrder widerIndex spreadOps;
     KNNSearch h (point 9 3%float) 2) = Ok [0; 1]
  ∧ (h ← InsertAll backOrder widerIndex spreadOps;
     KNNSearch h (point 9 3%float) 2) = Ok [0; 2]
  ∧ (h ← InsertAll idOrder widerIndex spreadOps;
     W ← SearchLayer h (point 9 3%float) (EnterPoint h) 2 0;
     Ok (ExtractHeapData W)) = Ok [1; 4]
  ∧ (h ← InsertAll backOrder widerIndex spreadOps;
     W ← SearchLayer h (point 9 3%float) (EnterPoint h) 2 0;
     Ok (ExtractHeapData W)) = Ok [2; 4].
Proof. split_and!; [|vm_compute; reflexivity..]. vm_compute. by intros [=]. Qed.

(** C8, as the code has it. The constructor takes no seed and
    [generateLevel] reads the process-wide source of [math/rand]; the order
    of [range] over the map [R] is a second thing that a build takes from
    outside. [R] never holds more than [M] keys: two builds from the same
    index with the same insertions and the same levels drawn give every
    query the same outcome as soon as [range] yields the keys in the same
    order in both on the sets of at most [M] keys, whatever it does on
    larger ones. With [M] at most 1 any two orders do. *)
Theorem knn_same_answers_on_small_ranges rangeOrder1 rangeOrder2 h ops q K :
  (∀ keys, Z.of_nat (length keys) ≤ Z.max (M h) 0 →
           rangeOrder1 keys = rangeOrder2 keys) →
  (h' ← InsertAll rangeOrder1 h ops; KNNSearch h' q K)
  = (h' ← InsertAll rangeOrder2 h ops; KNNSearch h' q K).
Proof.
  intros Hsame. by rewrite (InsertAll_small _ _ (M h) Hsame ops h).
Qed.

Lemma knn_same_answers_on_small_ranges_witness :
  (∀ keys, Z.of_nat (length keys) ≤ Z.max (M smallIndex) 0 →
           idOrder keys = backOrder keys)
  ∧ (h' ← InsertAll idOrder smallIndex lineOps; KNNSearch h' (point 9 9%float) 2)
    = (h' ← InsertAll backOrder smallIndex lineOps;
       KNNSearch h' (point 9 9%float) 2).
Proof.
  assert (Hsmall : ∀ keys, Z.of_nat (length keys) ≤ Z.max (M smallIndex) 0 →
                           idOrder keys = backOrder keys).
  { intros [|k [|k' keys]]; simpl; [done|done|lia]. }
  split; [exact Hsmall|].
  apply (knn_same_answers_on_small_ranges idOrder backOrder smallIndex lineOps).
  exact Hsmall.
Defined.

(** The levels drawn are the other thing that a build takes from outside:
    with the same elements in the same order and one order of [range],
    drawing level 1 instead of level 0 for the second element changes the
    answer to a query. *)
Lemma knn_depends_on_drawn_levels :
  lineOps.*2 = liftedOps.*2
  ∧ (h ← InsertAll idOrder smallIndex lineOps;
     KNNSearch h (point 9 9%float) 2) = Ok [0; 3]
  ∧ (h ← InsertAll idOrder smallIndex liftedOps;
     KNNSearch h (point 9 9%float) 2) = Ok [0; 1].
Proof. split_and!; vm_compute; reflexivity. Qed.

(** The example indexes are what the insertions return. *)
Lemma examples_are_built :
  InsertAll idOrder smallIndex [(0, point 7 0%float)] = Ok singleIndex
  ∧ InsertAll idOrder smallIndex
      [(0, point 1 0%float); (0, point 2 10%float)] = Ok pairIndex
  ∧ InsertAll idOrder smallIndex lineOps = Ok lineIndex
  ∧ InsertAll idOrder smallIndex
      [(1, point 1 0%float); (1, point 2 1%float); (1, point 3 2%float)]
    = Ok towerIndex
  ∧ InsertAll idOrder smallIndex
      [(0, point 1 0%float); (0, point 2 10%float); (0, point 3 11%float);
       (0, point 4 10.25%float)] = Ok crowdedIndex.
Proof. split_and!; vm_compute; reflexivity. Qed.

(** C4, as stated, fails. After the insertions of the points 0, 10, 11 and
    10.25 with [M = 1], the list of point 2 was full when point 4 arrived:
    [addConnection] replaced its farthest neighbour, point 1, by point 4.
    The edge 1 -> 2 is stored and the edge 2 -> 1 is not. *)
Lemma crowded_index_not_symmetric :
  edge crowdedIndex 0 1 2 ∧ ¬ edge crowdedIndex 0 2 1.
Proof.
  rewrite !edgeb_spec. split; [vm_compute; exact I|].
  vm_compute. by intros [].
Qed.

(** C4, as the code has it. [addConnection] stores an edge only while the
    list has fewer than [maxConnections = 2 * M] entries; on a full list it
    drops the new edge or replaces the farthest neighbour, and the reverse
    edge of what it drops stays. So: when the adjacency is symmetric, every
    neighbour list has room for one more entry and the id is new, the
    adjacency is symmetric again when [Insert] returns. *)
Theorem Insert_keeps_symmetry rangeOrder drawn q h h' :
  (∀ keys, rangeOrder keys ≡ₚ keys) →
  0 ≤ M h → maxConnections h = 2 * M h →
  symmetric h → roomy h → fresh h (ID q) →
  Insert rangeOrder drawn q h = Ok h' →
  symmetric h'.
Proof. intros Hperm. by apply Insert_symmetric. Qed.

Lemma Insert_keeps_symmetry_witness :
  symmetric (fromOk smallIndex (Insert idOrder 0 (point 3 11%float) pairIndex)).
Proof.
  apply (Insert_keeps_symmetry idOrder 0 (point 3 11%float) pairIndex).
  - intros keys. reflexivity.
  - vm_compute. discriminate.
  - vm_compute. reflexivity.
  - apply symmetricb_sound. vm_compute. exact I.
  - apply roomyb_sound. vm_compute. exact I.
  - apply freshb_sound. vm_compute. exact I.
  - vm_compute. reflexivity.
Defined.

(* ===================================================================== *)
(** * Further properties of the code *)
(* ===================================================================== *)

(** ** Auxiliary facts *)

Lemma exec_cases {A} (e : exec A) :
  e ≠ OutOfFuel → (∃ a, e = Ok a) ∨ e = Panic.
Proof. destruct e; [eauto|by right|done]. Qed.

Lemma Distance_cases e1 e2 :
  (∃ d, Distance e1 e2 = Ok d) ∨ Distance e1 e2 = Panic.
Proof. apply exec_cases, Distance_fuel. Qed.

Lemma Distance_Panic e1 e2 :
  (length (Embeddings e2) < length (Embeddings e1))%nat →
  Distance e1 e2 = Panic.
Proof.
  intros Hlt.
  assert (Hp : ∀ xs ys sum, (length ys < length xs)%nat →
            sumSquares sum xs ys = Panic).
  { induction xs as [|x xs IH]; intros ys sum Hl; simpl in *; [lia|].
    destruct ys as [|y ys]; [done|]. apply IH. simpl in Hl. lia. }
  unfold Distance. by rewrite Hp.
Qed.

Lemma level_min (drawn maxLayers : Z) :
  (if bool_decide (drawn > maxLayers) then maxLayers else drawn)
  = Z.min drawn maxLayers.
Proof. case_bool_decide; lia. Qed.

Lemma presentb_spec h lc id : present h lc id ↔ presentb h lc id.
Proof.
  split; [|apply presentb_sound].
  intros (layer & Hl & Hid). unfold presentb. rewrite Hl.
  by apply bool_decide_pack.
Qed.

Lemma layerHeap_absent h lc id : ¬ present h lc id → layerHeap h lc id = Panic.
Proof.
  intros Hnp. destruct (layerHeap h lc id) as [ch| |] eqn:Hch; [|done|].
  - destruct Hnp. apply layerHeap_present. eauto.
  - by apply layerHeap_fuel in Hch.
Qed.

Lemma heap_Pop_ids ch item ch' :
  heap_Pop ch = Ok (item, ch') →
  ExtractHeapData ch ≡ₚ NodeID item :: ExtractHeapData ch'.
Proof.
  intros [Hp _]%heap_Pop_inv. unfold ExtractHeapData. by rewrite <- Hp.
Qed.

Lemma idSet_Push ch c : idSet (heap_Push ch c) = {[NodeID c]} ∪ idSet ch.
Proof.
  unfold idSet, ExtractHeapData. apply set_eq. intros x.
  rewrite elem_of_union, elem_of_singleton, !elem_of_list_to_set.
  rewrite heap_Push_perm, fmap_cons, elem_of_cons. tauto.
Qed.

Lemma idSet_Pop ch item ch' :
  heap_Pop ch = Ok (item, ch') → idSet ch = {[NodeID item]} ∪ idSet ch'.
Proof.
  intros Hp%heap_Pop_ids. unfold idSet. apply set_eq. intros x.
  rewrite elem_of_union, elem_of_singleton, !elem_of_list_to_set.
  rewrite Hp, elem_of_cons. tauto.
Qed.

Lemma idSet_nil ch : Len ch = 0%nat → idSet ch = ∅.
Proof.
  unfold idSet, ExtractHeapData, Len. by destruct (Candidates ch).
Qed.

(** ** The candidate heaps *)

(** X1. [heap.Push] on a [CandidateHeap] loses nothing and invents nothing:
    the candidates afterwards are those before and the pushed one, each as
    often as before, the length grows by one and [Compare] is unchanged. *)
Theorem heap_Push_keeps_candidates ch x :
  Candidates (heap_Push ch x) ≡ₚ x :: Candidates ch
  ∧ Len (heap_Push ch x) = S (Len ch)
  ∧ Compare (heap_Push ch x) = Compare ch.
Proof.
  split_and!; [apply heap_Push_perm|apply heap_Push_Len|apply heap_Push_Compare].
Qed.

(** X2. [heap.Pop] on a [CandidateHeap] panics exactly when the heap is
    empty; otherwise it returns one of the candidates and leaves the others,
    each as often as before, with [Compare] unchanged. *)
Theorem heap_Pop_outcome ch :
  match heap_Pop ch with
  | Ok (item, ch') =>
      item :: Candidates ch' ≡ₚ Candidates ch ∧ Compare ch' = Compare ch
  | Panic => Candidates ch = []
  | OutOfFuel => False
  end.
Proof.
  destruct (heap_Pop ch) as [[item ch']| |] eqn:Hpop.
  - by apply heap_Pop_inv.
  - destruct (decide (Len ch = 0%nat)) as [Hz|Hnz].
    + by apply length_zero_iff_nil.
    + destruct (heap_Pop_Ok ch Hnz) as (? & ? & ?). congruence.
  - by eapply heap_Pop_fuel.
Qed.

(** *** topValue, when the order asked for is the order of the heap *)

Lemma Pop_snoc l x compare :
  Pop (mkHeap (l ++ [x]) compare) = Ok (x, mkHeap l compare).
Proof.
  unfold Pop. cbn [Candidates Compare]. rewrite last_snoc. cbn.
  by rewrite removelast_last.
Qed.

Lemma topSame_spec count : ∀ i l compare res,
  (count ≤ length l)%nat → (i + count ≤ length res)%nat →
  topSame count i (mkHeap l compare) res
  = Ok (take i res ++ take count (reverse (NodeID <$> l))
          ++ drop (i + count) res,
        mkHeap (take (length l - count) l) compare).
Proof.
  induction count as [|count IH]; intros i l compare res Hc Hi.
  - cbn [topSame]. rewrite Nat.add_0_r, Nat.sub_0_r, firstn_all.
    change (take 0 (reverse (NodeID <$> l))) with (@nil Z).
    by rewrite app_nil_l, take_drop.
  - destruct l as [|x0 l0] using rev_ind; [simpl in Hc; lia|].
    clear IHl0. rename l0 into l. rename x0 into x.
    rewrite length_app in Hc. simpl in Hc.
    cbn [topSame]. rewrite Pop_snoc, Ok_bind.
    rewrite IH by (rewrite ?length_insert; lia).
    rewrite (take_S_r _ i (NodeID x)) by (apply list_lookup_insert_eq; lia).
    rewrite take_insert_ge by lia. rewrite drop_insert_lt by lia.
    rewrite fmap_app, reverse_app. cbn [fmap list_fmap reverse app].
    rewrite reverse_singleton. cbn [app take].
    rewrite <- app_assoc. cbn [app].
    replace (i + S count)%nat with (S i + count)%nat by lia.
    do 3 f_equal. rewrite length_app. cbn [length].
    replace (length l + 1 - S count)%nat with (length l - count)%nat by lia.
    by rewrite take_app_le by lia.
Qed.

Lemma topSame_short count : ∀ i ch res,
  (Len ch < count)%nat → topSame count i ch res = Panic.
Proof.
  induction count as [|count IH]; intros i [l compare] res Hc; [lia|].
  unfold Len in Hc. cbn [Candidates] in Hc.
  destruct l as [|x0 l0] using rev_ind; [done|].
  clear IHl0. rewrite length_app in Hc. simpl in Hc.
  cbn [topSame]. rewrite Pop_snoc, Ok_bind. apply IH.
  unfold Len. cbn. lia.
Qed.

(** X17. When [topValue] is asked for the order in which the heap is kept
    ([TopKmaxVal] on a ["big"] heap, [TopKMinVal] on a ["small"] one), it
    takes the method [Pop], not [heap.Pop]: the result is the last [K] cells
    of the backing slice, last cell first, whatever their distances; the
    heap keeps the cells before them. It panics when [K] exceeds the
    length. *)
Theorem topValue_same_order K ch :
  0 ≤ K →
  topValue K (Compare ch) ch
  = if bool_decide (K ≤ Z.of_nat (Len ch)) then
      Ok (take (Z.to_nat K) (reverse (ExtractHeapData ch)),
          mkHeap (take (Len ch - Z.to_nat K) (Candidates ch)) (Compare ch))
    else Panic.
Proof.
  intros HK. unfold topValue.
  rewrite bool_decide_eq_false_2 by lia. rewrite String.eqb_refl.
  destruct ch as [l compare]. unfold Len, ExtractHeapData.
  cbn [Candidates Compare]. case_bool_decide as Hle.
  - rewrite topSame_spec by (rewrite ?length_replicate; lia).
    cbn [take app]. rewrite drop_ge by (rewrite length_replicate; lia).
    by rewrite app_nil_r.
  - apply topSame_short. unfold Len. cbn. lia.
Qed.

Lemma topValue_same_order_witness :
  TopKmaxVal 2 (mkHeap [mkCandidate 1 9%float; mkCandidate 2 5%float;
                        mkCandidate 3 7%float] "big")
  = Ok ([3; 2], mkHeap [mkCandidate 1 9%float] "big").
Proof.
  apply (topValue_same_order 2
           (mkHeap [mkCandidate 1 9%float; mkCandidate 2 5%float;
                    mkCandidate 3 7%float] "big")).
  lia.
Defined.

(** *** topValue, when the other order is asked for *)

Lemma topFill_spec j : ∀ ch res,
  (j ≤ Len ch)%nat → (j = 0 ∨ j < length res)%nat →
  ∃ kept ch',
    topFill j ch res = Ok (take 1 res ++ kept ++ drop (S j) res, ch')
    ∧ length kept = j
    ∧ ExtractHeapData ch ≡ₚ kept ++ ExtractHeapData ch'
    ∧ Compare ch' = Compare ch.
Proof.
  induction j as [|j IH]; intros ch res Hj Hres.
  - exists [], ch. cbn [topFill app]. by rewrite take_drop.
  - destruct Hres as [|Hres]; [lia|].
    destruct (heap_Pop_Ok ch) as (item & ch1 & Hpop); [lia|].
    pose proof (heap_Pop_Len _ _ _ Hpop) as Hlen.
    pose proof (heap_Pop_ids _ _ _ Hpop) as Hids.
    apply heap_Pop_inv in Hpop as Hinv. destruct Hinv as [_ Hcmp].
    destruct (IH ch1 (<[S j := NodeID item]> res))
      as (kept & ch' & Hfill & Hk & Hperm & Hcmp');
      [lia|rewrite length_insert; lia|].
    exists (kept ++ [NodeID item]), ch'. cbn [topFill].
    rewrite Hpop, Ok_bind, Hfill. split_and!.
    + do 2 f_equal. rewrite take_insert_ge by lia.
      rewrite <- !app_assoc. do 2 f_equal.
      rewrite (insert_take_drop res (S j)) by lia.
      rewrite drop_app_length' by (rewrite length_take; lia). done.
    + rewrite length_app. simpl. lia.
    + rewrite Hids, Hperm. rewrite <- app_assoc. cbn [app].
      by rewrite Permutation_middle.
    + congruence.
Qed.

(** The loop [for j := 0; j < ch.Len() - K; j++ { heap.Pop(ch) }] reads its
    bound again at every turn: [j] grows while the length shrinks, so it
    stops half-way. *)
Lemma topDrop_spec K turns : ∀ j ch,
  0 ≤ j → 0 ≤ K → (Len ch ≤ turns)%nat →
  ∃ dropped ch',
    topDrop turns j K ch = Ok ch'
    ∧ ExtractHeapData ch ≡ₚ dropped ++ ExtractHeapData ch'
    ∧ Z.of_nat (length dropped)
      = Z.max 0 ((Z.of_nat (Len ch) - K - j + 1) / 2)
    ∧ Compare ch' = Compare ch.
Proof.
  induction turns as [|turns IH]; intros j ch Hj HK Hlen.
  - exists [], ch. cbn [topDrop app length]. split_and!; [done..| |done].
    assert ((Z.of_nat (Len ch) - K - j + 1) / 2 < 1); [|lia].
    apply Z.div_lt_upper_bound; lia.
  - cbn [topDrop]. case_bool_decide as Hlt.
    + destruct (heap_Pop_Ok ch) as (item & ch1 & Hpop); [lia|].
      pose proof (heap_Pop_Len _ _ _ Hpop) as Hlen1.
      pose proof (heap_Pop_ids _ _ _ Hpop) as Hids.
      apply heap_Pop_inv in Hpop as Hinv. destruct Hinv as [_ Hcmp].
      destruct (IH (j + 1) ch1) as (dropped & ch' & Hdrop & Hperm & Hd & Hcmp');
        [lia..|].
      exists (NodeID item :: dropped), ch'. rewrite Hpop, Ok_bind.
      split_and!; [done| |..].
      * by rewrite Hids, Hperm.
      * cbn [length]. rewrite Nat2Z.inj_succ, Hd, Hlen1, Nat2Z.inj_succ.
        set (n := Z.of_nat (Len ch1)) in *.
        replace (Z.succ n - K - j + 1) with ((n - K - (j + 1) + 1) + 1 * 2)
          by lia.
        rewrite Z.div_add by lia.
        assert (0 ≤ (n - K - (j + 1) + 1) / 2); [|lia].
        apply Z.div_pos; lia.
      * congruence.
    + exists [], ch. cbn [app length]. split_and!; [done..| |done].
      assert ((Z.of_nat (Len ch) - K - j + 1) / 2 < 1); [|lia].
      apply Z.div_lt_upper_bound; lia.
Qed.

Lemma TopKMinVal_big_spec K ch :
  Compare ch = BIG → 1 ≤ K →
  ∃ dropped kept ch',
    TopKMinVal K ch
    = Ok (0 :: kept ++ replicate (Z.to_nat K - 1 - length kept) 0, ch')
    ∧ ExtractHeapData ch ≡ₚ dropped ++ kept ++ ExtractHeapData ch'
    ∧ length kept = (Z.to_nat K `min` Len ch - 1)%nat
    ∧ Z.of_nat (length dropped)
      = Z.max 0 ((Z.of_nat (Len ch) - K + 1) / 2).
Proof.
  intros Hcmp HK. unfold TopKMinVal, topValue. rewrite Hcmp.
  rewrite bool_decide_eq_false_2 by lia.
  change (String.eqb SMALL BIG) with false. cbv iota.
  destruct (decide (K < Z.of_nat (Len ch))) as [Hlt|Hge].
  - rewrite (bool_decide_eq_true_2 (K < Z.of_nat (Len ch))) by done.
    destruct (topDrop_spec K (Len ch) 0 ch)
      as (dropped & ch1 & -> & Hperm & Hd & _); [lia..|].
    rewrite Ok_bind.
    rewrite (bool_decide_eq_false_2 (K > Z.of_nat (Len ch))) by lia.
    rewrite Z.sub_0_r in Hd.
    assert (Hlen1 : (Z.to_nat K ≤ Len ch1)%nat).
    { apply Permutation_length in Hperm as Hl.
      rewrite length_app in Hl. unfold ExtractHeapData in Hl.
      rewrite !length_fmap in Hl. fold (Len ch) in Hl. fold (Len ch1) in Hl.
      assert ((Z.of_nat (Len ch) - K + 1) / 2 ≤ Z.of_nat (Len ch) - K); [|lia].
      apply Z.div_le_upper_bound; lia. }
    destruct (topFill_spec (Z.to_nat (K - 1)) ch1 (replicate (Z.to_nat K) 0))
      as (kept & ch' & -> & Hk & Hperm' & _);
      [lia|rewrite length_replicate; lia|].
    exists dropped, kept, ch'. split_and!.
    + do 2 f_equal. rewrite drop_replicate.
      replace (take 1 (replicate (Z.to_nat K) 0)) with [0]
        by (destruct (Z.to_nat K) eqn:?; [lia|done]).
      cbn [app]. do 3 f_equal. lia.
    + by rewrite Hperm, Hperm'.
    + lia.
    + done.
  - rewrite (bool_decide_eq_false_2 (K < Z.of_nat (Len ch))) by done.
    rewrite Ok_bind.
    set (index := if bool_decide (K > Z.of_nat (Len ch)) then _ else _).
    assert (Hindex : index = Z.of_nat (Len ch))
      by (unfold index; case_bool_decide; lia).
    destruct (topFill_spec (Z.to_nat (index - 1)) ch (replicate (Z.to_nat K) 0))
      as (kept & ch' & -> & Hk & Hperm' & _);
      [lia|rewrite length_replicate; lia|].
    exists [], kept, ch'. split_and!.
    + do 2 f_equal. rewrite drop_replicate.
      replace (take 1 (replicate (Z.to_nat K) 0)) with [0]
        by (destruct (Z.to_nat K) eqn:?; [lia|done]).
      cbn [app]. do 3 f_equal. lia.
    + done.
    + lia.
    + cbn [length]. assert ((Z.of_nat (Len ch) - K + 1) / 2 < 1); [|lia].
      apply Z.div_lt_upper_bound; lia.
Qed.

(** X18. [TopKMinVal(K)] on a ["big"] heap of [n] candidates, [K >= 1],
    never panics. It returns [K] cells: a [0], then [min(K, n) - 1] ids
    popped from the heap, then [0]s. When [n > K] it first discards
    candidates, but only the half of [n - K], rounded up; what it neither
    discards nor returns stays in the heap. *)
Theorem TopKMinVal_on_big K ch :
  Compare ch = BIG → 1 ≤ K →
  ∃ dropped kept ch',
    TopKMinVal K ch
    = Ok (0 :: kept ++ replicate (Z.to_nat K - 1 - length kept) 0, ch')
    ∧ ExtractHeapData ch ≡ₚ dropped ++ kept ++ ExtractHeapData ch'
    ∧ length kept = (Z.to_nat K `min` Len ch - 1)%nat
    ∧ Z.of_nat (length dropped)
      = Z.max 0 ((Z.of_nat (Len ch) - K + 1) / 2).
Proof. apply TopKMinVal_big_spec. Qed.

Lemma TopKMinVal_on_big_witness :
  let ch := mkHeap [mkCandidate 1 9%float; mkCandidate 2 5%float;
                    mkCandidate 3 7%float; mkCandidate 4 1%float;
                    mkCandidate 5 2%float] "big" in
  ∃ dropped kept ch',
    TopKMinVal 2 ch
    = Ok (0 :: kept ++ replicate (Z.to_nat 2 - 1 - length kept) 0, ch')
    ∧ ExtractHeapData ch ≡ₚ dropped ++ kept ++ ExtractHeapData ch'
    ∧ length kept = (Z.to_nat 2 `min` Len ch - 1)%nat
    ∧ Z.of_nat (length dropped) = Z.max 0 ((Z.of_nat (Len ch) - 2 + 1) / 2).
Proof.
  apply (TopKMinVal_on_big 2
           (mkHeap [mkCandidate 1 9%float; mkCandidate 2 5%float;
                    mkCandidate 3 7%float; mkCandidate 4 1%float;
                    mkCandidate 5 2%float] "big")).
  - reflexivity.
  - lia.
Defined.

(** ** Distance *)

(** X3. [Distance(e1, e2)] panics exactly when [e2] has fewer coordinates
    than [e1] (the loop ranges over [e1] and indexes [e2]); otherwise it
    returns. In particular the distance from a non-empty vector to the zero
    [Element] of a missing key panics. *)
Theorem Distance_outcome e1 e2 :
  match Distance e1 e2 with
  | Ok _ => (length (Embeddings e1) ≤ length (Embeddings e2))%nat
  | Panic => (length (Embeddings e2) < length (Embeddings e1))%nat
  | OutOfFuel => False
  end.
Proof.
  destruct (decide (length (Embeddings e1) ≤ length (Embeddings e2))%nat)
    as [Hle|Hgt].
  - by destruct (Distance_Ok e1 e2 Hle) as [d ->].
  - rewrite Distance_Panic by lia. lia.
Qed.

(** X4. [Distance(e1, e2)] reads the first [len(e1.Embeddings)] coordinates
    of [e2] and nothing else of it: neither further coordinates, nor [ID],
    nor [Msg]. *)
Theorem Distance_reads_prefix e1 e2 id msg :
  Distance e1 e2
  = Distance e1 (mkElement id (take (length (Embeddings e1)) (Embeddings e2)) msg).
Proof.
  unfold Distance. simpl. f_equal.
  generalize PrimFloat.zero.
  generalize (Embeddings e2). induction (Embeddings e1) as [|x xs IH];
    intros ys sum; simpl; [done|].
  destruct ys as [|y ys]; simpl; [done|]. apply IH.
Qed.

(** ** Termination *)

(** X5. The loop [for C.Len() > 0] of [SearchLayer] ends, on every index,
    query, entry point, [ef] and layer: an id enters [C] only when it is
    visited for the first time. Hence [Insert] and [KNNSearch], whose other
    loops are counted, end as well: each returns or panics. *)
Theorem calls_terminate rangeOrder h q entry ef lc drawn K :
  ((∃ W, SearchLayer h q entry ef lc = Ok W)
   ∨ SearchLayer h q entry ef lc = Panic)
  ∧ ((∃ h', Insert rangeOrder drawn q h = Ok h')
     ∨ Insert rangeOrder drawn q h = Panic)
  ∧ ((∃ res, KNNSearch h q K = Ok res) ∨ KNNSearch h q K = Panic).
Proof.
  split_and!; apply exec_cases;
    [apply SearchLayer_fuel|apply Insert_fuel|apply KNNSearch_fuel].
Qed.

(** ** Edge cases of SearchLayer *)

(** X6. [SearchLayer] panics when the entry point has no neighbour list at
    the layer (the layer index is out of range, or the id is not a key of
    the layer, whose nil heap is then dereferenced), whatever the query and
    [ef]. *)
Theorem SearchLayer_absent_entry_panics h q entry ef lc :
  ¬ present h lc entry → SearchLayer h q entry ef lc = Panic.
Proof.
  intros Hnp. unfold SearchLayer.
  destruct (Distance_cases q (elementOf h entry)) as [[d ->]| ->]; [|done].
  rewrite Ok_bind. unfold searchFuel. cbn [Nat.add].
  set (fuel := S (size _)). cbn [searchLoop].
  rewrite bool_decide_eq_false_2 by (rewrite heap_Push_Len; lia).
  change (heap_Pop (heap_Push (heap_Init NewSmallCandidatesHeap)
                      (mkCandidate entry d)))
    with (Ok (mkCandidate entry d, mkHeap [] "small")).
  rewrite Ok_bind.
  change (Candidates (heap_Push (heap_Init NewBigCandidatesHeap)
                        (mkCandidate entry d)) !! 0%nat)
    with (Some (mkCandidate entry d)).
  cbn [orPanic]. rewrite Ok_bind. cbn [models.Distance NodeID].
  rewrite ltb_irrefl. by rewrite layerHeap_absent.
Qed.

Lemma SearchLayer_absent_entry_panics_witness :
  SearchLayer lineIndex (point 9 3%float) 42 1 0 = Panic
  ∧ SearchLayer lineIndex (point 9 3%float) 1 1 5 = Panic.
Proof.
  split.
  - apply (SearchLayer_absent_entry_panics lineIndex (point 9 3%float) 42 1 0).
    intros Hp%presentb_spec. vm_compute in Hp. exact Hp.
  - apply (SearchLayer_absent_entry_panics lineIndex (point 9 3%float) 1 1 5).
    intros Hp%presentb_spec. vm_compute in Hp. exact Hp.
Defined.

Lemma SearchLayer_short_entry_panics h q entry ef lc :
  (length (Embeddings (elementOf h entry)) < length (Embeddings q))%nat →
  SearchLayer h q entry ef lc = Panic.
Proof. intros Hlt. unfold SearchLayer. by rewrite Distance_Panic. Qed.

(** ** The answers of KNNSearch *)

(** X7. For [K >= 1], an answer of [KNNSearch] is made of the candidates
    [W] that [SearchLayer] found at layer 0 with [ef = K], as follows: a cell
    holding [0], then the ids of [W] but one, then [0]s up to [K] cells. One
    of the candidates found is never returned, and the first cell never
    holds a result. *)
Theorem KNNSearch_answer h q K res :
  1 ≤ K → KNNSearch h q K = Ok res →
  ∃ ep W kept left,
    SearchLayer h q ep K 0 = Ok W
    ∧ ExtractHeapData W ≡ₚ left :: kept
    ∧ res = 0 :: kept ++ replicate (Z.to_nat K - Len W) 0.
Proof.
  intros HK. unfold KNNSearch.
  intros (ep & _ & (W & HW & ([res' W'] & Htop & [= <-])%bind_Ok)%bind_Ok)%bind_Ok.
  exists ep, W.
  destruct (SearchLayer_inv _ _ _ _ _ _ HW) as (V & C & [Hne Hle _ _ _ _ _ Hcmp]).
  destruct (TopKMinVal_big_spec K W Hcmp HK)
    as (dropped & kept & ch' & Heq & Hperm & Hkept & Hdropped).
  rewrite Heq in Htop. injection Htop as <- <-.
  assert (dropped = []) as ->.
  { apply length_zero_iff_nil.
    assert ((Z.of_nat (Len W) - K + 1) / 2 < 1); [|lia].
    apply Z.div_lt_upper_bound; lia. }
  cbn [app] in Hperm. apply Permutation_length in Hperm as Hl.
  rewrite length_app in Hl. unfold ExtractHeapData in Hl at 1.
  rewrite length_fmap in Hl. fold (Len W) in Hl.
  destruct (ExtractHeapData ch') as [|left [|]] eqn:Hrest;
    [simpl in Hl; lia| |simpl in Hl; lia].
  exists kept, left. split_and!; [done| |].
  - by rewrite Hperm, <- Permutation_cons_append.
  - do 3 f_equal. lia.
Qed.

Lemma KNNSearch_answer_witness :
  ∃ ep W kept left,
    SearchLayer lineIndex (point 9 3%float) ep 5 0 = Ok W
    ∧ ExtractHeapData W ≡ₚ left :: kept
    ∧ [0; 1; 2; 0; 0] = 0 :: kept ++ replicate (Z.to_nat 5 - Len W) 0.
Proof.
  apply (KNNSearch_answer lineIndex (point 9 3%float) 5 [0; 1; 2; 0; 0]).
  - lia.
  - vm_compute. reflexivity.
Defined.

(** X16. [KNNSearch] panics for every negative [K], on every index: if the
    search itself does not, [make([]int, K)] does. *)
Theorem KNNSearch_negative_K_panics h q K :
  K < 0 → KNNSearch h q K = Panic.
Proof.
  intros HK. unfold KNNSearch. cbv zeta.
  destruct (exec_cases _ (descend_fuel
              (Z.to_nat (Z.of_nat (length (Layers h)) - 1)) h q
              (Z.of_nat (length (Layers h)) - 1) (EnterPoint h)))
    as [[ep ->]| ->]; [|done].
  rewrite Ok_bind.
  destruct (exec_cases _ (SearchLayer_fuel h q K 0 ep)) as [[W ->]| ->]; [|done].
  rewrite Ok_bind. unfold TopKMinVal, topValue.
  by rewrite bool_decide_eq_true_2.
Qed.

Lemma KNNSearch_negative_K_panics_witness :
  KNNSearch lineIndex (point 9 3%float) (-1) = Panic.
Proof.
  apply (KNNSearch_negative_K_panics lineIndex (point 9 3%float) (-1)). lia.
Defined.

(** ** addConnection *)

(** X8. [addConnection(from, to, layer)] panics when [from] has no neighbour
    list at [layer]: the nil pointer read from the map is dereferenced by
    [Len]. *)
Theorem addConnection_absent_from_panics h from to layer :
  ¬ present h layer from → addConnection h from to layer = Panic.
Proof.
  intros Hnp. unfold addConnection.
  destruct (Distance_cases (elementOf h from) (elementOf h to)) as [[d ->]| ->];
    [|done].
  rewrite Ok_bind. by rewrite layerHeap_absent.
Qed.

Lemma addConnection_absent_from_panics_witness :
  addConnection lineIndex 42 1 0 = Panic.
Proof.
  apply (addConnection_absent_from_panics lineIndex 42 1 0).
  intros Hp%presentb_spec. vm_compute in Hp. exact Hp.
Defined.

(** The ids of the list of [from] after a call of [addConnection]. *)
Lemma addConnection_ids h from to layer h' :
  addConnection h from to layer = Ok h' →
  ∃ nb, layerHeap h layer from = Ok nb
    ∧ (h' = h
       ∨ ∃ nb', h' = storeHeap h layer from nb'
           ∧ (Len nb ≤ Len nb' ≤ S (Len nb))%nat
           ∧ Compare nb' = Compare nb
           ∧ ∀ v, v ∈ ExtractHeapData nb' → v = to ∨ v ∈ ExtractHeapData nb).
Proof.
  unfold addConnection.
  intros (ft & _ & (nb & Hnb & Hk)%bind_Ok)%bind_Ok. exists nb. split; [done|].
  revert Hk. case_bool_decide as Hlen.
  - intros [= <-]. right. eexists. split; [done|].
    rewrite heap_Push_Len, heap_Push_Compare. split_and!; [lia..|done|].
    intros v. unfold ExtractHeapData. rewrite heap_Push_perm.
    rewrite fmap_cons, elem_of_cons. tauto.
  - intros (top & _ & Hk)%bind_Ok. revert Hk. case_match.
    + intros ([item nb'] & Hpop & [= <-])%bind_Ok.
      pose proof (heap_Pop_Len _ _ _ Hpop) as Hlen'.
      apply heap_Pop_inv in Hpop as [Hperm Hcmp].
      right. eexists. split; [done|].
      rewrite heap_Push_Len, heap_Push_Compare. split_and!; [lia..|done|].
      intros v. unfold ExtractHeapData. rewrite heap_Push_perm.
      rewrite fmap_cons, elem_of_cons, <- Hperm, fmap_cons, elem_of_cons.
      tauto.
    + intros [= <-]. by left.
Qed.

(** X9. A call of [addConnection(from, to, layer)] that returns touches the
    neighbour list of [from] at [layer] and nothing else: the other lists and
    the fields of the index are as before, the list of [from] keeps its
    [Compare], has as many entries as before or one more, and every id in it
    is [to] or was in it before. *)
Theorem addConnection_frame h from to layer h' :
  addConnection h from to layer = Ok h' →
  sameConfig h h'
  ∧ (∀ lc id, ¬ (lc = layer ∧ id = from) → layerHeap h' lc id = layerHeap h lc id)
  ∧ ∃ nb nb', layerHeap h layer from = Ok nb ∧ layerHeap h' layer from = Ok nb'
      ∧ (Len nb ≤ Len nb' ≤ S (Len nb))%nat
      ∧ Compare nb' = Compare nb
      ∧ ∀ v, v ∈ ExtractHeapData nb' → v = to ∨ v ∈ ExtractHeapData nb.
Proof.
  intros Hadd. split; [by eapply addConnection_config|].
  apply addConnection_ids in Hadd
    as (nb & Hnb & [->|(nb' & -> & Hlen & Hcmp & Hids)]).
  { split; [done|]. exists nb, nb. split_and!; auto; lia. }
  pose proof (layerHeap_index _ _ _ _ Hnb) as Hl. split.
  - intros lc id Hne. rewrite layerHeap_storeHeap by done.
    by rewrite decide_False.
  - exists nb, nb'. rewrite layerHeap_storeHeap by done.
    by rewrite decide_True.
Qed.

Lemma addConnection_frame_witness :
  let h' := fromOk smallIndex (addConnection pairIndex 1 2 0) in
  sameConfig pairIndex h'
  ∧ (∀ lc id, ¬ (lc = 0 ∧ id = 1) →
       layerHeap h' lc id = layerHeap pairIndex lc id)
  ∧ ∃ nb nb', layerHeap pairIndex 0 1 = Ok nb ∧ layerHeap h' 0 1 = Ok nb'
      ∧ (Len nb ≤ Len nb' ≤ S (Len nb))%nat
      ∧ Compare nb' = Compare nb
      ∧ ∀ v, v ∈ ExtractHeapData nb' → v = 2 ∨ v ∈ ExtractHeapData nb.
Proof.
  apply (addConnection_frame pairIndex 1 2 0).
  vm_compute. reflexivity.
Defined.

Lemma addConnection_present h from to layer h' lc id :
  addConnection h from to layer = Ok h' →
  present h' lc id ↔ present h lc id.
Proof.
  intros (nb & Hnb & [[-> _]|(nb' & -> & _)])%addConnection_inv; [done|].
  rewrite present_storeHeap by by eapply layerHeap_index.
  split; [|auto]. intros [[-> ->]|?]; [|done].
  apply layerHeap_present. eauto.
Qed.

Lemma addConnection_edge h from to layer h' lc u v :
  addConnection h from to layer = Ok h' → edge h' lc u v →
  edge h lc u v ∨ (lc = layer ∧ u = from ∧ v = to).
Proof.
  intros (nb & Hnb & [->|(nb' & -> & _ & _ & Hids)])%addConnection_ids; [auto|].
  rewrite edge_storeHeap by by eapply layerHeap_index.
  intros [(-> & -> & Hv)|[_ ?]]; [|auto].
  apply Hids in Hv as [->|Hv]; [auto|]. left. by eapply layerHeap_edge.
Qed.

(** ** Insert *)

Lemma connectOne_present qID lc h n h' lc' id :
  connectOne qID lc h n = Ok h' → present h' lc' id ↔ present h lc' id.
Proof.
  unfold connectOne. intros (h1 & H1 & H2)%bind_Ok.
  rewrite (addConnection_present _ _ _ _ _ _ _ H2).
  by rewrite (addConnection_present _ _ _ _ _ _ _ H1).
Qed.

Lemma connectAll_present qID lc l h h' lc' id :
  foldExec (connectOne qID lc) h l = Ok h' →
  present h' lc' id ↔ present h lc' id.
Proof.
  revert h. induction l as [|n l IH]; intros h; simpl.
  - by intros [= ->].
  - intros (h1 & H1 & H2)%bind_Ok. rewrite (IH _ H2).
    by eapply connectOne_present.
Qed.

Lemma connectAll_edge qID lc l : ∀ h h' lc' u v,
  foldExec (connectOne qID lc) h l = Ok h' → edge h' lc' u v →
  edge h lc' u v ∨ u = qID ∨ v = qID.
Proof.
  induction l as [|n l IH]; intros h h' lc' u v; cbn [foldExec].
  - intros [= ->]. auto.
  - intros (h2 & (h1 & H1 & H2)%bind_Ok & Hfold)%bind_Ok Hedge.
    destruct (IH _ _ _ _ _ Hfold Hedge) as [He|?]; [|auto].
    destruct (addConnection_edge _ _ _ _ _ _ _ _ H2 He) as [He'|(_ & -> & _)];
      [|auto].
    destruct (addConnection_edge _ _ _ _ _ _ _ _ H1 He') as [?|(_ & _ & ->)];
      auto.
Qed.

Lemma present_growLayers h level id lc id' :
  present (growLayers h level id) lc id'
  ↔ present h lc id'
    ∨ (id' = id ∧ Z.of_nat (length (Layers h)) ≤ lc ≤ level).
Proof.
  unfold present, growLayers. cbn [Layers]. split.
  - intros (layer & [Hlc Hl]%index_Some & Hid).
    apply lookup_app_Some in Hl as [Hl|[Hlen Hl]].
    + left. exists layer. by rewrite index_Some.
    + right. unfold newLayers in Hl.
      apply lookup_replicate in Hl as [-> Hlt].
      destruct Hid as [ch Hid]. apply lookup_singleton_Some in Hid as [<- _].
      split; [done|]. lia.
  - intros [(layer & [Hlc Hl]%index_Some & Hid)|(-> & Hlo & Hhi)].
    + exists layer. split; [|done]. apply index_Some. split; [done|].
      apply lookup_app_Some. by left.
    + exists {[ id := heap_Init (mkHeap [] "big") ]}. split.
      * apply index_Some. split; [lia|]. apply lookup_app_Some. right.
        split; [lia|]. unfold newLayers. apply lookup_replicate.
        split; [done|lia].
      * rewrite lookup_singleton_eq. eauto.
Qed.

Lemma edge_growLayers h level id lc u v :
  edge (growLayers h level id) lc u v → edge h lc u v.
Proof.
  intros (layer & ch & Hl & Hu & Hv).
  assert (Hch : layerHeap (growLayers h level id) lc u = Ok ch)
    by (apply layerHeap_Ok; eauto).
  apply layerHeap_growLayers in Hch as [Hch|[_ ->]].
  - by eapply layerHeap_edge.
  - by apply elem_of_nil in Hv.
Qed.

Section InsertMore.

Variable rangeOrder : list Z → list Z.

Lemma connectLayer_present h q lc ep h' ep' lc' id :
  connectLayer rangeOrder h q lc ep = Ok (h', ep') →
  present h' lc' id ↔ present h lc' id ∨ (id = ID q ∧ lc' = lc).
Proof.
  unfold connectLayer.
  intros (layer & Hl%orPanic_Ok & (W & _ & (sel & _ & Hk)%bind_Ok)%bind_Ok)%bind_Ok.
  apply bind_Ok in Hk as (h1 & Hfold & (ep1 & _ & [= <- <-])%bind_Ok).
  rewrite (connectAll_present _ _ _ _ _ _ _ Hfold).
  rewrite present_storeHeap by eauto. tauto.
Qed.

Lemma connect_present turns h q lc ep h' ep' lc' id :
  connect rangeOrder turns h q lc ep = Ok (h', ep') →
  present h' lc' id
  ↔ present h lc' id ∨ (id = ID q ∧ lc - Z.of_nat turns < lc' ≤ lc).
Proof.
  revert h lc ep. induction turns as [|turns IH]; intros h lc ep.
  - intros [= <- <-]. split; [auto|]. intros [?|[_ ?]]; [done|lia].
  - cbn [connect]. intros ([h1 ep1] & H1 & H2)%bind_Ok.
    rewrite (IH _ _ _ H2), (connectLayer_present _ _ _ _ _ _ _ _ H1).
    split; [intros [[?|[? ?]]|[? ?]]|intros [?|[? ?]]]; auto;
      try (right; split; [done|lia]).
    destruct (decide (lc' = lc)); [left; right; done|right; split; [done|lia]].
Qed.

Lemma connectLayer_edge h q lc ep h' ep' lc' u v :
  connectLayer rangeOrder h q lc ep = Ok (h', ep') → edge h' lc' u v →
  edge h lc' u v ∨ u = ID q ∨ v = ID q.
Proof.
  unfold connectLayer.
  intros (layer & Hl%orPanic_Ok & (W & _ & (sel & _ & Hk)%bind_Ok)%bind_Ok)%bind_Ok.
  apply bind_Ok in Hk as (h1 & Hfold & (ep1 & _ & [= <- <-])%bind_Ok).
  intros Hedge.
  destruct (connectAll_edge _ _ _ _ _ _ _ _ Hfold Hedge) as [He|?]; [|auto].
  apply edge_storeHeap in He as [(_ & -> & _)|[_ ?]]; eauto.
Qed.

Lemma connect_edge turns : ∀ h q lc ep h' ep' lc' u v,
  connect rangeOrder turns h q lc ep = Ok (h', ep') → edge h' lc' u v →
  edge h lc' u v ∨ u = ID q ∨ v = ID q.
Proof.
  induction turns as [|turns IH]; intros h q lc ep h' ep' lc' u v.
  - intros [= <- <-]. auto.
  - cbn [connect]. intros ([h1 ep1] & H1 & H2)%bind_Ok Hedge.
    destruct (IH _ _ _ _ _ _ _ _ _ H2 Hedge) as [He|?]; [|auto].
    by eapply connectLayer_edge.
Qed.

Lemma Insert_present drawn q h h' lc id :
  Insert rangeOrder drawn q h = Ok h' →
  present h' lc id
  ↔ present h lc id ∨ (id = ID q ∧ 0 ≤ lc ≤ Z.min drawn (MaxLayers h)).
Proof.
  intros Hins. pose proof (Insert_inv _ _ _ _ _ Hins) as Hinv.
  cbv zeta in Hinv. rewrite level_min in Hinv.
  set (level := Z.min drawn (MaxLayers h)) in *.
  destruct Hinv as (h1 & ep & ep' & Hfirst & Hconn).
  rewrite (connect_present _ _ _ _ _ _ _ _ _ Hconn).
  unfold min. destruct Hfirst as [(Hle & -> & _)|(Hlt & -> & _)].
  - rewrite present_growLayers. change (Layers (setElement h q)) with (Layers h).
    change (present (setElement h q) lc id) with (present h lc id).
    case_bool_decide; intuition lia.
  - change (present (setElement h q) lc id) with (present h lc id).
    rewrite bool_decide_eq_false_2 by lia. intuition lia.
Qed.

(** X10. The first insertion, into an index without layers, never panics:
    with [level] the drawn level capped at [MaxLayers], it makes the layers
    [0 .. level], each holding the new point alone with no neighbour, makes
    the point the entry point and stores its element. *)
Theorem Insert_into_empty drawn q h :
  Layers h = [] → 0 ≤ drawn → 0 ≤ MaxLayers h →
  Insert rangeOrder drawn q h
  = Ok (mkHNSW
          (replicate (Z.to_nat (Z.min drawn (MaxLayers h) + 1))
             {[ ID q := mkHeap [] "big" ]})
          (ID q) (M h) (maxConnections h) (EfConstruction h)
          (NormalizationML h) (MaxLayers h) (<[ID q := q]> (Elements h))).
Proof.
  intros Hl Hd Hm. unfold Insert. cbv zeta. rewrite level_min.
  change (Layers (setElement h q)) with (Layers h). rewrite Hl.
  change (Z.of_nat (length []) - 1) with (-1).
  rewrite bool_decide_eq_true_2 by lia. rewrite Ok_bind.
  unfold min. rewrite bool_decide_eq_true_2 by lia.
  change (Z.to_nat (-1 + 1)) with 0%nat. cbn [connect]. rewrite Ok_bind.
  unfold growLayers, newLayers. cbn. rewrite Hl. cbn.
  repeat f_equal; lia.
Qed.

Lemma Insert_shape drawn q h h' :
  Insert rangeOrder drawn q h = Ok h' →
  let level := Z.min drawn (MaxLayers h) in
  length (Layers h') = (length (Layers h) `max` Z.to_nat (level + 1))%nat
  ∧ EnterPoint h'
    = (if bool_decide (Z.of_nat (length (Layers h)) - 1 ≤ level)
       then ID q else EnterPoint h).
Proof.
  intros Hins. pose proof (Insert_inv _ _ _ _ _ Hins) as Hinv.
  cbv zeta in Hinv. rewrite level_min in Hinv. cbv zeta.
  set (level := Z.min drawn (MaxLayers h)) in *.
  destruct Hinv as (h1 & ep & ep' & Hfirst & Hconn).
  apply connect_config in Hconn as [HE _ _ _ _ _ _ HL].
  rewrite HE, HL.
  destruct Hfirst as [(Hle & -> & _)|(Hlt & -> & _)].
  - rewrite bool_decide_eq_true_2 by done. split; [|done].
    cbn. rewrite length_app. unfold newLayers. rewrite length_replicate. lia.
  - rewrite bool_decide_eq_false_2 by lia. split; [|done].
    cbn. lia.
Qed.

(** X11. After an insertion that returns, the index has [max(n, level + 1)]
    layers, [n] being their number before and [level] the drawn level capped
    at [MaxLayers]; the new point is the entry point exactly when
    [n - 1 <= level], that is also when no layer was added but the point
    reaches the top layer. *)
Theorem Insert_layers_and_entry drawn q h h' :
  Insert rangeOrder drawn q h = Ok h' →
  let level := Z.min drawn (MaxLayers h) in
  length (Layers h') = (length (Layers h) `max` Z.to_nat (level + 1))%nat
  ∧ EnterPoint h'
    = (if bool_decide (Z.of_nat (length (Layers h)) - 1 ≤ level)
       then ID q else EnterPoint h).
Proof. apply Insert_shape. Qed.

(** X12. An insertion that returns removes no point from any layer and puts
    the new point into the layers [0 .. level], and into no other. *)
Theorem Insert_points drawn q h h' lc id :
  Insert rangeOrder drawn q h = Ok h' →
  present h' lc id
  ↔ present h lc id ∨ (id = ID q ∧ 0 ≤ lc ≤ Z.min drawn (MaxLayers h)).
Proof. apply Insert_present. Qed.

(** X13. Inserting a vector with more coordinates than the vector of the
    entry point panics, on every index that has a layer: the first distance
    taken, from the new point to the entry point, indexes the shorter vector
    out of range. The element has been stored by then. *)
Theorem Insert_longer_vector_panics drawn q h :
  (0 < length (Layers h))%nat → EnterPoint h ≠ ID q →
  (length (Embeddings (elementOf h (EnterPoint h))) < length (Embeddings q))%nat →
  Insert rangeOrder drawn q h = Panic.
Proof.
  intros Hlayers Hne Hlen. unfold Insert. cbv zeta. rewrite level_min.
  set (level := Z.min drawn (MaxLayers h)).
  change (Layers (setElement h q)) with (Layers h).
  change (EnterPoint (setElement h q)) with (EnterPoint h).
  set (topLevel := Z.of_nat (length (Layers h)) - 1).
  assert (Hshort : ∀ h2, Elements h2 = <[ID q := q]> (Elements h) →
            (length (Embeddings (elementOf h2 (EnterPoint h)))
               < length (Embeddings q))%nat).
  { intros h2 Hel. unfold elementOf. rewrite Hel.
    by rewrite lookup_insert_ne. }
  destruct (decide (topLevel ≤ level)) as [Hle|Hgt].
  - rewrite bool_decide_eq_true_2 by done. rewrite Ok_bind.
    assert (min topLevel level = topLevel) as ->
      by (unfold min; case_bool_decide; lia).
    destruct (Z.to_nat (topLevel + 1)) as [|turns] eqn:Hturns; [lia|].
    cbn [connect]. unfold connectLayer.
    destruct (index_length (Layers (growLayers (setElement h q) level (ID q)))
                topLevel) as [_ [layer ->]].
    { cbn. rewrite length_app. lia. }
    cbn [orPanic]. rewrite Ok_bind.
    by rewrite SearchLayer_short_entry_panics by by apply Hshort.
  - rewrite bool_decide_eq_false_2 by done.
    destruct (Z.to_nat (topLevel - level)) as [|turns] eqn:Hturns; [lia|].
    cbn [descend].
    by rewrite SearchLayer_short_entry_panics by by apply Hshort.
Qed.

(** X14. An insertion links the new point and nothing else: every edge
    stored after it was stored before, or starts or ends at the new point.
    Two old points are never linked to each other. *)
Theorem Insert_new_edges drawn q h h' lc u v :
  Insert rangeOrder drawn q h = Ok h' → edge h' lc u v →
  edge h lc u v ∨ u = ID q ∨ v = ID q.
Proof.
  intros Hins Hedge. pose proof (Insert_inv _ _ _ _ _ Hins) as Hinv.
  cbv zeta in Hinv. destruct Hinv as (h1 & ep & ep' & Hfirst & Hconn).
  destruct (connect_edge _ _ _ _ _ _ _ _ _ _ Hconn Hedge) as [He|?]; [|auto].
  left. destruct Hfirst as [(_ & -> & _)|(_ & -> & _)].
  - by apply edge_growLayers in He.
  - done.
Qed.

(** X15. After a run of insertions that returns, no point has left a layer,
    and every element inserted with a drawn level [>= 0] is in layer 0 and
    in [Elements]. *)
Theorem InsertAll_keeps_points ops : ∀ h h',
  0 ≤ MaxLayers h →
  InsertAll rangeOrder h ops = Ok h' →
  (∀ lc id, present h lc id → present h' lc id)
  ∧ (∀ id, is_Some (Elements h !! id) → is_Some (Elements h' !! id))
  ∧ ∀ op, op ∈ ops → 0 ≤ op.1 →
      present h' 0 (ID op.2) ∧ is_Some (Elements h' !! ID op.2).
Proof.
  unfold InsertAll. induction ops as [|op ops IH]; intros h h' Hmax; cbn [foldExec].
  - intros [= ->]. split_and!; [done..|]. by intros op Hop%elem_of_nil.
  - intros (h1 & H1 & H2)%bind_Ok.
    destruct (Insert_config _ _ _ _ _ H1) as (Hel & _ & _ & _ & Hmax1).
    destruct (IH h1 h') as (Hkeep & Helems & Hnew); [lia|done|].
    split_and!.
    + intros lc id Hp. apply Hkeep. apply (Insert_present _ _ _ _ _ _ H1). auto.
    + intros id Hid. apply Helems. rewrite Hel.
      destruct (decide (ID op.2 = id)) as [->|];
        [by rewrite lookup_insert_eq|by rewrite lookup_insert_ne].
    + intros op' [->|Hop]%elem_of_cons Hlevel; [|auto]. split.
      * apply Hkeep. apply (Insert_present _ _ _ _ _ _ H1). right.
        split; [done|lia].
      * apply Helems. rewrite Hel. by rewrite lookup_insert_eq.
Qed.

End InsertMore.

Lemma Insert_into_empty_witness :
  Insert idOrder 2 (point 7 0%float) smallIndex
  = Ok (mkHNSW (replicate 3 {[ 7 := mkHeap [] "big" ]}) 7 1 2 10 1%float 5
          {[ 7 := point 7 0%float ]}).
Proof.
  apply (Insert_into_empty idOrder 2 (point 7 0%float) smallIndex).
  - reflexivity.
  - lia.
  - vm_compute. discriminate.
Defined.

Lemma Insert_layers_and_entry_witness :
  let h' := fromOk smallIndex (Insert idOrder 1 (point 3 5%float) pairIndex) in
  length (Layers h') = (length (Layers pairIndex) `max` Z.to_nat (1 + 1))%nat
  ∧ EnterPoint h' = 3.
Proof.
  apply (Insert_layers_and_entry idOrder 1 (point 3 5%float) pairIndex).
  vm_compute. reflexivity.
Defined.

Lemma Insert_points_witness :
  let h' := fromOk smallIndex (Insert idOrder 1 (point 3 5%float) pairIndex) in
  present h' 1 3
  ↔ present pairIndex 1 3 ∨ (3 = 3 ∧ 0 ≤ 1 ≤ Z.min 1 (MaxLayers pairIndex)).
Proof.
  apply (Insert_points idOrder 1 (point 3 5%float) pairIndex).
  vm_compute. reflexivity.
Defined.

Lemma Insert_longer_vector_panics_witness :
  Insert idOrder 0 (mkElement 9 [1%float; 2%float] EmptyString) lineIndex
  = Panic.
Proof.
  apply (Insert_longer_vector_panics idOrder 0
           (mkElement 9 [1%float; 2%float] EmptyString) lineIndex).
  - vm_compute. lia.
  - vm_compute. discriminate.
  - vm_compute. lia.
Defined.

Lemma Insert_new_edges_witness :
  edge pairIndex 0 3 2 ∨ 3 = 3 ∨ 2 = 3.
Proof.
  apply (Insert_new_edges idOrder 0 (point 3 11%float) pairIndex
           (fromOk smallIndex (Insert idOrder 0 (point 3 11%float) pairIndex))
           0 3 2).
  - vm_compute. reflexivity.
  - apply edgeb_spec. vm_compute. exact I.
Defined.

Lemma InsertAll_keeps_points_witness :
  (∀ lc id, present smallIndex lc id → present lineIndex lc id)
  ∧ (∀ id, is_Some (Elements smallIndex !! id) →
           is_Some (Elements lineIndex !! id))
  ∧ ∀ op, op ∈ lineOps → 0 ≤ op.1 →
      present lineIndex 0 (ID op.2) ∧ is_Some (Elements lineIndex !! ID op.2).
Proof.
  apply (InsertAll_keeps_points idOrder lineOps smallIndex lineIndex).
  - vm_compute. discriminate.
  - vm_compute. reflexivity.
Defined.

(** ** SelectNeighborsHeuristic *)

Section HeuristicMore.

Variable rangeOrder : list Z → list Z.
Variables (h : HNSW) (q : Element) (layer : Z).

Lemma pushCandidates_idSet candidates : ∀ W W',
  foldExec (pushCandidate h q) W candidates = Ok W' →
  idSet W' = idSet W ∪ list_to_set candidates.
Proof.
  induction candidates as [|c cs IH]; intros W W'; cbn [foldExec].
  - intros [= <-]. set_solver.
  - intros (W1 & H1 & H2)%bind_Ok. rewrite (IH _ _ H2).
    unfold pushCandidate in H1. apply bind_Ok in H1 as (d & _ & [= <-]).
    rewrite idSet_Push. cbn. set_solver.
Qed.

Lemma extendOnes_idSet l : ∀ W nbs W' nbs',
  foldExec (extendOne h q) (W, nbs) l = Ok (W', nbs') →
  nbs ⊆ idSet W →
  idSet W' = idSet W ∪ list_to_set l ∧ nbs' ⊆ idSet W'.
Proof.
  induction l as [|v l IH]; intros W nbs W' nbs'; cbn [foldExec].
  - intros [= <- <-] Hsub. split; [set_solver|done].
  - intros ([W1 nbs1] & H1 & H2)%bind_Ok Hsub.
    unfold extendOne in H1. revert H1. case_bool_decide as Hin.
    + intros [= <- <-]. destruct (IH _ _ _ _ H2 Hsub) as [-> ?].
      split; [|done]. set_solver.
    + intros (d & _ & [= <- <-])%bind_Ok.
      destruct (IH _ _ _ _ H2) as [-> ?].
      { rewrite idSet_Push. cbn. set_solver. }
      split; [|done]. rewrite idSet_Push. cbn. set_solver.
Qed.

Lemma extendCandidates_idSet candidates : ∀ W nbs W' nbs',
  foldExec (extendCandidate h q layer) (W, nbs) candidates = Ok (W', nbs') →
  nbs ⊆ idSet W →
  idSet W'
  = idSet W ∪ list_to_set (c ← candidates;
                            match layerHeap h layer c with
                            | Ok ch => ExtractHeapData ch
                            | _ => []
                            end)
  ∧ nbs' ⊆ idSet W'.
Proof.
  induction candidates as [|c cs IH]; intros W nbs W' nbs'; cbn [foldExec].
  - intros [= <- <-] Hsub. split; [set_solver|done].
  - intros ([W1 nbs1] & H1 & H2)%bind_Ok Hsub.
    unfold extendCandidate in H1. apply bind_Ok in H1 as (nb & Hnb & H1).
    destruct (extendOnes_idSet _ _ _ _ _ H1 Hsub) as [HW1 Hsub1].
    destruct (IH _ _ _ _ H2 Hsub1) as [-> ?]. split; [|done].
    rewrite HW1. cbn. rewrite Hnb, list_to_set_app_L. set_solver.
Qed.

(** The loop over [W] stops when [R] is full or when [W] is used up. *)
Lemma selectLoop_fills turns M : ∀ W R Wd R' Wd',
  (Len W ≤ turns)%nat →
  selectLoop rangeOrder turns h M W R Wd = Ok (R', Wd') →
  M ≤ Z.of_nat (size R') ∨ R' ∪ idSet Wd' = idSet W ∪ R ∪ idSet Wd.
Proof.
  induction turns as [|t IH]; intros W R Wd R' Wd' Hlen.
  { intros [= <- <-]. right. rewrite (idSet_nil W) by lia. set_solver. }
  cbn [selectLoop]. case_match eqn:Hcond.
  - intros ([e W1] & Hpop & Hk)%bind_Ok.
    pose proof (heap_Pop_Len _ _ _ Hpop) as Hl.
    rewrite (idSet_Pop _ _ _ Hpop).
    apply bind_Ok in Hk as ([|] & _ & Hk).
    + apply IH in Hk; [|lia]. destruct Hk as [?| ->]; [by left|]. right.
      set_solver.
    + apply IH in Hk; [|lia]. destruct Hk as [?| ->]; [by left|]. right.
      rewrite idSet_Push. set_solver.
  - intros [= <- <-].
    apply andb_false_iff in Hcond as [Hc|Hc]; apply bool_decide_eq_false in Hc.
    + right. rewrite (idSet_nil W) by lia. set_solver.
    + left. lia.
Qed.

Lemma keepLoop_fills turns M : ∀ Wd R R',
  (Len Wd ≤ turns)%nat →
  keepLoop turns M Wd R = Ok R' →
  R ⊆ R' ∧ (M ≤ Z.of_nat (size R') ∨ R' = R ∪ idSet Wd).
Proof.
  induction turns as [|t IH]; intros Wd R R' Hlen.
  { intros [= <-]. split; [done|]. right.
    rewrite (idSet_nil Wd) by lia. set_solver. }
  cbn [keepLoop]. case_match eqn:Hcond.
  - intros ([e W1] & Hpop & Hk)%bind_Ok.
    pose proof (heap_Pop_Len _ _ _ Hpop) as Hl.
    rewrite (idSet_Pop _ _ _ Hpop).
    apply IH in Hk; [|lia]. destruct Hk as [Hsub [?| ->]].
    + split; [set_solver|by left].
    + split; [set_solver|]. right. set_solver.
  - intros [= <-]. split; [done|].
    apply andb_false_iff in Hcond as [Hc|Hc]; apply bool_decide_eq_false in Hc.
    + right. rewrite (idSet_nil Wd) by lia. set_solver.
    + left. lia.
Qed.

(** X19. With [keepPrunedConnections], the heuristic fills its result as far
    as the pool allows: it returns exactly [min(M, n)] ids, [n] being the
    number of distinct ids among the candidates (and, with
    [extendCandidates], their neighbours at the layer); when [n <= M] it
    returns all of them. *)
Theorem heuristic_fills_up candidates M (extendCandidates : bool) R :
  (∀ keys, rangeOrder keys ≡ₚ keys) → 0 ≤ M →
  SelectNeighborsHeuristic rangeOrder h q candidates M layer
    extendCandidates true = Ok R →
  let ids : gset Z :=
    list_to_set (if extendCandidates then poolOf h layer candidates
                 else candidates) in
  Z.of_nat (length R) = Z.min M (Z.of_nat (size ids))
  ∧ (Z.of_nat (size ids) ≤ M → ∀ r, r ∈ ids → r ∈ R).
Proof.
  intros Hperm HM Hsel ids. revert Hsel. unfold SelectNeighborsHeuristic.
  intros (W0 & Hpush & (W & Hext & Hk)%bind_Ok)%bind_Ok.
  apply bind_Ok in Hk as ([R1 Wd] & Hsel & (R2 & Hkeep & [= <-])%bind_Ok).
  rewrite Hperm. change (length (elements R2)) with (size R2).
  setoid_rewrite Hperm. setoid_rewrite elem_of_elements.
  assert (HW : idSet W = ids).
  { apply pushCandidates_idSet in Hpush.
    change (idSet (heap_Init NewSmallCandidatesHeap)) with (∅ : gset Z) in Hpush.
    unfold ids. destruct extendCandidates.
    - apply bind_Ok in Hext as ([W' nbs] & Hfold & [= <-]).
      apply extendCandidates_idSet in Hfold as [-> _]; [|set_solver].
      rewrite Hpush. unfold poolOf. rewrite list_to_set_app_L. set_solver.
    - injection Hext as <-. rewrite Hpush. set_solver. }
  assert (HinW : idsIn (λ x, x ∈ idSet W) W).
  { intros c Hc. unfold idSet, ExtractHeapData.
    apply elem_of_list_to_set, list_elem_of_fmap. eauto. }
  pose proof Hsel as Hs. pose proof Hkeep as Hkp.
  apply (selectLoop_inv _ _ (λ x, x ∈ idSet W)) in Hsel
    as (HR1 & HWd & Hsz1); cycle 1.
  { done. }
  { intros c Hc. by apply elem_of_nil in Hc. }
  { set_solver. }
  { rewrite size_empty. lia. }
  apply (keepLoop_inv (λ x, x ∈ idSet W)) in Hkeep as [HR2 Hsz2];
    [|done..].
  rewrite HW in HR2.
  apply selectLoop_fills in Hs; [|done].
  apply keepLoop_fills in Hkp as [Hmono Hkp]; [|done].
  assert (Hsub : R2 ⊆ ids) by (intros r; apply HR2).
  pose proof (subseteq_size _ _ Hsub) as Hle.
  assert (Hcase : M ≤ Z.of_nat (size R2) ∨ R2 = ids).
  { destruct Hkp as [?| ->]; [by left|].
    destruct Hs as [?|Hs].
    - left. pose proof (subseteq_size _ _ Hmono). lia.
    - right. rewrite Hs, HW.
      change (idSet (heap_Init NewSmallCandidatesHeap)) with (∅ : gset Z).
      set_solver. }
  destruct Hcase as [Hfull| ->].
  - split; [lia|]. intros Hsmall r Hr.
    assert (R2 = ids) as ->; [|done].
    apply set_subseteq_size_eq; [done|lia].
  - split; [lia|done].
Qed.

End HeuristicMore.

Lemma heuristic_fills_up_witness :
  let ids : gset Z := list_to_set (poolOf lineIndex 0 [1]) in
  Z.of_nat (length [2; 1]) = Z.min 5 (Z.of_nat (size ids))
  ∧ (Z.of_nat (size ids) ≤ 5 → ∀ r, r ∈ ids → r ∈ [2; 1]).
Proof.
  apply (heuristic_fills_up idOrder lineIndex (point 9 3%float) 0 [1] 5 true
           [2; 1]).
  - intros keys. reflexivity.
  - lia.
  - vm_compute. reflexivity.
Defined.

(** ** SearchLayer with a small [ef] *)

Section SmallEf.

Variables (h : HNSW) (q : Element) (ef lc : Z).
Hypothesis Hef : ef ≤ 1.

Lemma visit_small_ef fc st vNode :
  Len st.2 = 1%nat →
  visit h q ef fc st vNode = visit h q 1 fc st vNode
  ∧ ∀ st', visit h q 1 fc st vNode = Ok st' → Len st'.2 = 1%nat.
Proof.
  destruct st as [[V C] W]. unfold visit. simpl. intros HW.
  case_bool_decide; [split; [done|by intros ? [= <-]]|].
  destruct (Distance q (elementOf h vNode)) as [d| |]; [|done..].
  rewrite !Ok_bind.
  rewrite (bool_decide_eq_false_2 (Z.of_nat (Len W) < ef)) by lia.
  rewrite (bool_decide_eq_false_2 (Z.of_nat (Len W) < 1)) by lia.
  case_match; [|split; [done|by intros ? [= <-]]].
  rewrite (bool_decide_eq_true_2 (ef < _)) by (rewrite heap_Push_Len; lia).
  rewrite (bool_decide_eq_true_2 (1 < _)) by (rewrite heap_Push_Len; lia).
  split; [done|]. intros st' ([item W'] & Hpop & [= <-])%bind_Ok. simpl.
  apply heap_Pop_Len in Hpop. rewrite heap_Push_Len in Hpop. lia.
Qed.

Lemma visits_small_ef fc l : ∀ st,
  Len st.2 = 1%nat →
  foldExec (visit h q ef fc) st l = foldExec (visit h q 1 fc) st l
  ∧ ∀ st', foldExec (visit h q 1 fc) st l = Ok st' → Len st'.2 = 1%nat.
Proof.
  induction l as [|v l IH]; intros st HW; cbn [foldExec].
  - split; [done|]. by intros ? [= <-].
  - destruct (visit_small_ef fc st v HW) as [-> Hlen].
    destruct (visit h q 1 fc st v) as [s1| |]; [|done..].
    rewrite !Ok_bind. apply IH. by apply Hlen.
Qed.

Lemma searchLoop_small_ef fuel : ∀ st,
  Len st.2 = 1%nat →
  searchLoop fuel h q ef lc st = searchLoop fuel h q 1 lc st.
Proof.
  induction fuel as [|fuel IH]; intros [[V C] W] HW; [done|].
  cbn [searchLoop]. case_bool_decide; [done|].
  apply bind_ext. intros [nc C']. apply bind_ext. intros fc.
  case_match; [done|]. apply bind_ext. intros nbrs.
  destruct (visits_small_ef fc (ExtractHeapData nbrs) (V, C', W) HW) as [-> Hlen].
  destruct (foldExec _ _ _) as [st'| |]; [|done..].
  rewrite !Ok_bind. apply IH. by apply Hlen.
Qed.

Lemma SearchLayer_small_ef_eq entry :
  SearchLayer h q entry ef lc = SearchLayer h q entry 1 lc.
Proof.
  unfold SearchLayer. cbv zeta. apply bind_ext. intros d.
  apply searchLoop_small_ef. simpl. by rewrite heap_Push_Len.
Qed.

End SmallEf.

(** X28. [SearchLayer] treats every [ef <= 1] as [ef = 1]: the result heap
    holds one candidate throughout, so the calls with [ef] and with [1]
    are the same call. *)
Theorem SearchLayer_small_ef h q entry ef lc :
  ef ≤ 1 → SearchLayer h q entry ef lc = SearchLayer h q entry 1 lc.
Proof. intros Hef. by apply SearchLayer_small_ef_eq. Qed.

Lemma SearchLayer_small_ef_witness :
  SearchLayer lineIndex (point 9 3%float) 1 (-4) 0
  = SearchLayer lineIndex (point 9 3%float) 1 1 0.
Proof.
  apply (SearchLayer_small_ef lineIndex (point 9 3%float) 1 (-4) 0). lia.
Defined.

(** ** The draft: its heaps *)

Section DraftHeapFacts.

Variable Less : list Candidate → nat → nat → bool.

Lemma draft_up_perm turns s j : draft.up Less turns s j ≡ₚ s.
Proof.
  revert s j. induction turns as [|t IH]; intros s j; simpl; [done|].
  case_match; [done|]. by rewrite IH, swapList_perm.
Qed.

Lemma draft_down_perm turns s i n : draft.down Less turns s i n ≡ₚ s.
Proof.
  revert s i. induction turns as [|t IH]; intros s i; simpl; [done|].
  repeat case_match; try done; by rewrite IH, swapList_perm.
Qed.

Lemma draft_heap_Push_perm s x : draft.heap_Push Less s x ≡ₚ x :: s.
Proof.
  unfold draft.heap_Push, draft.Push. rewrite draft_up_perm.
  by rewrite Permutation_app_comm.
Qed.

Lemma draft_heap_Push_length s x :
  length (draft.heap_Push Less s x) = S (length s).
Proof. by rewrite draft_heap_Push_perm. Qed.

Lemma draft_heap_Pop_inv s item s' :
  draft.heap_Pop Less s = Ok (item, s') → item :: s' ≡ₚ s.
Proof.
  unfold draft.heap_Pop. case_bool_decide; [done|]. unfold draft.Pop.
  intros (x & Hx%orPanic_Ok & [= -> <-])%bind_Ok.
  apply last_Some in Hx as [l' Hl']. rewrite Hl', removelast_last.
  etrans; [|apply (swapList_perm s 0 (length s - 1))].
  etrans; [|apply (draft_down_perm (length s - 1 - 0) _ 0 (length s - 1))].
  rewrite Hl'. by rewrite Permutation_app_comm.
Qed.

Lemma draft_heap_Pop_Ok s :
  length s ≠ 0%nat → ∃ item s', draft.heap_Pop Less s = Ok (item, s').
Proof.
  intros Hn. unfold draft.heap_Pop. rewrite bool_decide_eq_false_2 by done.
  unfold draft.Pop.
  destruct (last _) as [x|] eqn:Hx; simpl; [eauto|].
  apply last_None in Hx. apply (f_equal length) in Hx.
  rewrite draft_down_perm, swapList_perm in Hx. done.
Qed.

Lemma draft_heap_Pop_fuel s : draft.heap_Pop Less s ≠ OutOfFuel.
Proof.
  unfold draft.heap_Pop, draft.Pop. case_bool_decide; [done|].
  by destruct (last _).
Qed.

Lemma draft_heap_Pop_length s item s' :
  draft.heap_Pop Less s = Ok (item, s') → length s = S (length s').
Proof. intros Hp%draft_heap_Pop_inv. by rewrite <- Hp. Qed.

End DraftHeapFacts.

(** ** The draft: searchLayer *)

Lemma draft_neighbours_fuel h lc id : draft.neighbours h lc id ≠ OutOfFuel.
Proof. unfold draft.neighbours. by destruct (index _ _). Qed.

Lemma draft_neighbours_Ok h lc id l :
  draft.neighbours h lc id = Ok l ↔
  ∃ layer, index (draft.Layers h) lc = Some layer ∧ l = default [] (layer !! id).
Proof.
  unfold draft.neighbours. destruct (index _ _) as [layer|]; simpl; split.
  - intros [= <-]. eauto.
  - by intros (? & [= <-] & ->).
  - done.
  - by intros (? & ? & _).
Qed.

Lemma draft_elem_of_neighbourIDs layer v :
  v ∈ draft.neighbourIDs layer ↔ ∃ u l, layer !! u = Some l ∧ v ∈ l.
Proof.
  unfold draft.neighbourIDs. rewrite elem_of_list_to_set, list_elem_of_join.
  split.
  - intros (l & Hv & ([u l'] & -> & Hl%elem_of_map_to_list)%list_elem_of_fmap).
    eauto.
  - intros (u & l & Hl & Hv). exists l. split; [done|].
    apply list_elem_of_fmap. exists (u, l). split; [done|].
    by apply elem_of_map_to_list.
Qed.

Lemma draft_neighbours_IDs h lc id l v :
  draft.neighbours h lc id = Ok l → v ∈ l →
  v ∈ draft.neighbourIDs (default ∅ (index (draft.Layers h) lc)).
Proof.
  intros (layer & Hl & ->)%draft_neighbours_Ok Hv. rewrite Hl. simpl.
  apply draft_elem_of_neighbourIDs.
  destruct (layer !! id) as [l|] eqn:Hid; simpl in Hv; [eauto|].
  by apply elem_of_nil in Hv.
Qed.

Section DraftSearchFacts.

Variables (h : draft.HNSW) (q : Element) (ef lc : Z).

Lemma draft_visit_fuel st el : draft.visit h q ef st el ≠ OutOfFuel.
Proof.
  destruct st as [[V C] W]. unfold draft.visit.
  case_bool_decide; [done|].
  intros [?|(fc & _ & Hk)]%bind_OutOfFuel; [by eapply orPanic_fuel|].
  apply bind_OutOfFuel in Hk as [?|(d & _ & Hd)]; [by eapply Distance_fuel|].
  revert Hd. case_match eqn:Hcond; [clear Hcond|done]. case_bool_decide; [|done].
  intros [?|([] & _ & ?)]%bind_OutOfFuel; [by eapply draft_heap_Pop_fuel|done].
Qed.

Lemma draft_visit_length st el st' :
  (1 ≤ length st.2)%nat →
  draft.visit h q ef st el = Ok st' → (1 ≤ length st'.2)%nat.
Proof.
  destruct st as [[V C] W]. unfold draft.visit. simpl. intros HW.
  case_bool_decide; [by intros [= <-]|].
  intros (fc & _ & (d & _ & Hk)%bind_Ok)%bind_Ok. revert Hk.
  case_match eqn:Hcond; clear Hcond; [|by intros [= <-]].
  case_bool_decide.
  - intros ([item W'] & Hpop%draft_heap_Pop_length & [= <-])%bind_Ok. simpl.
    rewrite draft_heap_Push_length in Hpop. lia.
  - intros [= <-]. simpl. rewrite draft_heap_Push_length. lia.
Qed.

Lemma draft_visit_measure st el st' :
  el ∈ draft.neighbourIDs (default ∅ (index (draft.Layers h) lc)) →
  draft.visit h q ef st el = Ok st' →
  (draft.searchMeasure h lc st' ≤ draft.searchMeasure h lc st)%nat.
Proof.
  destruct st as [[V C] W]. unfold draft.searchMeasure, draft.visit. simpl.
  set (U := draft.neighbourIDs _). intros HU.
  case_bool_decide as Hvis; [by intros [= <-]|].
  intros (fc & _ & (d & _ & Hk)%bind_Ok)%bind_Ok. revert Hk.
  assert (Hsz : (size (U ∖ V) = 1 + size (U ∖ ({[el]} ∪ V)))%nat).
  { rewrite <- (size_singleton (C:=gset Z) el), <- size_union by set_solver.
    f_equal. apply set_eq. intros x.
    destruct (decide (x = el)) as [->|]; set_solver. }
  case_match eqn:Hcond; clear Hcond.
  - case_bool_decide.
    + intros ([item W'] & _ & [= <-])%bind_Ok. simpl.
      rewrite draft_heap_Push_length. lia.
    + intros [= <-]. simpl. rewrite draft_heap_Push_length. lia.
  - intros [= <-]. simpl. lia.
Qed.

Lemma draft_visit_Ok st el :
  (1 ≤ length st.2)%nat →
  (length (Embeddings q) ≤ length (Embeddings (draft.elementOf h el)))%nat →
  ∃ st', draft.visit h q ef st el = Ok st'.
Proof.
  destruct st as [[V C] W]. unfold draft.visit. simpl.
  intros HW [d Hd]%Distance_Ok.
  case_bool_decide; [eauto|].
  destruct W as [|fc W]; [simpl in HW; lia|]. cbn [lookup list_lookup orPanic].
  rewrite Ok_bind. unfold draft.distance. unfold Distance in Hd.
  rewrite Hd. simpl.
  case_match eqn:Hcond; clear Hcond; [|eauto]. case_bool_decide; [|eauto].
  destruct (draft_heap_Pop_Ok draft.Big_Less
              (draft.heap_Push draft.Big_Less (fc :: W) (mkCandidate el d)))
    as (item & W' & ->).
  { rewrite draft_heap_Push_length. lia. }
  simpl. eauto.
Qed.

Lemma draft_searchLoop_fuel fuel st :
  (draft.searchMeasure h lc st < fuel)%nat →
  draft.searchLoop fuel h q ef lc st ≠ OutOfFuel.
Proof.
  revert st. induction fuel as [|fuel IH]; intros [[V C] W] Hm; [lia|].
  cbn [draft.searchLoop]. case_bool_decide as HC; [done|].
  intros [?|([nc C'] & Hpop & Hk)]%bind_OutOfFuel;
    [by eapply draft_heap_Pop_fuel|].
  apply bind_OutOfFuel in Hk as [?|(fc & _ & Hk)]; [by eapply orPanic_fuel|].
  revert Hk. case_match; [done|].
  intros [?|(nbrs & Hnb & Hk)]%bind_OutOfFuel; [by eapply draft_neighbours_fuel|].
  apply bind_OutOfFuel in Hk as [?|(st' & Hfold & Hk)].
  { eapply foldExec_fuel; [|done]. intros ? ?. apply draft_visit_fuel. }
  revert Hk. apply IH.
  apply draft_heap_Pop_length in Hpop.
  assert (draft.searchMeasure h lc st'
            ≤ draft.searchMeasure h lc (V, C', W))%nat; cycle 1.
  { unfold draft.searchMeasure in *. simpl in *. lia. }
  eapply (foldExec_inv
    (fun s => (draft.searchMeasure h lc s
                 ≤ draft.searchMeasure h lc (V, C', W))%nat));
    [|reflexivity|exact Hfold].
  intros s a s' Ha Hs Hv. etrans; [|exact Hs].
  eapply draft_visit_measure; [|exact Hv].
  by eapply draft_neighbours_IDs.
Qed.

Lemma draft_visits_Ok nbrs : ∀ st,
  (1 ≤ length st.2)%nat →
  (∀ el, el ∈ nbrs →
     el ∈ draft.neighbourIDs (default ∅ (index (draft.Layers h) lc))
     ∧ (length (Embeddings q) ≤ length (Embeddings (draft.elementOf h el)))%nat) →
  ∃ st', foldExec (draft.visit h q ef) st nbrs = Ok st'
         ∧ (1 ≤ length st'.2)%nat
         ∧ (draft.searchMeasure h lc st' ≤ draft.searchMeasure h lc st)%nat.
Proof.
  induction nbrs as [|el nbrs IH]; intros st HW Hin; cbn [foldExec].
  - exists st. auto.
  - destruct (Hin el) as [HU Hdim]; [by left|].
    destruct (draft_visit_Ok st el HW Hdim) as [s1 H1]. rewrite H1, Ok_bind.
    pose proof (draft_visit_length _ _ _ HW H1) as HW1.
    pose proof (draft_visit_measure _ _ _ HU H1) as Hm1.
    destruct (IH s1 HW1) as (st' & -> & ? & ?).
    { intros ? ?. apply Hin. by right. }
    exists st'. split_and!; [done..|lia].
Qed.

Lemma draft_searchLoop_Ok fuel st :
  is_Some (index (draft.Layers h) lc) →
  (∀ el, el ∈ draft.neighbourIDs (default ∅ (index (draft.Layers h) lc)) →
     (length (Embeddings q) ≤ length (Embeddings (draft.elementOf h el)))%nat) →
  (1 ≤ length st.2)%nat → (draft.searchMeasure h lc st < fuel)%nat →
  draft.searchLoop fuel h q ef lc st = Ok ().
Proof.
  intros [layer Hl] Hdim. revert st.
  induction fuel as [|fuel IH]; intros [[V C] W] HW Hm; [lia|].
  cbn [draft.searchLoop]. case_bool_decide as HC; [done|].
  destruct (draft_heap_Pop_Ok draft.Small_Less C HC) as (nc & C' & Hpop).
  rewrite Hpop, Ok_bind.
  destruct W as [|fc W0] eqn:HWeq; [simpl in HW; lia|].
  cbn [lookup list_lookup orPanic]. rewrite Ok_bind.
  case_match; [done|].
  destruct (draft.neighbours h lc (NodeID nc)) as [nbrs| |] eqn:Hnb; cycle 1.
  { unfold draft.neighbours in Hnb. by rewrite Hl in Hnb. }
  { by apply draft_neighbours_fuel in Hnb. }
  rewrite Ok_bind.
  destruct (draft_visits_Ok nbrs (V, C', fc :: W0)) as (st' & -> & HW' & Hm').
  { simpl. lia. }
  { intros el Hel. pose proof (draft_neighbours_IDs _ _ _ _ _ Hnb Hel). auto. }
  rewrite Ok_bind. apply IH; [done|].
  apply draft_heap_Pop_length in Hpop.
  unfold draft.searchMeasure in *. simpl in *. lia.
Qed.

Lemma draft_searchLayer_start d entry :
  let qCandidate := mkCandidate entry d in
  let st : draft.searchState :=
    ({[entry]},
     draft.heap_Push draft.Small_Less (draft.heap_Init draft.Small_Less [])
       qCandidate,
     draft.heap_Push draft.Big_Less (draft.heap_Init draft.Big_Less [])
       qCandidate) in
  (1 ≤ length st.2)%nat
  ∧ (draft.searchMeasure h lc st < draft.searchFuel h lc)%nat.
Proof.
  intros qC st. split; [simpl; lia|].
  unfold draft.searchMeasure, draft.searchFuel. simpl.
  set (U := draft.neighbourIDs _).
  pose proof (subseteq_size (U ∖ {[entry]}) U ltac:(set_solver)). lia.
Qed.

Lemma draft_searchLayer_cases entry :
  draft.searchLayer h q entry ef lc = Ok [entry]
  ∨ draft.searchLayer h q entry ef lc = Panic.
Proof.
  unfold draft.searchLayer.
  destruct (Distance_cases q (draft.elementOf h entry)) as [[d Hd]|Hd];
    unfold Distance in Hd; unfold draft.distance; rewrite Hd; [|by right].
  rewrite Ok_bind.
  destruct (draft_searchLayer_start d entry) as [_ Hm].
  destruct (exec_cases _ (draft_searchLoop_fuel _ _ Hm)) as [[[] ->]| ->];
    [by left|by right].
Qed.

Lemma draft_searchLayer_Ok entry :
  is_Some (index (draft.Layers h) lc) →
  (∀ el, el = entry
         ∨ el ∈ draft.neighbourIDs (default ∅ (index (draft.Layers h) lc)) →
     (length (Embeddings q) ≤ length (Embeddings (draft.elementOf h el)))%nat) →
  draft.searchLayer h q entry ef lc = Ok [entry].
Proof.
  intros Hl Hdim. unfold draft.searchLayer.
  destruct (Distance_Ok q (draft.elementOf h entry)) as [d Hd]; [auto|].
  unfold Distance in Hd. unfold draft.distance. rewrite Hd, Ok_bind.
  destruct (draft_searchLayer_start d entry) as [HW Hm].
  rewrite draft_searchLoop_Ok; [done|done|auto|done|done].
Qed.

Lemma draft_searchLayer_no_layer entry :
  index (draft.Layers h) lc = None →
  draft.searchLayer h q entry ef lc = Panic.
Proof.
  intros Hl. unfold draft.searchLayer.
  destruct (Distance_cases q (draft.elementOf h entry)) as [[d Hd]|Hd];
    unfold Distance in Hd; unfold draft.distance; rewrite Hd; [|done].
  rewrite Ok_bind. unfold draft.searchFuel. cbn [Nat.add].
  set (fuel := S (size _)). cbn [draft.searchLoop].
  change (draft.heap_Push draft.Small_Less (draft.heap_Init draft.Small_Less [])
            (mkCandidate entry d)) with [mkCandidate entry d].
  change (draft.heap_Push draft.Big_Less (draft.heap_Init draft.Big_Less [])
            (mkCandidate entry d)) with [mkCandidate entry d].
  rewrite bool_decide_eq_false_2 by (simpl; lia).
  change (draft.heap_Pop draft.Small_Less [mkCandidate entry d])
    with (Ok (mkCandidate entry d, @nil Candidate)).
  rewrite Ok_bind. cbn [lookup list_lookup orPanic]. rewrite Ok_bind.
  cbn [models.Distance NodeID]. rewrite ltb_irrefl.
  unfold draft.neighbours. by rewrite Hl.
Qed.

End DraftSearchFacts.

(** ** The draft: KNNSearch *)

Lemma draft_descend_cases turns : ∀ h q lc ep,
  draft.descend turns h q lc ep = Ok ep ∨ draft.descend turns h q lc ep = Panic.
Proof.
  induction turns as [|turns IH]; intros h q lc ep; cbn [draft.descend];
    [by left|].
  destruct (draft_searchLayer_cases h q 1 lc ep) as [-> | ->]; [|by right].
  rewrite Ok_bind. cbn [lookup list_lookup orPanic]. rewrite Ok_bind. apply IH.
Qed.

Lemma draft_KNNSearch_cases h q K :
  draft.KNNSearch h q K = Ok [draft.EnterPoint h]
  ∨ draft.KNNSearch h q K = Panic.
Proof.
  unfold draft.KNNSearch. cbv zeta.
  destruct (draft_descend_cases (Z.to_nat (Z.of_nat (length (draft.Layers h))))
              h q (Z.of_nat (length (draft.Layers h)) - 1) (draft.EnterPoint h))
    as [-> | ->]; [|by right].
  rewrite Ok_bind. apply draft_searchLayer_cases.
Qed.

Lemma draft_descend_Ok turns : ∀ h q lc ep,
  Z.of_nat turns ≤ lc + 1 → lc < Z.of_nat (length (draft.Layers h)) →
  (∀ l layer el, index (draft.Layers h) l = Some layer →
     el = ep ∨ el ∈ draft.neighbourIDs layer →
     (length (Embeddings q) ≤ length (Embeddings (draft.elementOf h el)))%nat) →
  draft.descend turns h q lc ep = Ok ep.
Proof.
  induction turns as [|turns IH]; intros h q lc ep Hturns Hlc Hdim;
    cbn [draft.descend]; [done|].
  destruct (index_length (draft.Layers h) lc) as [_ [layer Hl]]; [lia|].
  rewrite draft_searchLayer_Ok; [|eauto|].
  - rewrite Ok_bind. cbn [lookup list_lookup orPanic]. rewrite Ok_bind.
    apply IH; [lia|lia|done].
  - rewrite Hl. simpl. intros el Hel. by eapply Hdim.
Qed.

(** ** The draft: addConnection and Insert *)

Lemma draft_addConnection_edge h from to layer h' lc u v :
  draft.addConnection h from to layer = Ok h' →
  draft.edge h' lc u v
  ↔ draft.edge h lc u v ∨ (lc = layer ∧ u = from ∧ v = to).
Proof.
  unfold draft.addConnection.
  intros (l & [Hlayer Hl]%orPanic_Ok%index_Some & [= <-])%bind_Ok.
  unfold draft.edge. cbn [draft.Layers].
  destruct (decide (lc = layer)) as [->|Hne].
  - assert (Hidx : ∀ layer',
      index (<[Z.to_nat layer := <[from := default [] (l !! from) ++ [to]]> l]>
               (draft.Layers h)) layer = Some layer'
      ↔ layer' = <[from := default [] (l !! from) ++ [to]]> l).
    { intros layer'. rewrite index_Some, list_lookup_insert_eq
        by (by eapply lookup_lt_Some). naive_solver. }
    assert (Hidx0 : ∀ layer', index (draft.Layers h) layer = Some layer'
                              ↔ layer' = l).
    { intros layer'. rewrite index_Some, Hl. naive_solver. }
    split.
    + intros (layer' & l' & ->%Hidx & Hu & Hv).
      destruct (decide (u = from)) as [->|Hu'].
      * rewrite lookup_insert_eq in Hu. injection Hu as <-.
        apply elem_of_app in Hv as [Hv| ->%list_elem_of_singleton]; [|auto].
        left. exists l. destruct (l !! from) as [l0|] eqn:Hfrom; simpl in Hv.
        -- exists l0. by rewrite Hidx0.
        -- by apply elem_of_nil in Hv.
      * rewrite lookup_insert_ne in Hu by done. left. exists l, l'.
        by rewrite Hidx0.
    + intros [(layer' & l' & ->%Hidx0 & Hu & Hv)|(_ & -> & ->)].
      * exists (<[from := default [] (l !! from) ++ [to]]> l).
        destruct (decide (u = from)) as [->|Hu'].
        -- exists (default [] (l !! from) ++ [to]).
           rewrite Hidx, lookup_insert_eq. split_and!; [done..|].
           rewrite Hu. simpl. apply elem_of_app. by left.
        -- exists l'. rewrite Hidx, lookup_insert_ne by done. done.
      * exists (<[from := default [] (l !! from) ++ [to]]> l),
          (default [] (l !! from) ++ [to]).
        rewrite Hidx, lookup_insert_eq. split_and!; [done..|].
        apply elem_of_app. right. by apply list_elem_of_singleton.
  - assert (Hidx : ∀ layer',
      index (<[Z.to_nat layer := <[from := default [] (l !! from) ++ [to]]> l]>
               (draft.Layers h)) lc = Some layer'
      ↔ index (draft.Layers h) lc = Some layer').
    { intros layer'. rewrite !index_Some.
      destruct (decide (0 ≤ lc)); [|naive_solver lia].
      rewrite list_lookup_insert_ne by lia. done. }
    setoid_rewrite Hidx. naive_solver.
Qed.

Lemma draft_addConnection_config h from to layer h' :
  draft.addConnection h from to layer = Ok h' →
  length (draft.Layers h') = length (draft.Layers h)
  ∧ draft.Elements h' = draft.Elements h
  ∧ draft.EnterPoint h' = draft.EnterPoint h
  ∧ draft.InitConnects h' = draft.InitConnects h
  ∧ draft.EfConstruction h' = draft.EfConstruction h
  ∧ draft.MaxLayers h' = draft.MaxLayers h.
Proof.
  unfold draft.addConnection. intros (l & _ & [= <-])%bind_Ok.
  cbn. by rewrite length_insert.
Qed.

Lemma draft_connectOne_edge qID l h n h' lc u v :
  draft.connectOne qID l h n = Ok h' →
  draft.edge h' lc u v
  ↔ draft.edge h lc u v
    ∨ (lc = l ∧ (u = qID ∧ v = n ∨ u = n ∧ v = qID)).
Proof.
  unfold draft.connectOne. intros (h1 & H1 & H2)%bind_Ok.
  rewrite (draft_addConnection_edge _ _ _ _ _ _ _ _ H2).
  rewrite (draft_addConnection_edge _ _ _ _ _ _ _ _ H1). tauto.
Qed.

Lemma draft_grows_refl h : draft.grows h h.
Proof. by split. Qed.

Lemma draft_grows_trans h1 h2 h3 :
  draft.grows h1 h2 → draft.grows h2 h3 → draft.grows h1 h3.
Proof. intros [? ?] [? ?]. split; auto. Qed.

Lemma draft_connectOne_grows qID l h n h' :
  draft.connectOne qID l h n = Ok h' → draft.grows h h'.
Proof.
  intros Hc. split.
  - intros lc u v He. apply (draft_connectOne_edge _ _ _ _ _ lc u v Hc). auto.
  - intros Hsym lc u v.
    rewrite !(draft_connectOne_edge _ _ _ _ _ lc _ _ Hc).
    intros [He|(-> & Hq)]; [left; by apply Hsym|right; tauto].
Qed.

Lemma draft_connectAll_grows qID l sel : ∀ h h',
  foldExec (draft.connectOne qID l) h sel = Ok h' → draft.grows h h'.
Proof.
  induction sel as [|n sel IH]; intros h h'; cbn [foldExec].
  - intros [= ->]. apply draft_grows_refl.
  - intros (h1 & H1 & H2)%bind_Ok.
    eapply draft_grows_trans; [by eapply draft_connectOne_grows|by apply IH].
Qed.

Lemma draft_edge_setElement h q lc u v :
  draft.edge (draft.setElement h q) lc u v ↔ draft.edge h lc u v.
Proof. done. Qed.

Lemma draft_edge_growLayers h level id lc u v :
  draft.edge (draft.growLayers h level id) lc u v ↔ draft.edge h lc u v.
Proof.
  unfold draft.edge, draft.growLayers. cbn [draft.Layers]. split.
  - intros (layer & l & [Hlc Hl]%index_Some & Hu & Hv).
    apply lookup_app_Some in Hl as [Hl|[_ Hl]].
    + exists layer, l. by rewrite index_Some.
    + apply lookup_replicate in Hl as [-> _].
      apply lookup_singleton_Some in Hu as [_ <-]. by apply elem_of_nil in Hv.
  - intros (layer & l & [Hlc Hl]%index_Some & Hu & Hv).
    exists layer, l. rewrite index_Some. split_and!; [done| |done..].
    apply lookup_app_Some. by left.
Qed.

Section DraftInsertFacts.

Variable rangeOrder : list Z → list Z.

Lemma draft_connectLayer_grows h q lc ep h' ep' :
  draft.connectLayer rangeOrder h q lc ep = Ok (h', ep') → draft.grows h h'.
Proof.
  unfold draft.connectLayer.
  intros (nbrs & _ & (sel & _ & (h1 & Hfold & Hk)%bind_Ok)%bind_Ok)%bind_Ok.
  apply bind_Ok in Hk as (ep1 & _ & [= <- <-]).
  by eapply draft_connectAll_grows.
Qed.

Lemma draft_connect_grows turns : ∀ h q lc ep h' ep',
  draft.connect rangeOrder turns h q lc ep = Ok (h', ep') → draft.grows h h'.
Proof.
  induction turns as [|turns IH]; intros h q lc ep h' ep'; cbn [draft.connect].
  - intros [= <- <-]. apply draft_grows_refl.
  - intros ([h1 ep1] & H1 & H2)%bind_Ok.
    eapply draft_grows_trans; [by eapply draft_connectLayer_grows|by eapply IH].
Qed.

Lemma draft_Insert_grows drawn q h h' :
  draft.Insert rangeOrder drawn q h = Ok h' → draft.grows h h'.
Proof.
  unfold draft.Insert. cbv zeta.
  intros ([h1 ep] & H1 & ([h2 ep'] & H2 & [= <-])%bind_Ok)%bind_Ok.
  apply draft_connect_grows in H2.
  eapply draft_grows_trans; [|exact H2].
  revert H1. case_bool_decide.
  - intros [= <- <-]. split.
    + intros lc u v. by rewrite draft_edge_growLayers.
    + intros Hsym lc u v. rewrite !draft_edge_growLayers. apply Hsym.
  - intros (ep0 & _ & [= <- <-])%bind_Ok. by split.
Qed.

(** The loops of the draft end. *)

Lemma draft_descend_fuel turns h q lc ep :
  draft.descend turns h q lc ep ≠ OutOfFuel.
Proof. by destruct (draft_descend_cases turns h q lc ep) as [-> | ->]. Qed.

Lemma draft_closerLoop_fuel h e rs : draft.closerLoop h e rs ≠ OutOfFuel.
Proof.
  induction rs as [|r rs IH]; cbn [draft.closerLoop]; [done|].
  intros [?|(d & _ & Hk)]%bind_OutOfFuel; [by eapply Distance_fuel|].
  revert Hk. by case_match.
Qed.

Lemma draft_selectLoop_fuel turns h M : ∀ W R Wd,
  draft.selectLoop rangeOrder turns h M W R Wd ≠ OutOfFuel.
Proof.
  induction turns as [|t IH]; intros W R Wd; cbn [draft.selectLoop]; [done|].
  case_match; [|done].
  intros [?|([e W'] & _ & Hk)]%bind_OutOfFuel; [by eapply draft_heap_Pop_fuel|].
  apply bind_OutOfFuel in Hk as [?|([|] & _ & Hk)];
    [by eapply draft_closerLoop_fuel|by eapply IH..].
Qed.

Lemma draft_keepLoop_fuel turns M : ∀ Wd R,
  draft.keepLoop turns M Wd R ≠ OutOfFuel.
Proof.
  induction turns as [|t IH]; intros Wd R; cbn [draft.keepLoop]; [done|].
  case_match; [|done].
  intros [?|([e W'] & _ & Hk)]%bind_OutOfFuel; [by eapply draft_heap_Pop_fuel|].
  by eapply IH.
Qed.

Lemma draft_heuristic_fuel h q candidates M layer ext keep :
  draft.SelectNeighborsHeuristic rangeOrder h q candidates M layer ext keep
  ≠ OutOfFuel.
Proof.
  unfold draft.SelectNeighborsHeuristic.
  intros [Hk|(W0 & _ & Hk)]%bind_OutOfFuel.
  { revert Hk. apply foldExec_fuel. intros W c. unfold draft.pushCandidate.
    intros [?|(? & _ & ?)]%bind_OutOfFuel; [by eapply Distance_fuel|done]. }
  apply bind_OutOfFuel in Hk as [Hk|(W & _ & Hk)].
  { destruct ext; [|done].
    apply bind_OutOfFuel in Hk as [Hk|([] & _ & ?)]; [|done].
    revert Hk. apply foldExec_fuel. intros st c. unfold draft.extendCandidate.
    intros [?|(nb & _ & Hk)]%bind_OutOfFuel; [by eapply draft_neighbours_fuel|].
    revert Hk. apply foldExec_fuel. intros [W1 nbs] v. unfold draft.extendOne.
    case_bool_decide; [done|].
    intros [?|(? & _ & ?)]%bind_OutOfFuel; [by eapply Distance_fuel|done]. }
  apply bind_OutOfFuel in Hk as [?|([R Wd] & _ & Hk)];
    [by eapply draft_selectLoop_fuel|].
  apply bind_OutOfFuel in Hk as [Hk|(? & _ & ?)]; [|done].
  destruct keep; [by eapply draft_keepLoop_fuel|done].
Qed.

Lemma draft_connectLayer_fuel h q lc ep :
  draft.connectLayer rangeOrder h q lc ep ≠ OutOfFuel.
Proof.
  unfold draft.connectLayer.
  intros [Hk|(nbrs & _ & Hk)]%bind_OutOfFuel.
  { by destruct (draft_searchLayer_cases h q (draft.EfConstruction h) lc ep)
      as [Heq|Heq]; rewrite Heq in Hk. }
  apply bind_OutOfFuel in Hk as [?|(sel & _ & Hk)];
    [by eapply draft_heuristic_fuel|].
  apply bind_OutOfFuel in Hk as [Hk|(h1 & _ & Hk)].
  { revert Hk. apply foldExec_fuel. intros h0 n. unfold draft.connectOne.
    intros [Hk|(h2 & _ & Hk)]%bind_OutOfFuel;
      unfold draft.addConnection in Hk; by destruct (index _ _). }
  apply bind_OutOfFuel in Hk as [?|(? & _ & ?)]; [by eapply orPanic_fuel|done].
Qed.

Lemma draft_connect_fuel turns : ∀ h q lc ep,
  draft.connect rangeOrder turns h q lc ep ≠ OutOfFuel.
Proof.
  induction turns as [|turns IH]; intros h q lc ep; cbn [draft.connect]; [done|].
  intros [?|([h1 ep1] & _ & ?)]%bind_OutOfFuel;
    [by eapply draft_connectLayer_fuel|by eapply IH].
Qed.

Lemma draft_Insert_fuel drawn q h :
  draft.Insert rangeOrder drawn q h ≠ OutOfFuel.
Proof.
  unfold draft.Insert. cbv zeta.
  intros [Hk|([h1 ep] & _ & Hk)]%bind_OutOfFuel.
  { revert Hk. case_bool_decide; [done|].
    intros [?|(? & _ & ?)]%bind_OutOfFuel; [by eapply draft_descend_fuel|done]. }
  apply bind_OutOfFuel in Hk as [?|([h2 ep'] & _ & ?)];
    [by eapply draft_connect_fuel|done].
Qed.

End DraftInsertFacts.

(** ** The draft: the field MaxConnections is never read *)

Section DraftMaxConnections.

Variable m : Z.

Lemma draft_searchLoop_max fuel : ∀ h q ef lc st,
  draft.searchLoop fuel (draft.withMaxConnections m h) q ef lc st = draft.searchLoop fuel h q ef lc st.
Proof.
  induction fuel as [|fuel IH]; intros h q ef lc [[V C] W]; [done|].
  cbn [draft.searchLoop]. case_bool_decide; [done|].
  apply bind_ext. intros [nc C']. apply bind_ext. intros fc.
  case_match; [done|].
  change (draft.neighbours (draft.withMaxConnections m h) lc (NodeID nc))
    with (draft.neighbours h lc (NodeID nc)).
  apply bind_ext. intros nbrs.
  change (draft.visit (draft.withMaxConnections m h) q ef) with (draft.visit h q ef).
  apply bind_ext. intros st'. apply IH.
Qed.

Lemma draft_searchLayer_max h q entry ef lc :
  draft.searchLayer (draft.withMaxConnections m h) q entry ef lc = draft.searchLayer h q entry ef lc.
Proof.
  unfold draft.searchLayer. cbv zeta.
  change (draft.elementOf (draft.withMaxConnections m h) entry) with (draft.elementOf h entry).
  apply bind_ext. intros d.
  change (draft.searchFuel (draft.withMaxConnections m h) lc) with (draft.searchFuel h lc).
  by rewrite draft_searchLoop_max.
Qed.

Lemma draft_descend_max turns : ∀ h q lc ep,
  draft.descend turns (draft.withMaxConnections m h) q lc ep = draft.descend turns h q lc ep.
Proof.
  induction turns as [|turns IH]; intros h q lc ep; cbn [draft.descend]; [done|].
  rewrite draft_searchLayer_max. apply bind_ext. intros W.
  apply bind_ext. intros ep'. apply IH.
Qed.

Lemma draft_KNNSearch_max h q K :
  draft.KNNSearch (draft.withMaxConnections m h) q K = draft.KNNSearch h q K.
Proof.
  unfold draft.KNNSearch. cbv zeta.
  change (draft.Layers (draft.withMaxConnections m h)) with (draft.Layers h).
  change (draft.EnterPoint (draft.withMaxConnections m h)) with (draft.EnterPoint h).
  change (draft.EfConstruction (draft.withMaxConnections m h)) with (draft.EfConstruction h).
  rewrite draft_descend_max. apply bind_ext. intros ep.
  apply draft_searchLayer_max.
Qed.

Lemma draft_closerLoop_max h e rs :
  draft.closerLoop (draft.withMaxConnections m h) e rs = draft.closerLoop h e rs.
Proof.
  induction rs as [|r rs IH]; cbn [draft.closerLoop]; [done|].
  change (draft.elementOf (draft.withMaxConnections m h)) with (draft.elementOf h).
  apply bind_ext. intros d. by rewrite IH.
Qed.

Variable rangeOrder : list Z → list Z.

Lemma draft_selectLoop_max turns h M : ∀ W R Wd,
  draft.selectLoop rangeOrder turns (draft.withMaxConnections m h) M W R Wd
  = draft.selectLoop rangeOrder turns h M W R Wd.
Proof.
  induction turns as [|t IH]; intros W R Wd; cbn [draft.selectLoop]; [done|].
  case_match; [|done]. apply bind_ext. intros [e W'].
  rewrite draft_closerLoop_max. apply bind_ext. intros []; apply IH.
Qed.

Lemma draft_heuristic_max h q candidates M layer ext keep :
  draft.SelectNeighborsHeuristic rangeOrder (draft.withMaxConnections m h) q candidates M layer ext keep
  = draft.SelectNeighborsHeuristic rangeOrder h q candidates M layer ext keep.
Proof.
  unfold draft.SelectNeighborsHeuristic. cbv zeta.
  change (draft.pushCandidate (draft.withMaxConnections m h) q) with (draft.pushCandidate h q).
  apply bind_ext. intros W0.
  change (draft.extendCandidate (draft.withMaxConnections m h) q layer)
    with (draft.extendCandidate h q layer).
  apply bind_ext. intros W. by rewrite draft_selectLoop_max.
Qed.

Lemma draft_addConnection_max h from to layer :
  draft.addConnection (draft.withMaxConnections m h) from to layer
  = (h' ← draft.addConnection h from to layer; Ok (draft.withMaxConnections m h')).
Proof.
  unfold draft.addConnection.
  change (draft.Layers (draft.withMaxConnections m h)) with (draft.Layers h).
  by destruct (index _ _).
Qed.

Lemma draft_connectOne_max qID lc h n :
  draft.connectOne qID lc (draft.withMaxConnections m h) n
  = (h' ← draft.connectOne qID lc h n; Ok (draft.withMaxConnections m h')).
Proof.
  unfold draft.connectOne. rewrite draft_addConnection_max.
  destruct (draft.addConnection h qID n lc) as [h1| |]; [|done..].
  rewrite !Ok_bind. apply draft_addConnection_max.
Qed.

Lemma draft_connectAll_max qID lc sel : ∀ h,
  foldExec (draft.connectOne qID lc) (draft.withMaxConnections m h) sel
  = (h' ← foldExec (draft.connectOne qID lc) h sel; Ok (draft.withMaxConnections m h')).
Proof.
  induction sel as [|n sel IH]; intros h; cbn [foldExec]; [done|].
  rewrite draft_connectOne_max.
  destruct (draft.connectOne qID lc h n) as [h1| |]; [|done..].
  rewrite !Ok_bind. apply IH.
Qed.

Lemma draft_connectLayer_max h q lc ep :
  draft.connectLayer rangeOrder (draft.withMaxConnections m h) q lc ep
  = ('(h', ep') ← draft.connectLayer rangeOrder h q lc ep; Ok (draft.withMaxConnections m h', ep')).
Proof.
  unfold draft.connectLayer.
  change (draft.EfConstruction (draft.withMaxConnections m h)) with (draft.EfConstruction h).
  change (draft.InitConnects (draft.withMaxConnections m h)) with (draft.InitConnects h).
  rewrite draft_searchLayer_max.
  destruct (draft.searchLayer h q ep _ lc) as [nbrs| |]; [|done..].
  rewrite !Ok_bind, draft_heuristic_max.
  destruct (draft.SelectNeighborsHeuristic _ _ _ _ _ _ _ _) as [sel| |];
    [|done..].
  rewrite !Ok_bind, draft_connectAll_max.
  destruct (foldExec _ h sel) as [h1| |]; [|done..].
  rewrite !Ok_bind. by destruct (orPanic _).
Qed.

Lemma draft_connect_max turns : ∀ h q lc ep,
  draft.connect rangeOrder turns (draft.withMaxConnections m h) q lc ep
  = ('(h', ep') ← draft.connect rangeOrder turns h q lc ep; Ok (draft.withMaxConnections m h', ep')).
Proof.
  induction turns as [|turns IH]; intros h q lc ep; cbn [draft.connect]; [done|].
  rewrite draft_connectLayer_max.
  destruct (draft.connectLayer rangeOrder h q lc ep) as [[h1 ep1]| |]; [|done..].
  rewrite !Ok_bind. apply IH.
Qed.

Lemma draft_Insert_max drawn q h :
  draft.Insert rangeOrder drawn q (draft.withMaxConnections m h)
  = (h' ← draft.Insert rangeOrder drawn q h; Ok (draft.withMaxConnections m h')).
Proof.
  unfold draft.Insert. cbv zeta.
  change (draft.MaxLayers (draft.withMaxConnections m h)) with (draft.MaxLayers h).
  set (level := if bool_decide (drawn > draft.MaxLayers h) then _ else _).
  change (draft.Layers (draft.setElement (draft.withMaxConnections m h) q)) with (draft.Layers h).
  change (draft.Layers (draft.setElement h q)) with (draft.Layers h).
  change (draft.EnterPoint (draft.setElement (draft.withMaxConnections m h) q))
    with (draft.EnterPoint h).
  change (draft.EnterPoint (draft.setElement h q)) with (draft.EnterPoint h).
  change (draft.setElement (draft.withMaxConnections m h) q) with (draft.withMaxConnections m (draft.setElement h q)).
  case_bool_decide.
  - rewrite !Ok_bind.
    change (draft.growLayers (draft.withMaxConnections m (draft.setElement h q)) level (ID q))
      with (draft.withMaxConnections m (draft.growLayers (draft.setElement h q) level (ID q))).
    rewrite draft_connect_max.
    by destruct (draft.connect _ _ _ _ _ _) as [[h1 ep1]| |].
  - rewrite draft_descend_max.
    destruct (draft.descend _ _ _ _ _) as [ep| |]; [|done..].
    rewrite !Ok_bind, draft_connect_max.
    by destruct (draft.connect _ _ _ _ _ _) as [[h1 ep1]| |].
Qed.

End DraftMaxConnections.

(** ** The draft: what its calls return *)

(** X20. The draft [searchLayer] ends on every input, and what it returns
    does not depend on the search it has made: it returns the slice that
    holds the entry point alone, or it panics. *)
Theorem draft_searchLayer_outcome h q entry ef lc :
  draft.searchLayer h q entry ef lc = Ok [entry]
  ∨ draft.searchLayer h q entry ef lc = Panic.
Proof. apply draft_searchLayer_cases. Qed.

(** X21. The draft [searchLayer] returns, without a panic, when the layer
    exists and the vectors of the entry point and of every id in a
    neighbour list of the layer have a coordinate for each coordinate of the
    query. An id without a neighbour list is no obstacle: the missing key
    reads as the nil slice. *)
Theorem draft_searchLayer_returns h q entry ef lc :
  is_Some (index (draft.Layers h) lc) →
  (length (Embeddings q) ≤ length (Embeddings (draft.elementOf h entry)))%nat →
  set_Forall
    (λ el, (length (Embeddings q)
              ≤ length (Embeddings (draft.elementOf h el)))%nat)
    (draft.neighbourIDs (default ∅ (index (draft.Layers h) lc))) →
  draft.searchLayer h q entry ef lc = Ok [entry].
Proof.
  intros Hl He Hall. apply draft_searchLayer_Ok; [done|].
  intros el [->|Hel]; [done|]. by apply Hall.
Qed.

Lemma draft_searchLayer_returns_witness :
  draft.searchLayer draftLine (point 9 3%float) 1 2 0 = Ok [1].
Proof.
  apply (draft_searchLayer_returns draftLine (point 9 3%float) 1 2 0).
  - vm_compute. eauto.
  - vm_compute. lia.
  - apply set_Forall_elements, (bool_decide_unpack _). vm_compute. exact I.
Defined.

(** X22. The draft [KNNSearch] returns the slice that holds the entry point
    of the index alone, or it panics, whatever the query and [K]: every
    [searchLayer] hands back the entry point it was given. *)
Theorem draft_KNNSearch_outcome h q K :
  draft.KNNSearch h q K = Ok [draft.EnterPoint h]
  ∨ draft.KNNSearch h q K = Panic.
Proof. apply draft_KNNSearch_cases. Qed.

(** X23. On an index without points the draft [KNNSearch] panics: its last
    [searchLayer] indexes layer 0 of an empty slice of layers. *)
Theorem draft_KNNSearch_empty_index_panics
    maxConnections efConstruction initConnects maxLayers nm q K :
  draft.KNNSearch
    (draft.NewHNSW maxConnections efConstruction initConnects maxLayers nm) q K
  = Panic.
Proof.
  unfold draft.KNNSearch. cbn [draft.Layers draft.NewHNSW length].
  change (Z.to_nat (Z.of_nat 0)) with 0%nat. cbn [draft.descend].
  rewrite Ok_bind. by apply draft_searchLayer_no_layer.
Qed.

(** X24. On an index with a layer, the draft [KNNSearch] returns the entry
    point when the vectors of the entry point and of every id in a
    neighbour list have a coordinate for each coordinate of the query. *)
Theorem draft_KNNSearch_returns h q K :
  (0 < length (draft.Layers h))%nat →
  (length (Embeddings q)
     ≤ length (Embeddings (draft.elementOf h (draft.EnterPoint h))))%nat →
  Forall
    (set_Forall
       (λ el, (length (Embeddings q)
                 ≤ length (Embeddings (draft.elementOf h el)))%nat)
     ∘ draft.neighbourIDs)
    (draft.Layers h) →
  draft.KNNSearch h q K = Ok [draft.EnterPoint h].
Proof.
  intros Hlen He Hall. unfold draft.KNNSearch. cbv zeta.
  assert (Hdim : ∀ l layer el, index (draft.Layers h) l = Some layer →
            el = draft.EnterPoint h ∨ el ∈ draft.neighbourIDs layer →
            (length (Embeddings q)
               ≤ length (Embeddings (draft.elementOf h el)))%nat).
  { intros l layer el [_ Hl]%index_Some [->|Hel]; [done|].
    rewrite Forall_forall in Hall. apply (Hall layer); [|done].
    by eapply list_elem_of_lookup_2. }
  rewrite draft_descend_Ok; [|lia|lia|done]. rewrite Ok_bind.
  destruct (index_length (draft.Layers h) 0) as [_ [layer Hl]]; [lia|].
  apply draft_searchLayer_Ok; [eauto|].
  rewrite Hl. simpl. intros el Hel. by eapply Hdim.
Qed.

Lemma draft_KNNSearch_returns_witness :
  draft.KNNSearch draftLine (point 9 3%float) 2 = Ok [3].
Proof.
  apply (draft_KNNSearch_returns draftLine (point 9 3%float) 2).
  - vm_compute. lia.
  - vm_compute. lia.
  - apply (Forall_impl
             (λ layer,
                Forall (λ el, (1 ≤ length (Embeddings
                                             (draft.elementOf draftLine el)))%nat)
                  (elements (draft.neighbourIDs layer)))).
    + apply (bool_decide_unpack _). vm_compute. exact I.
    + intros layer. apply set_Forall_elements.
Defined.

(** X25. The draft [Insert] only appends to neighbour lists, and always in
    both directions: after an insertion that returns, every edge stored
    before is still stored, and the adjacency is symmetric if it was. *)
Theorem draft_Insert_keeps_edges rangeOrder drawn q h h' :
  draft.Insert rangeOrder drawn q h = Ok h' →
  (∀ lc u v, draft.edge h lc u v → draft.edge h' lc u v)
  ∧ (draft.symmetric h → draft.symmetric h').
Proof. apply draft_Insert_grows. Qed.

Lemma draft_Insert_keeps_edges_witness :
  let h' :=
    fromOk draftEmpty (draft.Insert idOrder 0 (point 4 6%float) draftLine) in
  (∀ lc u v, draft.edge draftLine lc u v → draft.edge h' lc u v)
  ∧ (draft.symmetric draftLine → draft.symmetric h').
Proof.
  apply (draft_Insert_keeps_edges idOrder 0 (point 4 6%float) draftLine).
  vm_compute. reflexivity.
Defined.

(** X26. The draft [Insert] ends on every input: it returns or it panics. *)
Theorem draft_Insert_terminates rangeOrder drawn q h :
  (∃ h', draft.Insert rangeOrder drawn q h = Ok h')
  ∨ draft.Insert rangeOrder drawn q h = Panic.
Proof. apply exec_cases, draft_Insert_fuel. Qed.

(** X27. The field [MaxConnections] of the draft has no effect: with any
    other value in it, [Insert] does the same to the rest of the index and
    [KNNSearch] answers the same. No neighbour list of the draft is
    bounded by it. *)
Theorem draft_MaxConnections_is_not_read rangeOrder m drawn q h K :
  draft.Insert rangeOrder drawn q (draft.withMaxConnections m h)
  = (h' ← draft.Insert rangeOrder drawn q h;
     Ok (draft.withMaxConnections m h'))
  ∧ draft.KNNSearch (draft.withMaxConnections m h) q K = draft.KNNSearch h q K.
Proof. split; [apply draft_Insert_max|apply draft_KNNSearch_max]. Qed.

(** ** Insert and KNNSearch on a well-formed index *)

Lemma elementOf_sameConfig h h' id :
  sameConfig h h' → elementOf h' id = elementOf h id.
Proof. intros [_ _ _ _ _ _ Hel _]. unfold elementOf. by rewrite Hel. Qed.

Lemma addConnection_Ok d qID h from to layer :
  linkable d qID h → present h layer from → present h layer to →
  ∃ h', addConnection h from to layer = Ok h' ∧ linkable d qID h'.
Proof.
  intros Hlink Hfrom Hto.
  assert (Hres : ∃ h', addConnection h from to layer = Ok h').
  { unfold addConnection.
    destruct (Distance_Ok (elementOf h from) (elementOf h to)) as [ft ->].
    { rewrite (link_dim _ _ _ Hlink _ _ Hfrom), (link_dim _ _ _ Hlink _ _ Hto).
      done. }
    rewrite Ok_bind. apply layerHeap_present in Hfrom as [nb ->].
    rewrite Ok_bind. case_bool_decide as Hlen; [eauto|].
    pose proof (link_cap _ _ _ Hlink) as Hcap.
    destruct (lookup_lt_is_Some_2 (Candidates nb) 0) as [top ->].
    { unfold Len in Hlen. lia. }
    cbn [orPanic]. rewrite Ok_bind. case_match; [|eauto].
    destruct (heap_Pop_Ok nb) as (item & nb' & ->); [lia|].
    rewrite Ok_bind. eauto. }
  destruct Hres as [h' Hadd]. exists h'. split; [done|].
  pose proof (addConnection_config _ _ _ _ _ Hadd) as Hcfg.
  destruct Hlink as [Hcl Hdim Hnew Hnest HM Hcap]. split.
  - intros lc u v He.
    apply (addConnection_present _ _ _ _ _ _ _ Hadd).
    destruct (addConnection_edge _ _ _ _ _ _ _ _ Hadd He) as [?|(-> & _ & ->)];
      eauto.
  - intros lc u Hp. rewrite (elementOf_sameConfig _ _ _ Hcfg).
    apply (Hdim lc). by apply (addConnection_present _ _ _ _ _ _ _ Hadd).
  - by rewrite (elementOf_sameConfig _ _ _ Hcfg).
  - intros lc u Hu Hlc Hp.
    apply (addConnection_present _ _ _ _ _ _ _ Hadd).
    apply (addConnection_present _ _ _ _ _ _ _ Hadd) in Hp. auto.
  - by rewrite (same_M _ _ Hcfg).
  - by rewrite (same_maxConnections _ _ Hcfg).
Qed.

Lemma connectOne_Ok d qID lc h n :
  linkable d qID h → present h lc n → present h lc qID →
  ∃ h', connectOne qID lc h n = Ok h' ∧ linkable d qID h'.
Proof.
  intros Hlink Hn Hq. unfold connectOne.
  destruct (addConnection_Ok d qID h n qID lc) as (h1 & H1 & Hlink1); [done..|].
  rewrite H1, Ok_bind.
  apply addConnection_Ok; [done|..];
    by apply (addConnection_present _ _ _ _ _ _ _ H1).
Qed.

Lemma connectAll_Ok d qID lc sel : ∀ h,
  linkable d qID h → present h lc qID → (∀ n, n ∈ sel → present h lc n) →
  ∃ h', foldExec (connectOne qID lc) h sel = Ok h' ∧ linkable d qID h'.
Proof.
  induction sel as [|n sel IH]; intros h Hlink Hq Hsel; cbn [foldExec];
    [eauto|].
  destruct (connectOne_Ok d qID lc h n) as (h1 & H1 & Hlink1);
    [done|apply Hsel; by left|done|].
  rewrite H1, Ok_bind. apply IH; [done|..].
  - by apply (connectOne_present _ _ _ _ _ _ _ H1).
  - intros n' Hn'. apply (connectOne_present _ _ _ _ _ _ _ H1).
    apply Hsel. by right.
Qed.

Lemma linkable_storeEmpty d qID h lc :
  linkable d qID h → is_Some (index (Layers h) lc) →
  linkable d qID (storeHeap h lc qID (heap_Init (mkHeap [] "big"))).
Proof.
  intros [Hcl Hdim Hnew Hnest HM Hcap] Hl. split; try done.
  - intros lc' u v. rewrite edge_storeHeap, present_storeHeap by done.
    intros [(_ & _ & Hv)|[_ He]]; [by apply elem_of_nil in Hv|eauto].
  - intros lc' u. rewrite present_storeHeap by done.
    intros [[_ ->]|Hp]; [done|by eapply Hdim].
  - intros lc' u Hu Hlc. rewrite !present_storeHeap by done.
    intros [[_ ->]|Hp]; [done|]. right. auto.
Qed.

Section WellFormedFacts.

Variable rangeOrder : list Z → list Z.
Hypothesis rangeOrder_perm : ∀ keys, rangeOrder keys ≡ₚ keys.

Lemma connectLayer_Ok d h q lc ep :
  linkable d (ID q) h → length (Embeddings q) = d →
  is_Some (index (Layers h) lc) → ep = ID q ∨ present h lc ep →
  ∃ h' ep', connectLayer rangeOrder h q lc ep = Ok (h', ep')
            ∧ linkable d (ID q) h'
            ∧ (ep' = ID q ∨ present h' lc ep').
Proof.
  intros Hlink Hq Hl Hep. unfold connectLayer.
  destruct Hl as [layer Hl]. rewrite Hl. cbn [orPanic]. rewrite Ok_bind.
  set (h2 := storeHeap h lc (ID q) (heap_Init (mkHeap [] "big"))).
  assert (Hlink2 : linkable d (ID q) h2) by (apply linkable_storeEmpty; eauto).
  assert (Hep2 : present h2 lc ep).
  { apply present_storeHeap; [eauto|]. destruct Hep as [->|?]; auto. }
  destruct Hlink2 as [Hcl Hdim Hnew Hnest HM Hcap].
  assert (Hs : searchable h2 q lc).
  { split.
    - apply index_sameLength with (Layers h); [|eauto].
      symmetry. apply (same_length _ _ (sameConfig_storeHeap h lc (ID q) _)).
    - apply Hcl.
    - intros u Hu. rewrite (Hdim _ _ Hu). lia. }
  destruct (SearchLayer_Ok h2 q (EfConstruction h2) lc ep Hs Hep2) as [W HW].
  rewrite HW, Ok_bind.
  assert (Hnb : ∀ v, v ∈ ExtractHeapData W → present h2 lc v).
  { intros v (c & -> & Hc)%list_elem_of_fmap.
    destruct (SearchLayer_inv _ _ _ _ _ _ HW) as (V & C & Hinv).
    eapply reachable_present; [apply Hcl|exact Hep2|].
    eapply inv_V_reach; [exact Hinv|]. by eapply inv_W_visited. }
  assert (Hpool : ∀ r, pool h2 lc (ExtractHeapData W) r → present h2 lc r).
  { intros r [Hr|(c & Hc & He)]; eauto. }
  destruct (SelectNeighborsHeuristic_Ok rangeOrder h2 q lc
              (ExtractHeapData W) (M h2) true true) as [sel Hsel].
  { done. }
  { split.
    - intros a Ha. rewrite (Hdim lc a) by auto. lia.
    - intros a b Ha Hb. rewrite (Hdim lc a), (Hdim lc b) by auto. done. }
  { intros _ c Hc. auto. }
  rewrite Hsel, Ok_bind.
  apply SelectNeighborsHeuristic_inv in Hsel as (_ & _ & Hsub); [|done..].
  destruct (connectAll_Ok d (ID q) lc sel h2) as (h3 & Hfold & Hlink3).
  { by split. }
  { apply present_storeHeap; eauto. }
  { intros n Hn. auto. }
  rewrite Hfold, Ok_bind.
  destruct (SearchLayer_first _ _ _ _ _ _ HW) as (c & _ & Hfirst).
  rewrite Hfirst. cbn [orPanic]. rewrite Ok_bind.
  exists h3, (NodeID c). split_and!; [done..|]. right.
  apply (connectAll_present _ _ _ _ _ _ _ Hfold). apply Hnb.
  by eapply list_elem_of_lookup_2.
Qed.

Lemma connect_Ok d q turns : ∀ h lc ep,
  linkable d (ID q) h → length (Embeddings q) = d →
  Z.of_nat turns = lc + 1 → lc < Z.of_nat (length (Layers h)) →
  ep = ID q ∨ turns = 0%nat ∨ present h lc ep →
  ∃ h' ep', connect rangeOrder turns h q lc ep = Ok (h', ep')
            ∧ linkable d (ID q) h'.
Proof.
  induction turns as [|turns IH]; intros h lc ep Hlink Hq Hturns Hlc Hep;
    cbn [connect]; [eauto|].
  destruct (connectLayer_Ok d h q lc ep) as (h1 & ep1 & H1 & Hlink1 & Hep1);
    [done..|apply index_length; lia|destruct Hep as [?|[?|?]]; auto; lia|].
  rewrite H1, Ok_bind.
  apply IH; [done..|lia| |].
  - apply connectLayer_config in H1 as [_ _ _ _ _ _ _ ->]. lia.
  - destruct Hep1 as [?|Hp]; [by left|].
    destruct (decide (ep1 = ID q)) as [?|Hne]; [by left|].
    destruct turns as [|turns']; [auto|]. right. right.
    apply (link_nested _ _ _ Hlink1); [done|lia|done].
Qed.

End WellFormedFacts.

Lemma descend_Ok h q :
  (∀ lc u v, edge h lc u v → present h lc v) →
  (∀ lc u, present h lc u →
     (length (Embeddings q) ≤ length (Embeddings (elementOf h u)))%nat) →
  (∀ lc u, 0 < lc → present h lc u → present h (lc - 1) u) →
  ∀ turns lc ep, Z.of_nat turns ≤ lc → present h lc ep →
  ∃ ep', descend turns h q lc ep = Ok ep'
         ∧ present h (lc - Z.of_nat turns) ep'.
Proof.
  intros Hcl Hdim Hnest.
  induction turns as [|turns IH]; intros lc ep Hturns Hep; cbn [descend].
  { exists ep. split; [done|]. by rewrite Z.sub_0_r. }
  assert (Hs : searchable h q lc).
  { split; [|apply Hcl|apply Hdim]. destruct Hep as (layer & -> & _). eauto. }
  destruct (SearchLayer_Ok h q 1 lc ep Hs Hep) as [W HW].
  rewrite HW, Ok_bind.
  destruct (SearchLayer_first _ _ _ _ _ _ HW) as (c & Hc & _).
  rewrite Hc. cbn [orPanic]. rewrite Ok_bind.
  assert (Hp : present h lc (NodeID c)).
  { destruct (SearchLayer_inv _ _ _ _ _ _ HW) as (V & C & Hinv).
    eapply reachable_present; [apply Hcl|exact Hep|].
    eapply inv_V_reach; [exact Hinv|]. eapply inv_W_visited; [exact Hinv|].
    by eapply list_elem_of_lookup_2. }
  destruct (IH (lc - 1) (NodeID c)) as (ep' & -> & Hep'); [lia|apply Hnest; [lia|done]|].
  exists ep'. split; [done|].
  by replace (lc - Z.of_nat (S turns)) with (lc - 1 - Z.of_nat turns) by lia.
Qed.

Lemma linkable_setElement d q h :
  wellFormed d h → length (Embeddings q) = d →
  linkable d (ID q) (setElement h q).
Proof.
  intros [Hcl Hdim Hnest Hentry HM Hcap] Hq. split; try done.
  - intros lc u Hp. unfold elementOf, setElement. cbn [Elements].
    destruct (decide (u = ID q)) as [->|Hne].
    + by rewrite lookup_insert_eq.
    + rewrite lookup_insert_ne by done. by apply (Hdim lc).
  - unfold elementOf, setElement. cbn [Elements]. by rewrite lookup_insert_eq.
  - intros lc u _. apply Hnest.
Qed.

Lemma linkable_growLayers d qID h level :
  linkable d qID h → linkable d qID (growLayers h level qID).
Proof.
  intros [Hcl Hdim Hnew Hnest HM Hcap]. split; try done.
  - intros lc u v He%edge_growLayers. apply present_growLayers. eauto.
  - intros lc u [Hp|[-> _]]%present_growLayers; [by apply (Hdim lc)|done].
  - intros lc u Hu Hlc [Hp|[-> _]]%present_growLayers; [|done].
    apply present_growLayers. auto.
Qed.

Section WellFormedInsert.

Variable rangeOrder : list Z → list Z.
Hypothesis rangeOrder_perm : ∀ keys, rangeOrder keys ≡ₚ keys.

Lemma Insert_Ok d drawn q h :
  wellFormed d h → length (Embeddings q) = d →
  0 ≤ drawn → 0 ≤ MaxLayers h →
  ∃ h', Insert rangeOrder drawn q h = Ok h' ∧ wellFormed d h'.
Proof.
  intros Hwf Hq Hdrawn Hmax.
  assert (Hres : ∃ h', Insert rangeOrder drawn q h = Ok h'
                       ∧ linkable d (ID q) h').
  { pose proof (linkable_setElement d q h Hwf Hq) as Hlink0.
    unfold Insert. cbv zeta. rewrite level_min.
    set (level := Z.min drawn (MaxLayers h)).
    change (Layers (setElement h q)) with (Layers h).
    change (EnterPoint (setElement h q)) with (EnterPoint h).
    set (topLevel := Z.of_nat (length (Layers h)) - 1).
    destruct (decide (topLevel ≤ level)) as [Hle|Hgt].
    - rewrite bool_decide_eq_true_2 by done. rewrite Ok_bind.
      assert (min topLevel level = topLevel) as ->
        by (unfold min; case_bool_decide; lia).
      destruct (connect_Ok rangeOrder rangeOrder_perm d q
                  (Z.to_nat (topLevel + 1))
                  (growLayers (setElement h q) level (ID q)) topLevel
                  (EnterPoint h)) as (h' & ep' & -> & Hlink');
        [by apply linkable_growLayers|done|lia| |..].
      + cbn. rewrite length_app. lia.
      + destruct (decide (length (Layers h) = 0%nat)) as [Hz|Hnz].
        * right. left. lia.
        * right. right. apply present_growLayers. left.
          apply (wf_entry _ _ Hwf). lia.
      + rewrite Ok_bind. eauto.
    - rewrite bool_decide_eq_false_2 by done.
      destruct (descend_Ok (setElement h q) q) with
        (turns := Z.to_nat (topLevel - level)) (lc := topLevel)
        (ep := EnterPoint h) as (ep1 & -> & Hep1).
      + apply (link_closed _ _ _ Hlink0).
      + intros lc u Hu. rewrite (link_dim _ _ _ Hlink0 _ _ Hu). lia.
      + apply (wf_nested _ _ Hwf).
      + lia.
      + apply (wf_entry _ _ Hwf). lia.
      + rewrite !Ok_bind.
        assert (min topLevel level = level) as ->
          by (unfold min; case_bool_decide; lia).
        destruct (connect_Ok rangeOrder rangeOrder_perm d q
                    (Z.to_nat (level + 1)) (setElement h q) level ep1)
          as (h' & ep' & -> & Hlink'); [done|done|lia| |..].
        * change (Layers (setElement h q)) with (Layers h). lia.
        * right. right.
          by replace (topLevel - Z.of_nat (Z.to_nat (topLevel - level)))
            with level in Hep1 by lia.
        * rewrite Ok_bind. eauto. }
  destruct Hres as (h' & Hins & [Hcl Hdim _ _ HM Hcap]).
  exists h'. split; [done|]. split; try done.
  - intros lc u Hlc Hp.
    apply (Insert_present _ _ _ _ _ _ _ Hins).
    apply (Insert_present _ _ _ _ _ _ _ Hins) in Hp as [Hp|[-> Hl]].
    + left. by apply (wf_nested _ _ Hwf).
    + right. split; [done|lia].
  - intros _.
    destruct (Insert_shape _ _ _ _ _ Hins) as [-> ->].
    apply (Insert_present _ _ _ _ _ _ _ Hins).
    case_bool_decide as Hle.
    + right. split; [done|]. lia.
    + left. replace (Z.of_nat (_ `max` _) - 1)
        with (Z.of_nat (length (Layers h)) - 1) by lia.
      apply (wf_entry _ _ Hwf). lia.
Qed.

Lemma InsertAll_Ok d ops : ∀ h,
  wellFormed d h → 0 ≤ MaxLayers h →
  Forall (λ op, 0 ≤ op.1 ∧ length (Embeddings op.2) = d) ops →
  ∃ h', InsertAll rangeOrder h ops = Ok h' ∧ wellFormed d h'.
Proof.
  unfold InsertAll. induction ops as [|op ops IH]; intros h Hwf Hmax Hops;
    cbn [foldExec]; [eauto|].
  apply Forall_cons in Hops as [[Hlevel Hq] Hops].
  destruct (Insert_Ok d op.1 op.2 h) as (h1 & H1 & Hwf1); [done..|].
  rewrite H1, Ok_bind. apply IH; [done| |done].
  destruct (Insert_config _ _ _ _ _ H1) as (_ & _ & _ & _ & ->). done.
Qed.

End WellFormedInsert.

Lemma wellFormed_NewHNSW d efConstruction m maxLayers nm :
  1 ≤ m < 2 ^ 62 → wellFormed d (NewHNSW efConstruction m maxLayers nm).
Proof.
  intros Hm.
  assert (Hno : ∀ lc u, ¬ present (NewHNSW efConstruction m maxLayers nm) lc u).
  { intros lc u (layer & [_ Hl]%index_Some & _). cbn in Hl.
    by rewrite lookup_nil in Hl. }
  split.
  - intros lc u v (layer & ch & [_ Hl]%index_Some & _). cbn in Hl.
    by rewrite lookup_nil in Hl.
  - intros lc u Hp. by apply Hno in Hp.
  - intros lc u _ Hp. by apply Hno in Hp.
  - cbn. lia.
  - cbn. lia.
  - cbn [maxConnections NewHNSW]. rewrite wrap64_small; lia.
Qed.

Lemma TopKMinVal_Ok K ch :
  Compare ch = BIG → 0 ≤ K → ∃ res ch', TopKMinVal K ch = Ok (res, ch').
Proof.
  intros Hcmp HK. destruct (decide (K = 0)) as [->|Hne].
  - unfold TopKMinVal, topValue. rewrite Hcmp.
    rewrite bool_decide_eq_false_2 by lia.
    change (String.eqb SMALL BIG) with false. cbv iota.
    assert (∃ ch1, (if bool_decide (0 < Z.of_nat (Len ch))
                    then topDrop (Len ch) 0 0 ch else Ok ch) = Ok ch1)
      as [ch1 ->].
    { case_bool_decide; [|eauto].
      destruct (topDrop_spec 0 (Len ch) 0 ch) as (? & ch1 & -> & _);
        [lia..|eauto]. }
    rewrite Ok_bind. rewrite bool_decide_eq_false_2 by lia.
    change (Z.to_nat (0 - 1)) with 0%nat. cbn [topFill]. eauto.
  - destruct (TopKMinVal_big_spec K ch Hcmp) as (? & ? & ch' & -> & _);
      [lia|eauto].
Qed.

Lemma KNNSearch_Ok d h q K :
  wellFormed d h → (0 < length (Layers h))%nat →
  (length (Embeddings q) ≤ d)%nat → 0 ≤ K →
  ∃ res, KNNSearch h q K = Ok res.
Proof.
  intros Hwf Hlen Hq HK. unfold KNNSearch. cbv zeta.
  assert (Hdim : ∀ lc u, present h lc u →
            (length (Embeddings q) ≤ length (Embeddings (elementOf h u)))%nat).
  { intros lc u Hu. by rewrite (wf_dim _ _ Hwf _ _ Hu). }
  destruct (descend_Ok h q (wf_closed _ _ Hwf) Hdim (wf_nested _ _ Hwf)
              (Z.to_nat (Z.of_nat (length (Layers h)) - 1))
              (Z.of_nat (length (Layers h)) - 1) (EnterPoint h))
    as (ep & -> & Hep); [lia|by apply (wf_entry _ _ Hwf)|].
  rewrite Ok_bind.
  replace (Z.of_nat (length (Layers h)) - 1
           - Z.of_nat (Z.to_nat (Z.of_nat (length (Layers h)) - 1)))
    with 0 in Hep by lia.
  assert (Hs : searchable h q 0).
  { split; [|apply (wf_closed _ _ Hwf)|apply Hdim].
    destruct Hep as (layer & -> & _). eauto. }
  destruct (SearchLayer_Ok h q K 0 ep Hs Hep) as [W HW].
  rewrite HW, Ok_bind.
  destruct (SearchLayer_inv _ _ _ _ _ _ HW) as (V & C & Hinv).
  destruct (TopKMinVal_Ok K W (inv_W_Compare _ _ _ _ _ _ _ _ Hinv) HK)
    as (res & W' & ->).
  rewrite Ok_bind. eauto.
Qed.

(** X29. Insertions into a well-formed index never panic, and leave it
    well-formed: the vectors inserted have the [d] coordinates of the
    stored ones, the drawn levels are not negative, and [range] yields each
    key once. An index made by [NewHNSW] with [1 <= M < 2^62] is
    well-formed. *)
Theorem InsertAll_returns rangeOrder d ops h :
  (∀ keys, rangeOrder keys ≡ₚ keys) →
  wellFormed d h → 0 ≤ MaxLayers h →
  Forall (λ op, 0 ≤ op.1 ∧ length (Embeddings op.2) = d) ops →
  ∃ h', InsertAll rangeOrder h ops = Ok h' ∧ wellFormed d h'.
Proof. intros Hperm. by apply InsertAll_Ok. Qed.

Lemma InsertAll_returns_witness :
  ∃ h', InsertAll idOrder smallIndex lineOps = Ok h' ∧ wellFormed 1 h'.
Proof.
  apply (InsertAll_returns idOrder 1 lineOps smallIndex).
  - intros keys. reflexivity.
  - apply wellFormed_NewHNSW. lia.
  - vm_compute. discriminate.
  - apply (bool_decide_unpack _). vm_compute. exact I.
Defined.

(** X30. On a well-formed index that has a layer, [KNNSearch] returns for
    every [K >= 0] and every query with at most the [d] coordinates of the
    stored vectors: no search started at the entry point reaches a missing
    neighbour list or a shorter vector. *)
Theorem KNNSearch_returns d h q K :
  wellFormed d h → (0 < length (Layers h))%nat →
  (length (Embeddings q) ≤ d)%nat → 0 ≤ K →
  ∃ res, KNNSearch h q K = Ok res.
Proof. apply KNNSearch_Ok. Qed.

Lemma KNNSearch_returns_witness :
  ∃ res, KNNSearch lineIndex (point 9 3%float) 2 = Ok res.
Proof.
  apply (KNNSearch_returns 1 lineIndex (point 9 3%float) 2).
  - destruct (InsertAll_Ok idOrder (λ keys, reflexivity keys) 1 lineOps
                smallIndex) as (h' & Hh' & Hwf).
    + apply wellFormed_NewHNSW. lia.
    + vm_compute. discriminate.
    + apply (bool_decide_unpack _). vm_compute. exact I.
    + unfold lineIndex. by rewrite Hh'.
  - vm_compute. lia.
  - vm_compute. lia.
  - lia.
Defined.
